(** * Verification of the lyrics scraper (scraping/scrape_main.py)

    The crawler is a set of asyncio coroutines.  They are embedded as trees
    of operations ([coro]); one interpreter runs a coroutine on its own
    ([exec]) and an event loop ([loop_step], [run_until_complete]) interleaves
    the tasks that [asyncio.gather] spawns. *)

From Stdlib Require Import ZArith Ascii String.
From stdpp Require Import base option list gmap strings fin_maps.

#[local] Set Warnings "-register-all".
#[local] Open Scope string_scope.
#[local] Open Scope list_scope.

(** ** Python strings *)

Module Str.

(** [s.startswith(pre)]. *)
Fixpoint startswith (pre s : string) : bool :=
  match pre, s with
  | EmptyString, _ => true
  | String a pre', String b s' => Ascii.eqb a b && startswith pre' s'
  | String _ _, EmptyString => false
  end.

(** [sub in s] on Python strings. *)
Fixpoint contains (sub s : string) : bool :=
  startswith sub s ||
  match s with
  | EmptyString => false
  | String _ rest => contains sub rest
  end.

Fixpoint endswith_char (c : ascii) (s : string) : bool :=
  match s with
  | EmptyString => false
  | String d EmptyString => Ascii.eqb c d
  | String _ rest => endswith_char c rest
  end.

Fixpoint all_char (c : ascii) (s : string) : bool :=
  match s with
  | EmptyString => true
  | String d rest => Ascii.eqb c d && all_char c rest
  end.

(** [s.rstrip(c)] for a single character. *)
Fixpoint rstrip (c : ascii) (s : string) : string :=
  match s with
  | EmptyString => EmptyString
  | String d rest =>
      match rstrip c rest with
      | EmptyString => if Ascii.eqb c d then EmptyString else String d EmptyString
      | rest' => String d rest'
      end
  end.

(** [(s[:i], s[i:])] with [i = s.rfind(c) + 1]. *)
Fixpoint rpartition (c : ascii) (s : string) : string * string :=
  match s with
  | EmptyString => (EmptyString, EmptyString)
  | String d rest =>
      match rpartition c rest with
      | (EmptyString, tl) =>
          if Ascii.eqb c d then (String d EmptyString, tl)
          else (EmptyString, String d tl)
      | (hd, tl) => (String d hd, tl)
      end
  end.

(** [s.split(c)[-1]]: what follows the last occurrence of [c]. *)
Definition last_field (c : ascii) (s : string) : string := snd (rpartition c s).

Definition is_empty (s : string) : bool :=
  match s with EmptyString => true | _ => false end.

End Str.

(** ** Exceptions *)

Inductive exn_class :=
| ClientOSError | ClientConnectorError
| ClientPayloadError | ServerDisconnectedError | RuntimeError
| AttributeError | IndexError | TypeError
| FileNotFoundError | FileExistsError | NotADirectoryError | IsADirectoryError.

(** An exception object: its class, the [errno] an [OSError] carries and
    what [str(err)] gives. *)
Record exn := mkExn { exn_cls : exn_class; exn_errno : option Z; exn_str : string }.

(** [isinstance(err, aiohttp.client_exceptions.ClientOSError)]:
    [ClientConnectorError] derives from [ClientOSError]. *)
Definition isinstance_ClientOSError (err : exn) : bool :=
  match exn_cls err with
  | ClientOSError | ClientConnectorError => true
  | _ => false
  end.

Definition NoneType_has_no (attr : string) : exn :=
  mkExn AttributeError None ("'NoneType' object has no attribute '" +:+ attr +:+ "'").

Definition NavigableString_has_no (attr : string) : exn :=
  mkExn AttributeError None ("'NavigableString' object has no attribute '" +:+ attr +:+ "'").

Definition list_index_out_of_range : exn :=
  mkExn IndexError None "list index out of range".

Definition cannot_concatenate_None : exn :=
  mkExn TypeError None "can only concatenate str (not NoneType) to str".

(** ** posixpath *)

Module posixpath.

Definition sep : ascii := "/"%char.

(** [posixpath.split]: head is everything up to the last slash, with its
    trailing slashes stripped unless it consists of slashes only. *)
Definition split (p : string) : string * string :=
  let '(head, tail) := Str.rpartition sep p in
  if negb (Str.is_empty head) && negb (Str.all_char sep head)
  then (Str.rstrip sep head, tail)
  else (head, tail).

Definition dirname (p : string) : string := fst (split p).

(** [posixpath.join(a, b)]. *)
Definition join (a b : string) : string :=
  if Str.startswith "/" b then b
  else if Str.is_empty a || Str.endswith_char sep a then a +:+ b
  else a +:+ "/" +:+ b.

End posixpath.

(** ** The file system

    Entries are keyed by the path as the program spells it; the current
    directory and the root always exist.  There are no links and no
    permissions, so the only failures are the structural ones. *)

Inductive entry := Dir | File (contents : string).

Definition ENOENT (p : string) : exn :=
  mkExn FileNotFoundError (Some 2%Z) ("[Errno 2] No such file or directory: '" +:+ p +:+ "'").
Definition EEXIST (p : string) : exn :=
  mkExn FileExistsError (Some 17%Z) ("[Errno 17] File exists: '" +:+ p +:+ "'").
Definition ENOTDIR (p : string) : exn :=
  mkExn NotADirectoryError (Some 20%Z) ("[Errno 20] Not a directory: '" +:+ p +:+ "'").
Definition EISDIR (p : string) : exn :=
  mkExn IsADirectoryError (Some 21%Z) ("[Errno 21] Is a directory: '" +:+ p +:+ "'").

Module os.

Definition curdir : string := ".".

Definition isdir (fs : gmap string entry) (p : string) : bool :=
  negb (Str.is_empty p) &&
  (String.eqb p curdir
   || Str.all_char posixpath.sep p
   || match fs !! p with Some Dir => true | _ => false end).

Definition exists_ (fs : gmap string entry) (p : string) : bool :=
  negb (Str.is_empty p) &&
  (isdir fs p || match fs !! p with Some _ => true | None => false end).

(** The parent directory of [p] can hold a new entry. *)
Definition parent_check (fs : gmap string entry) (p : string) : option exn :=
  let parent := posixpath.dirname p in
  if Str.is_empty parent || isdir fs parent then None
  else if exists_ fs parent then Some (ENOTDIR p)
  else Some (ENOENT p).

(** [os.mkdir(name)]. *)
Definition mkdir (name : string) (fs : gmap string entry) : exn + gmap string entry :=
  if Str.is_empty name then inl (ENOENT name)
  else if exists_ fs name then inl (EEXIST name)
  else match parent_check fs name with
       | Some e => inl e
       | None => inr (<[name := Dir]> fs)
       end.

(** [os.makedirs(name, exist_ok=True)], following the library's recursion on
    the head of the path; [fuel] bounds it by the length of the name. *)
Fixpoint makedirs_rec (fuel : nat) (name : string) (fs : gmap string entry)
  : exn + gmap string entry :=
  let '(head, tail) := posixpath.split name in
  let '(head, tail) :=
    if Str.is_empty tail then posixpath.split head else (head, tail) in
  let finish (fs : gmap string entry) :=
    match mkdir name fs with
    | inr fs' => inr fs'
    | inl e => if isdir fs name then inr fs else inl e
    end in
  if negb (Str.is_empty head) && negb (Str.is_empty tail) && negb (exists_ fs head)
  then
    match fuel with
    | O => inl (ENOENT name)
    | S fuel' =>
        match makedirs_rec fuel' head fs with
        | inr fs' => if String.eqb tail curdir then inr fs' else finish fs'
        | inl e =>
            match exn_cls e with
            | FileExistsError =>
                if String.eqb tail curdir then inr fs else finish fs
            | _ => inl e
            end
        end
    end
  else finish fs.

Definition makedirs (name : string) (fs : gmap string entry) : exn + gmap string entry :=
  makedirs_rec (String.length name) name fs.

(** [open(path, 'w')]: creates the file or truncates it. *)
Definition open_w (path : string) (fs : gmap string entry) : exn + gmap string entry :=
  if Str.is_empty path then inl (ENOENT path)
  else if isdir fs path || Str.endswith_char posixpath.sep path then inl (EISDIR path)
  else match parent_check fs path with
       | Some e => inl e
       | None => inr (<[path := File EmptyString]> fs)
       end.

(** Writing through a handle opened with ['w'] and closing it. *)
Definition write_file (path contents : string) (fs : gmap string entry)
  : gmap string entry :=
  <[path := File contents]> fs.

End os.

(** ** The network, as the coroutines see it

    A session answers a GET with a response or an error; a response answers
    the [k]-th call of [response.text()] with the body or an error. *)

Definition ClientResponse : Type := nat -> exn + string.
Definition ClientSession : Type := string -> exn + ClientResponse.

Definition session_is_closed : exn := mkExn RuntimeError None "Session is closed".

(** ** The world the coroutines act on *)

Inductive event :=
| EvGet (url : string)
| EvRead (attempt : nat)
| EvSleep (delay : Z)
| EvPrint (line : string)
| EvMakedirs (name : string)
| EvOpen (path : string)
| EvWrite (path contents : string)
| EvClose.

Record World := mkWorld {
  fs : gmap string entry;
  closed : bool;
  log : list event
}.

Definition record (ev : event) (w : World) : World :=
  mkWorld (fs w) (closed w) (log w ++ [ev]).

Definition set_fs (fs' : gmap string entry) (w : World) : World :=
  mkWorld fs' (closed w) (log w).

(** ** Operations a coroutine awaits or calls *)

Inductive io : Type -> Type :=
| Get (session : ClientSession) (url : string) : io (exn + ClientResponse)
| Text (response : ClientResponse) (attempt : nat) : io (exn + string)
| Sleep (delay : Z) : io unit
| Print (line : string) : io unit
| Makedirs (name : string) : io (exn + unit)
| OpenW (path : string) : io (exn + unit)
| WriteFile (path contents : string) : io unit
| Close : io unit.

Definition perform {X : Type} (op : io X) (w : World) : X * World :=
  match op in io X return X * World with
  | Get session url =>
      (if closed w then inl session_is_closed else session url, record (EvGet url) w)
  | Text response attempt => (response attempt, record (EvRead attempt) w)
  | Sleep delay => (tt, record (EvSleep delay) w)
  | Print line => (tt, record (EvPrint line) w)
  | Makedirs name =>
      match os.makedirs name (fs w) with
      | inl e => (inl e, record (EvMakedirs name) w)
      | inr fs' => (inr tt, record (EvMakedirs name) (set_fs fs' w))
      end
  | OpenW path =>
      match os.open_w path (fs w) with
      | inl e => (inl e, record (EvOpen path) w)
      | inr fs' => (inr tt, record (EvOpen path) (set_fs fs' w))
      end
  | WriteFile path contents =>
      (tt, record (EvWrite path contents) (set_fs (os.write_file path contents (fs w)) w))
  | Close => (tt, record EvClose (mkWorld (fs w) true (log w)))
  end.

(** ** Coroutines

    [Diverge] stands for a [while True] whose unrolling bound is used up;
    [Gather] is [await asyncio.gather( *aws )], resumed with the first
    exception of a child or with [None] once all children are done. *)

Inductive coro (R : Type) : Type :=
| Ret (r : R)
| Raise (e : exn)
| Diverge
| Vis {X : Type} (op : io X) (k : X -> coro R)
| Gather (aws : list (coro unit)) (k : option exn -> coro R).

Arguments Ret {R} r.
Arguments Raise {R} e.
Arguments Diverge {R}.
Arguments Vis {R X} op k.
Arguments Gather {R} aws k.

Fixpoint bind {A B : Type} (c : coro A) (f : A -> coro B) : coro B :=
  match c with
  | Ret r => f r
  | Raise e => Raise e
  | Diverge => Diverge
  | Vis op k => Vis op (fun x => bind (k x) f)
  | Gather aws k => Gather aws (fun r => bind (k r) f)
  end.

#[export] Instance coro_ret : MRet coro := @Ret.
#[export] Instance coro_bind : MBind coro := fun A B f c => bind c f.

(** [try: c  except Exception as err: handler err]. *)
Fixpoint try_except {A : Type} (c : coro A) (handler : exn -> coro A) : coro A :=
  match c with
  | Ret r => Ret r
  | Raise e => handler e
  | Diverge => Diverge
  | Vis op k => Vis op (fun x => try_except (k x) handler)
  | Gather aws k => Gather aws (fun r => try_except (k r) handler)
  end.

(** The exit of a [with] block: [fin] runs on return and on exception. *)
Definition finally_ {A : Type} (c : coro A) (fin : coro unit) : coro A :=
  r ← try_except c (fun e => fin ;; Raise e); fin ;; Ret r.

Definition raise_or_ret {A : Type} (r : exn + A) : coro A :=
  match r with inl e => Raise e | inr a => Ret a end.

Definition session_get (session : ClientSession) (url : string) : coro ClientResponse :=
  Vis (Get session url) raise_or_ret.
Definition response_text (response : ClientResponse) (attempt : nat) : coro string :=
  Vis (Text response attempt) raise_or_ret.
Definition asyncio_sleep (delay : Z) : coro unit := Vis (Sleep delay) Ret.
Definition print (line : string) : coro unit := Vis (Print line) Ret.
Definition os_makedirs (name : string) : coro unit := Vis (Makedirs name) raise_or_ret.
Definition aiofiles_open (path : string) : coro unit := Vis (OpenW path) raise_or_ret.
Definition outfile_write (path contents : string) : coro unit :=
  Vis (WriteFile path contents) Ret.
Definition session_close : coro unit := Vis Close Ret.
(** What [await asyncio.gather(...)] does with the outcome of the children:
    the exception is raised in the awaiting coroutine. *)
Definition gather_result (r : option exn) : coro unit :=
  match r with Some e => Raise e | None => Ret tt end.
Definition asyncio_gather (aws : list (coro unit)) : coro unit :=
  Gather aws gather_result.

(** [o.attr] where [o] may be [None]. *)
Definition not_none {A : Type} (attr : string) (o : option A) : coro A :=
  match o with Some a => Ret a | None => Raise (NoneType_has_no attr) end.

(** A [for] loop threading the variables it assigns. *)
Fixpoint for_each {A S : Type} (items : list A) (body : A -> S -> coro S) (s : S)
  : coro S :=
  match items with
  | [] => Ret s
  | x :: rest => s' ← body x s; for_each rest body s'
  end.

(** ** Running one coroutine on its own *)

Inductive outcome (R : Type) : Type :=
| Returned (r : R)
| Raised (e : exn)
| Diverged
| Awaiting (aws : list (coro unit)) (k : option exn -> coro R).

Arguments Returned {R} r.
Arguments Raised {R} e.
Arguments Diverged {R}.
Arguments Awaiting {R} aws k.

(** Runs [c] up to its return, its exception or its first [gather]. *)
Fixpoint exec {R : Type} (c : coro R) (w : World) : outcome R * World :=
  match c with
  | Ret r => (Returned r, w)
  | Raise e => (Raised e, w)
  | Diverge => (Diverged, w)
  | Vis op k => let '(x, w') := perform op w in exec (k x) w'
  | Gather aws k => (Awaiting aws k, w)
  end.

(** ** The event loop

    Tasks live in a pool; a schedule names, step by step, the task whose
    next operation completes, so that every operation is a point where
    another task may run (asyncio only switches at an [await] that has to
    wait: the schedules of the model include those of asyncio).

    [asyncio.gather] is called as the program calls it, without
    [return_exceptions]: it wraps each awaitable in a task, the first
    exception a child raises is propagated at once to the task awaiting the
    gather, the other children are not cancelled and go on running, and
    without an exception the gather is done when its last child is. *)

Inductive tstate :=
| Runnable (c : coro unit)
| Waiting (pending : nat) (k : option exn -> coro unit)
| Finished (r : option exn).

Record task := mkTask { parent : option nat; state : tstate }.

Record loop := mkLoop { tasks : list task; world : World }.

Definition set_state (i : nat) (st : tstate) (pool : list task) : list task :=
  match pool !! i with
  | Some t => <[i := mkTask (parent t) st]> pool
  | None => pool
  end.

(** The done-callback [gather] attaches to each child: it resumes a parent
    that is still waiting, with the exception of this child or, when this
    was the last child pending, with the results; a parent that was already
    resumed is left alone. *)
Definition notify (p : option nat) (r : option exn) (pool : list task) : list task :=
  match p with
  | None => pool
  | Some p =>
      match state <$> pool !! p with
      | Some (Waiting pending k) =>
          match r with
          | Some e => set_state p (Runnable (k (Some e))) pool
          | None =>
              match pending with
              | S (S n) => set_state p (Waiting (S n) k) pool
              | _ => set_state p (Runnable (k None)) pool
              end
          end
      | _ => pool
      end
  end.

Definition spawn (p : nat) (aws : list (coro unit)) : list task :=
  map (fun c => mkTask (Some p) (Runnable c)) aws.

Definition loop_step (i : nat) (l : loop) : loop :=
  match tasks l !! i with
  | Some (mkTask p (Runnable c)) =>
      match c with
      | Ret _ => mkLoop (notify p None (set_state i (Finished None) (tasks l))) (world l)
      | Raise e =>
          mkLoop (notify p (Some e) (set_state i (Finished (Some e)) (tasks l))) (world l)
      | Diverge => l
      | Vis op k =>
          let '(x, w') := perform op (world l) in
          mkLoop (set_state i (Runnable (k x)) (tasks l)) w'
      | Gather [] k => mkLoop (set_state i (Runnable (k None)) (tasks l)) (world l)
      | Gather aws k =>
          mkLoop (set_state i (Waiting (length aws) k) (tasks l) ++ spawn i aws) (world l)
      end
  | _ => l
  end.

Definition main_result (l : loop) : option (option exn) :=
  match state <$> tasks l !! 0 with
  | Some (Finished r) => Some r
  | _ => None
  end.

(** [loop.run_until_complete(main)]: the loop stops as soon as the main task
    is done, whatever the other tasks are doing; [None] when the schedule
    ends before that. *)
Fixpoint run_until_complete (sched : list nat) (l : loop) : option (option exn) * loop :=
  match main_result l with
  | Some r => (Some r, l)
  | None =>
      match sched with
      | [] => (None, l)
      | i :: rest => run_until_complete rest (loop_step i l)
      end
  end.

Definition start (main : coro unit) (w : World) : loop :=
  mkLoop [mkTask None (Runnable main)] w.

(** ** BeautifulSoup documents

    The parser itself ([html5lib]) is outside the repository; the program
    only navigates the parsed tree.  [class] is the one multi-valued
    attribute the program filters on, so a tag keeps its classes apart. *)

Inductive node :=
| NavigableString (s : string)
| Tag (name : string) (attrs : list (string * string)) (classes : list string)
      (contents : list node).

Inductive attr_filter :=
| AnyAttrs
| IdIs (v : string)
| ClassIs (v : string).

Module bs4.

Definition lookup_attr (key : string) (attrs : list (string * string)) : option string :=
  snd <$> List.find (fun kv => String.eqb (fst kv) key) attrs.

Definition matches (name : string) (f : attr_filter) (n : node) : bool :=
  match n with
  | NavigableString _ => false
  | Tag name' attrs classes _ =>
      String.eqb name' name &&
      match f with
      | AnyAttrs => true
      | IdIs v =>
          match lookup_attr "id" attrs with
          | Some v' => String.eqb v' v
          | None => false
          end
      | ClassIs v =>
          existsb (String.eqb v) classes || String.eqb (String.concat " " classes) v
      end
  end.

(** Everything below [n], in document order. *)
Fixpoint descendants (n : node) : list node :=
  match n with
  | NavigableString _ => []
  | Tag _ _ _ contents =>
      (fix below (l : list node) : list node :=
         match l with
         | [] => []
         | c :: rest => c :: descendants c ++ below rest
         end) contents
  end.

(** [n.find_all(name, attrs)]. *)
Definition find_all (n : node) (name : string) (f : attr_filter) : list node :=
  List.filter (matches name f) (descendants n).

(** [n.find(name, attrs)]: the first match or [None]. *)
Definition find (n : node) (name : string) (f : attr_filter) : option node :=
  head (find_all n name f).

(** [n.get_text()]. *)
Fixpoint get_text (n : node) : string :=
  match n with
  | NavigableString s => s
  | Tag _ _ _ contents =>
      (fix texts (l : list node) : string :=
         match l with
         | [] => EmptyString
         | c :: rest => get_text c +:+ texts rest
         end) contents
  end.

(** [n.contents]. *)
Definition contents (n : node) : list node :=
  match n with
  | NavigableString _ => []
  | Tag _ _ _ cs => cs
  end.

(** [n.get(key)]. *)
Definition get (n : node) (key : string) : option string :=
  match n with
  | NavigableString _ => None
  | Tag _ attrs _ _ => lookup_attr key attrs
  end.

(** [n.name] as an attribute access, e.g. [n.strong]: on a tag the first
    descendant of that name or [None]; a string has no such attribute. *)
Definition dot (n : node) (name : string) : coro (option node) :=
  match n with
  | NavigableString _ => Raise (NavigableString_has_no name)
  | Tag _ _ _ _ => Ret (find n name AnyAttrs)
  end.

End bs4.

(** ** Python dictionaries: insertion-ordered, one entry per key *)

Fixpoint dict_set {V : Type} (d : list (string * V)) (key : string) (v : V)
  : list (string * V) :=
  match d with
  | [] => [(key, v)]
  | (key', v') :: rest =>
      if String.eqb key' key then (key, v) :: rest
      else (key', v') :: dict_set rest key v
  end.

Definition dict_get {V : Type} (d : list (string * V)) (key : string) : option V :=
  snd <$> List.find (fun kv => String.eqb (fst kv) key) d.

(** The double quote character. *)
Definition dquote : string :=
  String (Ascii false true false false false true false false) EmptyString.

(** ** scraping/scrape_main.py *)

Section scrape_main.

(** [fuel] bounds the unrolling of the [while True] in [fetch];
    [BeautifulSoup text] is [BeautifulSoup(text, features='html5lib')]. *)
Variable fuel : nat.
Variable BeautifulSoup : string -> node.

Fixpoint fetch_loop (n : nat) (response : ClientResponse) (attempt : nat) : coro string :=
  match n with
  | O => Diverge
  | S n' =>
      try_except (response_text response attempt)
        (fun err =>
           if isinstance_ClientOSError err then
             if Str.contains "54" (exn_str err) then
               print "connection reset, backing off" ;;
               asyncio_sleep 5 ;;
               fetch_loop n' response (S attempt)
             else Raise err
           else Raise err)
  end.

Definition fetch (session : ClientSession) (url : string) : coro string :=
  response ← session_get session url;
  fetch_loop fuel response 0.

Definition write (path contents : string) : coro unit :=
  os_makedirs (posixpath.dirname path) ;;
  aiofiles_open path ;;
  outfile_write path contents.

Definition get_lyrics_com_song (session : ClientSession) (song_fragment : option string)
  : coro string :=
  url ← match song_fragment with
        | Some fragment => Ret ("http://lyrics.com" +:+ fragment)
        | None => Raise cannot_concatenate_None
        end;
  text ← fetch session url;
  let page := BeautifulSoup text in
  pre ← not_none "get_text" (bs4.find page "pre" (IdIs "lyric-body-text"));
  Ret (bs4.get_text pre).

Definition get_and_write_lyrics_com_song (session : ClientSession)
    (directory song_name : string) (song_fragment : option string) : coro unit :=
  text ← get_lyrics_com_song session song_fragment;
  write (posixpath.join directory (song_name +:+ ".txt")) text ;;
  print ("---written " +:+ song_name).

(** The body of the loop over the rows of an album page. *)
Definition song_row (row : node) (urls : list (string * option string))
  : coro (list (string * option string)) :=
  cell ← match bs4.contents row !! 1 with
         | Some cell => Ret cell
         | None => Raise list_index_out_of_range
         end;
  strong ← bs4.dot cell "strong";
  match strong with
  | Some strong =>
      a ← bs4.dot strong "a";
      a ← not_none "get_text" a;
      let name := bs4.get_text a in
      let link := bs4.get a "href" in
      Ret (dict_set urls name link)
  | None =>
      print ("song " +:+ dquote +:+ bs4.get_text cell +:+ dquote +:+ " does not have lyrics") ;;
      Ret urls
  end.

Definition get_lyrics_com_songs_for_album (session : ClientSession) (album : string)
  : coro (list (string * option string)) :=
  let url := "http://lyrics.com/album/" +:+ album in
  text ← fetch session url;
  let page := BeautifulSoup text in
  tbody ← not_none "find_all" (bs4.find page "tbody" AnyAttrs);
  for_each (bs4.find_all tbody "tr" AnyAttrs) song_row [].

(** The body of the loop over the album blocks of an artist page. *)
Definition album_div (div : node) (albums : list (string * string))
  : coro (list (string * string)) :=
  h3 ← bs4.dot div "h3";
  h3 ← not_none "a" h3;
  a ← bs4.dot h3 "a";
  a ← not_none "get_text" a;
  let name := bs4.get_text a in
  href ← not_none "split" (bs4.get a "href");
  let url := Str.last_field "/" href in
  Ret (dict_set albums name url).

Definition get_lyrics_com_albums_for_artist (client : ClientSession) (artist : string)
  : coro (list (string * string)) :=
  let url := "http://lyrics.com/artist/" +:+ artist in
  text ← fetch client url;
  let page := BeautifulSoup text in
  body ← not_none "find" (bs4.find page "div" (IdIs "content-body"));
  tdata ← not_none "find_all" (bs4.find body "div" (ClassIs "tdata-ext"));
  let album_divs := bs4.find_all tdata "div" (ClassIs "clearfix") in
  for_each album_divs album_div [].

Definition song_awaitables (session : ClientSession) (outputdir : string)
    (song_urls : list (string * option string)) : list (coro unit) :=
  map (fun '(name, url) => get_and_write_lyrics_com_song session outputdir name url)
      song_urls.

Definition get_lyrics_com_album (session : ClientSession) (album outputdir : string)
  : coro unit :=
  song_urls ← get_lyrics_com_songs_for_album session album;
  asyncio_gather (song_awaitables session outputdir song_urls).

Definition album_awaitables (client : ClientSession) (outputdir : string)
    (albums : list (string * string)) : list (coro unit) :=
  map (fun '(name, album) =>
         get_lyrics_com_album client album (posixpath.join outputdir name))
      albums.

(** [client] is the session [aiohttp.ClientSession()] opens; leaving the
    [async with] block closes it. *)
Definition get_lyrics_com_artist (client : ClientSession) (artist outputdir : string)
  : coro unit :=
  finally_
    (albums ← get_lyrics_com_albums_for_artist client artist;
     asyncio_gather (album_awaitables client outputdir albums))
    session_close.

(** [main]: the site is always [lyrics.com]; the loop runs the artist crawl
    until it completes. *)
Definition main (client : ClientSession) (artist output : string)
    (sched : list nat) (w : World) : option (option exn) * loop :=
  run_until_complete sched (start (get_lyrics_com_artist client artist output) w).

End scrape_main.

(** * Vocabulary of the statements *)

(** The condition under which [fetch] backs off and reads again. *)
Definition retryable (err : exn) : bool :=
  isinstance_ClientOSError err && Str.contains "54" (exn_str err).

(** What [attempt .. attempt + n - 1] failed reads leave in the log. *)
Fixpoint retry_events (attempt n : nat) : list event :=
  match n with
  | O => []
  | S n' =>
      EvRead attempt :: EvPrint "connection reset, backing off" :: EvSleep 5
      :: retry_events (S attempt) n'
  end.

Definition sleeps_of (evs : list event) : list Z :=
  omap (fun ev => match ev with EvSleep d => Some d | _ => None end) evs.

Definition reads_of (evs : list event) : list nat :=
  omap (fun ev => match ev with EvRead k => Some k | _ => None end) evs.

Definition connection_reset : exn :=
  mkExn ClientOSError (Some 54%Z) "[Errno 54] Connection reset by peer".

Definition extend (evs : list event) (w : World) : World :=
  mkWorld (fs w) (closed w) (log w ++ evs).

Definition file_event (ev : event) : bool :=
  match ev with
  | EvMakedirs _ | EvOpen _ | EvWrite _ _ => true
  | _ => false
  end.

Definition file_events (evs : list event) : list event := List.filter file_event evs.

(** What the body of the song loop does with a row. *)
Inductive row_kind :=
| RowEntry (name : string) (link : option string)
| RowSkipped (cell_text : string)
| RowError (e : exn).

Definition classify_row (row : node) : row_kind :=
  match bs4.contents row !! 1 with
  | None => RowError list_index_out_of_range
  | Some (NavigableString _) => RowError (NavigableString_has_no "strong")
  | Some (Tag _ _ _ _ as cell) =>
      match bs4.find cell "strong" AnyAttrs with
      | None => RowSkipped (bs4.get_text cell)
      | Some (NavigableString _) => RowError (NavigableString_has_no "a")
      | Some (Tag _ _ _ _ as strong) =>
          match bs4.find strong "a" AnyAttrs with
          | None => RowError (NoneType_has_no "get_text")
          | Some a => RowEntry (bs4.get_text a) (bs4.get a "href")
          end
      end
  end.

Definition no_lyrics_notice (cell_text : string) : string :=
  "song " +:+ dquote +:+ cell_text +:+ dquote +:+ " does not have lyrics".

Definition row_entry (row : node) : option (string * option string) :=
  match classify_row row with
  | RowEntry name link => Some (name, link)
  | _ => None
  end.

(** What the body of the album loop does with a block. *)
Definition album_entry (div : node) : exn + (string * string) :=
  match div with
  | NavigableString _ => inl (NavigableString_has_no "h3")
  | Tag _ _ _ _ =>
      match bs4.find div "h3" AnyAttrs with
      | None => inl (NoneType_has_no "a")
      | Some (NavigableString _) => inl (NavigableString_has_no "a")
      | Some (Tag _ _ _ _ as h3) =>
          match bs4.find h3 "a" AnyAttrs with
          | None => inl (NoneType_has_no "get_text")
          | Some a =>
              match bs4.get a "href" with
              | None => inl (NoneType_has_no "split")
              | Some href => inr (bs4.get_text a, Str.last_field "/" href)
              end
          end
      end
  end.

Definition linked (div : node) : option (string * string) :=
  match album_entry div with inr e => Some e | inl _ => None end.

Definition run_all (sched : list nat) (l : loop) : loop :=
  fold_left (fun l i => loop_step i l) sched l.

(** How often a task is named by a schedule. *)
Definition occurrences (i : nat) (sched : list nat) : nat :=
  length (List.filter (Nat.eqb i) sched).

(** * Mock sites

    Sessions serving fixed bodies and parsers given as tables, on which the
    statements are run. *)

Definition empty_world : World := mkWorld ∅ false [].

(** A response whose first [n] reads fail with [err] and whose later reads
    give [body]. *)
Definition flaky_response (n : nat) (err : exn) (body : string) : ClientResponse :=
  fun k => if Nat.ltb k n then inl err else inr body.

Definition one_page_session (url : string) (response : ClientResponse) : ClientSession :=
  fun u => if String.eqb u url then inr response
           else inl (mkExn ClientConnectorError None "Cannot connect to host").

(** A session serving fixed bodies, and a parser given as a table from page
    text to document. *)
Definition mock_session (pages : list (string * string)) : ClientSession :=
  fun url =>
    match dict_get pages url with
    | Some body => inr (fun _ => inr body)
    | None => inl (mkExn ClientConnectorError None ("Cannot connect to host " +:+ url))
    end.

Definition mock_parser (docs : list (string * node)) : string -> node :=
  fun text => default (Tag "html" [] [] []) (dict_get docs text).

Definition el (name : string) (contents : list node) : node := Tag name [] [] contents.

Definition anchor (href text : string) : node :=
  Tag "a" [("href", href)] [] [NavigableString text].

Definition song_tr (name href : string) : node :=
  el "tr" [el "td" [NavigableString "1"]; el "td" [el "strong" [anchor href name]]].

Definition unlinked_tr (name : string) : node :=
  el "tr" [el "td" [NavigableString "1"]; el "td" [NavigableString name]].

Definition album_doc (rows : list node) : node :=
  el "html" [el "body" [el "table" [el "tbody" rows]]].

Definition album_block (name href : string) : node :=
  Tag "div" [] ["clearfix"] [el "h3" [anchor href name]].

Definition unlinked_block (name : string) : node :=
  Tag "div" [] ["clearfix"] [el "h3" [NavigableString name]].

Definition artist_doc (blocks : list node) : node :=
  el "html" [el "body" [Tag "div" [("id", "content-body")] []
                          [Tag "div" [] ["tdata-ext"] blocks]]].

Definition song_doc (lyrics : string) : node :=
  el "html" [el "body" [Tag "pre" [("id", "lyric-body-text")] ["lyric-body"]
                          [NavigableString lyrics]]].

Definition payload_error : exn :=
  mkExn ClientPayloadError None "Response payload is not completed".

(** Errors that tell the message from the error code: a refused connection
    whose message happens to contain 54, and a connection reset as Linux
    numbers it. *)
Definition refused_on_port_5400 : exn :=
  mkExn ClientOSError (Some 61%Z) "[Errno 61] Connect call failed ('10.0.0.1', 5400)".

Definition reset_errno_104 : exn :=
  mkExn ClientOSError (Some 104%Z) "[Errno 104] Connection reset by peer".

Definition refusing_page : ClientResponse :=
  flaky_response 1 refused_on_port_5400 "page".

(** An album page on which two rows carry the same song name. *)
Definition twice_listed_rows : list node :=
  [song_tr "Dominion" "/lyric/1/Dominion"; song_tr "Flood" "/lyric/2/Flood";
   song_tr "Dominion" "/lyric/3/Dominion"].

Definition twice_listed_session : ClientSession :=
  mock_session [("http://lyrics.com/album/floodland-1", "album page");
                ("http://lyrics.com/lyric/1/Dominion", "first page of Dominion");
                ("http://lyrics.com/lyric/2/Flood", "page of Flood");
                ("http://lyrics.com/lyric/3/Dominion", "second page of Dominion")].

Definition twice_listed_parser : string -> node :=
  mock_parser [("album page", album_doc twice_listed_rows);
               ("first page of Dominion", song_doc "Dominion, as first listed");
               ("page of Flood", song_doc "Flood");
               ("second page of Dominion", song_doc "Dominion, as last listed")].

(** Artist pages: one whose only album block has no link, one whose link has
    no text, one with two proper blocks. *)
Definition artist_session : ClientSession :=
  mock_session [("http://lyrics.com/artist/X", "artist page")].

Definition unlinked_parser : string -> node :=
  mock_parser [("artist page", artist_doc [unlinked_block "Floodland"])].

Definition nameless_parser : string -> node :=
  mock_parser [("artist page", artist_doc [album_block EmptyString "/album/1/floodland-1"])].

Definition linked_parser : string -> node :=
  mock_parser [("artist page",
                artist_doc [album_block "Floodland" "/album/1/floodland-1";
                            album_block "Vision Thing" "/album/2/vision-thing-2"])].

Definition artist_fetched : World :=
  extend [EvGet "http://lyrics.com/artist/X"; EvRead 0] empty_world.


(** A site with the album "floodland-1" listing the songs A, B and C. *)
Definition abc_session : ClientSession :=
  mock_session [("http://lyrics.com/album/floodland-1", "album page");
                ("http://lyrics.com/a", "page of A");
                ("http://lyrics.com/b", "page of B");
                ("http://lyrics.com/c", "page of C")].

Definition abc_tbody : node :=
  el "tbody" [song_tr "A" "/a"; song_tr "B" "/b"; song_tr "C" "/c"].

Definition abc_parser : string -> node :=
  mock_parser [("album page", el "html" [el "body" [el "table" [abc_tbody]]]);
               ("page of A", song_doc "lyrics of A");
               ("page of B", song_doc "lyrics of B");
               ("page of C", song_doc "lyrics of C")].

(** The same site, but the page of B has no lyric block. *)
Definition abc_parser_without_B : string -> node :=
  mock_parser [("album page", el "html" [el "body" [el "table" [abc_tbody]]]);
               ("page of A", song_doc "lyrics of A");
               ("page of B", el "html" [el "body" [NavigableString "no lyrics here"]]);
               ("page of C", song_doc "lyrics of C")].

Definition body_of (page : string) : ClientResponse := fun _ => inr page.






(** The artist X, whose album "Y Z" holds the song S. *)
Definition xyz_session : ClientSession :=
  mock_session [("http://lyrics.com/artist/X", "artist page");
                ("http://lyrics.com/album/y-z-1", "album page");
                ("http://lyrics.com/lyric/1/S", "page of S")].

Definition xyz_parser : string -> node :=
  mock_parser [("artist page", artist_doc [album_block "Y Z" "/album/1/y-z-1"]);
               ("album page", album_doc [song_tr "S" "/lyric/1/S"]);
               ("page of S", song_doc "lyrics of S")].

Definition xyz_schedule : list nat :=
  [0; 0; 0] ++ [1; 1; 1] ++ repeat 2 7 ++ [1] ++ [0; 0].

Definition writes_of (evs : list event) : list event :=
  List.filter (fun ev => match ev with EvWrite _ _ => true | _ => false end) evs.

(** * Further vocabulary and mock sites *)

Definition refusing_session : ClientSession := fun _ => inl connection_reset.

Definition reset_then_payload_error : ClientResponse :=
  fun k => if Nat.ltb k 2 then inl connection_reset else inl payload_error.

(** What [makedirs] returns differs from what it got by new directories
    only. *)
Definition grown (m m' : gmap string entry) : Prop :=
  forall q, m' !! q = m !! q \/ (m !! q = None /\ m' !! q = Some Dir).

Definition world_with (m : gmap string entry) : World := mkWorld m false [].

Definition well_formed_row (row : node) : bool :=
  match classify_row row with RowError _ => false | _ => true end.

(** The notices the song loop prints, one per row without a link. *)
Definition row_notices (rows : list node) : list event :=
  omap (fun row => match classify_row row with
                   | RowSkipped cell_text => Some (EvPrint (no_lyrics_notice cell_text))
                   | _ => None
                   end) rows.

Definition gappy_rows : list node :=
  [song_tr "A" "/a"; unlinked_tr "Untitled"; song_tr "C" "/c"; unlinked_tr "Interlude"].

Definition gappy_session : ClientSession :=
  mock_session [("http://lyrics.com/album/floodland-1", "album page");
                ("http://lyrics.com/a", "page of A");
                ("http://lyrics.com/c", "page of C")].

Definition gappy_parser : string -> node :=
  mock_parser [("album page", album_doc gappy_rows);
               ("page of A", song_doc "lyrics of A");
               ("page of C", song_doc "lyrics of C")].

Definition album_fetched : World :=
  extend [EvGet "http://lyrics.com/album/floodland-1"; EvRead 0] empty_world.

Definition one_cell_tr : node := el "tr" [el "td" [NavigableString "1"]].

Definition broken_rows_parser : string -> node :=
  mock_parser [("album page",
                album_doc [unlinked_tr "Untitled"; song_tr "A" "/a"; one_cell_tr;
                           song_tr "C" "/c"])].

Definition more_segments_parser : string -> node :=
  mock_parser [("artist page",
                artist_doc [album_block "Floodland" "/album/1/floodland-1";
                            album_block "Vision Thing" "vision-thing-2";
                            album_block "Floodland" "/album/3/floodland-3/"])].

Definition second_unlinked_blocks : list node :=
  [album_block "Floodland" "/album/1/floodland-1"; unlinked_block "Some Girls";
   album_block "Vision Thing" "/album/2/vision-thing-2"].

Definition second_unlinked_parser : string -> node :=
  mock_parser [("artist page", artist_doc second_unlinked_blocks)].

(** The world after [client] has been closed. *)
Definition session_closed (w : World) : World :=
  record EvClose (mkWorld (fs w) true (log w)).

Definition is_close {X : Type} (op : io X) : bool :=
  match op with Close => true | _ => false end.

(** [c] cannot return or raise without closing the session first. *)
Fixpoint closes_first {R : Type} (c : coro R) : Prop :=
  match c with
  | Ret _ | Raise _ => False
  | Diverge => True
  | Vis op k => is_close op = true \/ forall x, closes_first (k x)
  | Gather _ k => forall r, closes_first (k r)
  end.

Definition closed_log (w : World) : Prop := closed w = true /\ EvClose ∈ log w.

Definition closing (w : World) (st : tstate) : Prop :=
  match st with
  | Runnable c => closes_first c \/ closed_log w
  | Waiting _ k => (forall r, closes_first (k r)) \/ closed_log w
  | Finished _ => closed_log w
  end.

Definition main_closes (l : loop) : Prop :=
  forall t, tasks l !! 0 = Some t -> closing (world l) (state t).

Definition no_albums_parser : string -> node :=
  mock_parser [("artist page", artist_doc [])].

Definition no_links_parser : string -> node :=
  mock_parser [("album page", album_doc [unlinked_tr "Untitled"; unlinked_tr "Interlude"])].

Definition bare_anchor_tr (name : string) : node :=
  el "tr" [el "td" [NavigableString "1"];
           el "td" [el "strong" [el "a" [NavigableString name]]]].

(** [directory/name.txt]. *)
Definition path_under (directory name : string) : string :=
  directory +:+ "/" +:+ name +:+ ".txt".

Definition always_reset : ClientResponse := fun _ => inl connection_reset.

Definition prints {X : Type} (line : string) (op : io X) : bool :=
  match op with
  | Print l => String.eqb l line
  | _ => false
  end.

(** No operation on the way to the result (or to the first [gather]) prints
    [line]. *)
Fixpoint never_prints {R : Type} (line : string) (c : coro R) : Prop :=
  match c with
  | Vis op k => prints line op = false /\ forall x, never_prints line (k x)
  | _ => True
  end.


(** * Properties *)

#[local] Arguments Ascii.eqb : simpl never.
#[local] Arguments String.eqb : simpl never.

(** ** The retry loop of [fetch] *)

Lemma record_log ev w : log (record ev w) = log w ++ [ev].
Proof. reflexivity. Qed.

Lemma sleeps_of_retry_events attempt n :
  sleeps_of (retry_events attempt n) = repeat 5%Z n.
Proof.
  revert attempt; induction n as [|n IH]; intros attempt; [done|].
  simpl. unfold sleeps_of in *. simpl. by rewrite IH.
Qed.

Lemma sleeps_of_app l1 l2 : sleeps_of (l1 ++ l2) = sleeps_of l1 ++ sleeps_of l2.
Proof. apply omap_app. Qed.

Lemma extend_nil w : extend [] w = w.
Proof. destruct w; unfold extend; simpl. by rewrite app_nil_r. Qed.

Lemma extend_extend evs1 evs2 w : extend evs2 (extend evs1 w) = extend (evs1 ++ evs2) w.
Proof. unfold extend; simpl. by rewrite app_assoc. Qed.

Lemma record_extend ev w : record ev w = extend [ev] w.
Proof. reflexivity. Qed.

(** [exec] of a sequence. *)
Definition then_exec {A B : Type} (f : A -> coro B) (r : outcome A * World)
  : outcome B * World :=
  match r with
  | (Returned a, w) => exec (f a) w
  | (Raised e, w) => (Raised e, w)
  | (Diverged, w) => (Diverged, w)
  | (Awaiting aws k, w) => (Awaiting aws (fun r => bind (k r) f), w)
  end.

Lemma exec_bind {A B : Type} (c : coro A) (f : A -> coro B) w :
  exec (bind c f) w = then_exec f (exec c w).
Proof.
  revert B f w.
  induction c as [A r|A e|A|A X op k IH|A aws k IH]; intros B f w; simpl; try done.
  destruct (perform op w) as [x w']. apply IH.
Qed.

Lemma exec_mbind {A B : Type} (c : coro A) (f : A -> coro B) w :
  exec (c ≫= f) w = then_exec f (exec c w).
Proof. apply exec_bind. Qed.

Section fetch_facts.

Context (response : ClientResponse).

Lemma exec_fetch_loop_ok n attempt text w :
  response attempt = inr text ->
  exec (fetch_loop (S n) response attempt) w = (Returned text, extend [EvRead attempt] w).
Proof. intros H. simpl. by rewrite H. Qed.

Lemma exec_fetch_loop_raise n attempt err w :
  response attempt = inl err ->
  retryable err = false ->
  exec (fetch_loop (S n) response attempt) w = (Raised err, extend [EvRead attempt] w).
Proof.
  intros H Hr. simpl. rewrite H. simpl.
  unfold retryable in Hr.
  destruct (isinstance_ClientOSError err); [|done].
  simpl in Hr. by rewrite Hr.
Qed.

Lemma exec_fetch_loop_retry n attempt err w :
  response attempt = inl err ->
  retryable err = true ->
  exec (fetch_loop (S n) response attempt) w =
  exec (fetch_loop n response (S attempt)) (extend (retry_events attempt 1) w).
Proof.
  intros H Hr. simpl. rewrite H. simpl.
  unfold retryable in Hr. apply andb_true_iff in Hr as [-> ->].
  simpl. by rewrite !record_extend, !extend_extend.
Qed.

Lemma retry_events_snoc attempt n :
  retry_events attempt (S n) = retry_events attempt 1 ++ retry_events (S attempt) n.
Proof. reflexivity. Qed.

(** [n] retryable failures from [attempt] on, then a body. *)
Lemma exec_fetch_loop_converges n :
  forall fuel attempt text w,
    (forall k, k < n -> exists err, response (attempt + k) = inl err /\ retryable err = true) ->
    response (attempt + n) = inr text ->
    n < fuel ->
    exec (fetch_loop fuel response attempt) w =
    (Returned text, extend (retry_events attempt n ++ [EvRead (attempt + n)]) w).
Proof.
  induction n as [|n IH]; intros fuel attempt text w Hfail Hok Hfuel.
  - destruct fuel as [|fuel]; [lia|].
    rewrite Nat.add_0_r in *. by rewrite (exec_fetch_loop_ok _ _ text).
  - destruct fuel as [|fuel]; [lia|].
    destruct (Hfail 0) as (err & Herr & Hr); [lia|].
    rewrite Nat.add_0_r in Herr.
    rewrite (exec_fetch_loop_retry _ _ err) by done.
    rewrite (IH fuel (S attempt) text).
    + rewrite extend_extend, retry_events_snoc, <- app_assoc.
      by replace (S attempt + n) with (attempt + S n) by lia.
    + intros k Hk. destruct (Hfail (S k)) as (e & He & Hre); [lia|].
      exists e. split; [|done]. by replace (S attempt + k) with (attempt + S k) by lia.
    + by replace (S attempt + n) with (attempt + S n) by lia.
    + lia.
Qed.

(** Only retryable failures: the loop never ends, whatever the bound. *)
Lemma exec_fetch_loop_diverges fuel :
  forall attempt w,
    (forall k, exists err, response k = inl err /\ retryable err = true) ->
    exec (fetch_loop fuel response attempt) w =
    (Diverged, extend (retry_events attempt fuel) w).
Proof.
  induction fuel as [|fuel IH]; intros attempt w Hfail.
  - simpl. by rewrite extend_nil.
  - destruct (Hfail attempt) as (err & Herr & Hr).
    rewrite (exec_fetch_loop_retry _ _ err) by done.
    rewrite IH by done. by rewrite extend_extend.
Qed.

End fetch_facts.

Lemma exec_fetch fuel session url response w :
  closed w = false ->
  session url = inr response ->
  exec (fetch fuel session url) w =
  exec (fetch_loop fuel response 0) (extend [EvGet url] w).
Proof.
  intros Hc Hs. unfold fetch. rewrite exec_mbind. simpl. by rewrite Hc, Hs.
Qed.

Lemma exec_fetch_get_fails fuel session url err w :
  closed w = false ->
  session url = inl err ->
  exec (fetch fuel session url) w = (Raised err, extend [EvGet url] w).
Proof.
  intros Hc Hs. unfold fetch. rewrite exec_mbind. simpl. by rewrite Hc, Hs.
Qed.

(** ** Coroutines that leave the file system alone *)

Definition file_op {X : Type} (op : io X) : bool :=
  match op with
  | Makedirs _ | OpenW _ | WriteFile _ _ => true
  | _ => false
  end.

(** No operation on the way to the result (or to the first [gather]) is a
    file operation. *)
Fixpoint file_free {R : Type} (c : coro R) : Prop :=
  match c with
  | Vis op k => file_op op = false /\ forall x, file_free (k x)
  | _ => True
  end.

Lemma file_free_bind {A B : Type} (c : coro A) (f : A -> coro B) :
  file_free c -> (forall a, file_free (f a)) -> file_free (bind c f).
Proof.
  revert B f.
  induction c as [A r|A e|A|A X op k IH|A aws k IH]; intros B f Hc Hf; simpl; try done.
  destruct Hc as [Hop Hk]. split; [done|]. intros x. by apply IH.
Qed.

Lemma file_free_mbind {A B : Type} (c : coro A) (f : A -> coro B) :
  file_free c -> (forall a, file_free (f a)) -> file_free (c ≫= f).
Proof. apply file_free_bind. Qed.

Lemma file_free_try_except {A : Type} (c : coro A) (h : exn -> coro A) :
  file_free c -> (forall e, file_free (h e)) -> file_free (try_except c h).
Proof.
  induction c as [A r|A e|A|A X op k IH|A aws k IH]; intros Hc Hh; simpl; try done.
  destruct Hc as [Hop Hk]. split; [done|]. intros x. by apply IH.
Qed.

Lemma perform_file_free {X : Type} (op : io X) w :
  file_op op = false ->
  fs (perform op w).2 = fs w /\
  file_events (log (perform op w).2) = file_events (log w).
Proof.
  destruct op; simpl; try done; intros _; split; try done;
    unfold file_events; rewrite List.filter_app; simpl; by rewrite app_nil_r.
Qed.

Lemma exec_file_free {R : Type} (c : coro R) w :
  file_free c ->
  fs (exec c w).2 = fs w /\ file_events (log (exec c w).2) = file_events (log w).
Proof.
  revert w.
  induction c as [A r|A e|A|A X op k IH|A aws k IH]; intros w Hc; simpl; try done.
  destruct Hc as [Hop Hk].
  destruct (perform_file_free op w Hop) as [Hfs Hlog].
  destruct (perform op w) as [x w'] eqn:E. simpl in *.
  destruct (IH x w' (Hk x)) as [Hfs' Hlog']. split; congruence.
Qed.

Lemma fetch_loop_file_free n response attempt : file_free (fetch_loop n response attempt).
Proof.
  revert attempt. induction n as [|n IH]; intros attempt; [done|].
  simpl. split; [done|]. intros [err|text]; simpl; [|done].
  destruct (isinstance_ClientOSError err); [|done].
  destruct (Str.contains "54" (exn_str err)); [|done].
  simpl. split; [done|]. intros _. split; [done|]. intros _. apply IH.
Qed.

Lemma fetch_file_free fuel session url : file_free (fetch fuel session url).
Proof.
  unfold fetch. apply file_free_mbind.
  - simpl. split; [done|]. by intros [e|r].
  - intros response. apply fetch_loop_file_free.
Qed.

Lemma get_lyrics_com_song_file_free fuel BeautifulSoup session song_fragment :
  file_free (get_lyrics_com_song fuel BeautifulSoup session song_fragment).
Proof.
  unfold get_lyrics_com_song. apply file_free_mbind.
  - by destruct song_fragment.
  - intros url. apply file_free_mbind; [apply fetch_file_free|].
    intros text. apply file_free_mbind; [|done].
    by destruct (bs4.find _ _ _).
Qed.

(** ** [write] *)

Lemma dirname_bare (p : string) :
  Str.contains "/" p = false -> posixpath.dirname p = EmptyString.
Proof.
  intros H. unfold posixpath.dirname, posixpath.split.
  assert (Hrp : Str.rpartition posixpath.sep p = (EmptyString, p)).
  { induction p as [|c p IH]; [done|].
    simpl in H. apply orb_false_iff in H as [Hpre Hrest].
    rewrite andb_true_r in Hpre.
    simpl. rewrite (IH Hrest). unfold posixpath.sep. by rewrite Hpre. }
  by rewrite Hrp.
Qed.

Example dirname_of_song_path : posixpath.dirname "out/Y Z/S.txt" = "out/Y Z".
Proof. reflexivity. Qed.

Example dirname_of_root_file : posixpath.dirname "/S.txt" = "/".
Proof. reflexivity. Qed.

Example join_absolute : posixpath.join "out" "/etc/S.txt" = "/etc/S.txt".
Proof. reflexivity. Qed.

Example makedirs_nested :
  os.makedirs "out/Y Z" ∅ = inr (<["out/Y Z" := Dir]> (<["out" := Dir]> ∅)).
Proof. vm_compute. reflexivity. Qed.

Example makedirs_existing :
  os.makedirs "out" (<["out" := Dir]> ∅) = inr (<["out" := Dir]> ∅).
Proof. vm_compute. reflexivity. Qed.

Example makedirs_over_file :
  os.makedirs "out" (<["out" := File "x"]> ∅) = inl (EEXIST "out").
Proof. vm_compute. reflexivity. Qed.

Example makedirs_curdir : os.makedirs "." ∅ = inr ∅.
Proof. reflexivity. Qed.

Lemma makedirs_empty fs : os.makedirs EmptyString fs = inl (ENOENT EmptyString).
Proof. reflexivity. Qed.

Lemma exec_write_bare path contents w :
  posixpath.dirname path = EmptyString ->
  exec (write path contents) w =
  (Raised (ENOENT EmptyString), extend [EvMakedirs EmptyString] w).
Proof.
  intros H. unfold write. rewrite exec_mbind. simpl. rewrite H. by rewrite makedirs_empty.
Qed.

Lemma endswith_bare (p : string) :
  Str.contains "/" p = false -> Str.endswith_char posixpath.sep p = false.
Proof.
  induction p as [|c p IH]; [done|]. intros H.
  simpl in H. apply orb_false_iff in H as [Hpre Hrest].
  rewrite andb_true_r in Hpre. simpl.
  destruct p as [|d p]; [done|]. by apply IH.
Qed.

(** The three ways [write] can end. *)
Lemma exec_write path contents w :
  exec (write path contents) w =
  let d := posixpath.dirname path in
  match os.makedirs d (fs w) with
  | inl e => (Raised e, extend [EvMakedirs d] w)
  | inr fs1 =>
      match os.open_w path fs1 with
      | inl e => (Raised e, extend [EvMakedirs d; EvOpen path] (set_fs fs1 w))
      | inr fs2 =>
          (Returned tt,
           extend [EvMakedirs d; EvOpen path; EvWrite path contents]
             (set_fs (os.write_file path contents fs2) w))
      end
  end.
Proof.
  unfold write. rewrite !exec_mbind. simpl.
  destruct (os.makedirs _ _) as [e|fs1]; simpl; [done|].
  destruct (os.open_w _ _) as [e|fs2]; simpl.
  - unfold extend, set_fs, record; simpl. by rewrite <- app_assoc.
  - unfold extend, set_fs, record; simpl. by rewrite <- !app_assoc.
Qed.

Lemma file_events_app l1 l2 : file_events (l1 ++ l2) = file_events l1 ++ file_events l2.
Proof. apply List.filter_app. Qed.

(** What [get_and_write_lyrics_com_song] does once the text is there. *)
Lemma exec_get_and_write fuel BeautifulSoup session directory song_name song_fragment w :
  exec (get_and_write_lyrics_com_song fuel BeautifulSoup session directory song_name
          song_fragment) w =
  then_exec (fun text =>
               write (posixpath.join directory (song_name +:+ ".txt")) text ;;
               print ("---written " +:+ song_name))
    (exec (get_lyrics_com_song fuel BeautifulSoup session song_fragment) w).
Proof. unfold get_and_write_lyrics_com_song. by rewrite exec_mbind. Qed.

(** ** Dictionaries *)

Section dict_facts.

Context {V : Type}.
Implicit Types (d : list (string * V)) (key : string) (v : V).

Lemma dict_set_keys d key v :
  (dict_set d key v).*1 = if decide (key ∈ d.*1) then d.*1 else d.*1 ++ [key].
Proof.
  induction d as [|[k' v'] d IH].
  - rewrite decide_False; [done|]. apply not_elem_of_nil.
  - cbn [dict_set]. destruct (String.eqb k' key) eqn:E.
    + apply String.eqb_eq in E as ->.
      rewrite decide_True; [done|]. apply list_elem_of_here.
    + apply String.eqb_neq in E. rewrite !fmap_cons, IH. cbn [fst].
      destruct (decide (key ∈ d.*1)) as [Hin|Hnin].
      * rewrite decide_True; [done|]. by apply list_elem_of_further.
      * rewrite decide_False; [done|].
        intros [?|?]%elem_of_cons; congruence.
Qed.

Lemma dict_set_NoDup d key v : NoDup d.*1 -> NoDup (dict_set d key v).*1.
Proof.
  intros H. rewrite dict_set_keys. case_decide; [done|].
  apply NoDup_app. split; [done|]. split; [|apply NoDup_singleton].
  intros x Hx ->%list_elem_of_singleton. done.
Qed.



(** The dictionary a sequence of assignments builds. *)
Definition dict_of (entries : list (string * V)) (d : list (string * V)) :=
  fold_left (fun d e => dict_set d e.1 e.2) entries d.

Lemma dict_of_NoDup entries d : NoDup d.*1 -> NoDup (dict_of entries d).*1.
Proof.
  revert d. induction entries as [|e entries IH]; intros d H; [done|].
  simpl. apply IH. by apply dict_set_NoDup.
Qed.





End dict_facts.

(** ** The listing loops *)

Lemma song_row_spec row urls :
  song_row row urls =
  match classify_row row with
  | RowEntry name link => Ret (dict_set urls name link)
  | RowSkipped cell_text => Vis (Print (no_lyrics_notice cell_text)) (fun _ => Ret urls)
  | RowError e => Raise e
  end.
Proof.
  unfold song_row, classify_row.
  destruct (bs4.contents row !! 1) as [[s|name attrs classes cs]|]; try reflexivity.
  cbn -[bs4.find bs4.get_text bs4.get].
  destruct (bs4.find _ "strong" _) as [[s|n a c cs']|]; try reflexivity.
  cbn -[bs4.find bs4.get_text bs4.get].
  destruct (bs4.find _ "a" _); reflexivity.
Qed.

Lemma exec_song_rows rows :
  forall d0 w d w',
    exec (for_each rows song_row d0) w = (Returned d, w') ->
    d = dict_of (omap row_entry rows) d0.
Proof.
  induction rows as [|row rows IH]; intros d0 w d w' H.
  - simpl in H. by injection H as <- _.
  - cbn [for_each] in H. rewrite exec_mbind, song_row_spec in H.
    unfold row_entry. cbn [omap list_omap].
    destruct (classify_row row) as [name link|t|e]; simpl in H.
    + by apply IH in H.
    + by apply IH in H.
    + done.
Qed.

Lemma album_div_spec div albums :
  album_div div albums =
  match album_entry div with
  | inr (name, url) => Ret (dict_set albums name url)
  | inl e => Raise e
  end.
Proof.
  unfold album_div, album_entry.
  destruct div as [s|name attrs classes cs]; try reflexivity.
  cbn -[bs4.find bs4.get_text bs4.get].
  destruct (bs4.find _ "h3" _) as [[s|n a c cs']|]; try reflexivity.
  cbn -[bs4.find bs4.get_text bs4.get].
  destruct (bs4.find _ "a" _) as [a'|]; try reflexivity.
  cbn -[bs4.find bs4.get_text bs4.get].
  destruct (bs4.get a' "href"); reflexivity.
Qed.

(** Blocks that all carry a link: one assignment each, no effect. *)
Lemma exec_album_divs_linked divs :
  forall d0 w,
    Forall (fun div => is_Some (linked div)) divs ->
    exec (for_each divs album_div d0) w = (Returned (dict_of (omap linked divs) d0), w).
Proof.
  induction divs as [|div divs IH]; intros d0 w Hall; [done|].
  apply Forall_cons in Hall as [[e He] Hall].
  cbn [for_each]. rewrite exec_mbind, album_div_spec.
  cbn [omap list_omap]. rewrite He. unfold linked in He.
  destruct (album_entry div) as [err|[name url]]; [done|].
  injection He as <-. simpl. by apply IH.
Qed.

(** The first block without a link ends the loop with its error. *)
Lemma exec_album_divs_unlinked divs1 div divs2 e :
  forall d0 w,
    Forall (fun div => is_Some (linked div)) divs1 ->
    album_entry div = inl e ->
    exec (for_each (divs1 ++ div :: divs2) album_div d0) w = (Raised e, w).
Proof.
  induction divs1 as [|div1 divs1 IH]; intros d0 w Hall He.
  - cbn [app for_each]. rewrite exec_mbind, album_div_spec, He. done.
  - apply Forall_cons in Hall as [[e1 He1] Hall].
    cbn [app for_each]. rewrite exec_mbind, album_div_spec.
    unfold linked in He1. destruct (album_entry div1) as [err|[name url]]; [done|].
    simpl. by apply IH.
Qed.

(** ** [try] and the exit of the session block *)

Lemma exec_try_except {A : Type} (c : coro A) (h : exn -> coro A) w :
  exec (try_except c h) w =
  match exec c w with
  | (Raised e, w') => exec (h e) w'
  | (Awaiting aws k, w') => (Awaiting aws (fun r => try_except (k r) h), w')
  | r => r
  end.
Proof.
  revert w.
  induction c as [A r|A e|A|A X op k IH|A aws k IH]; intros w; simpl; try done.
  destruct (perform op w) as [x w']. apply IH.
Qed.

Lemma exec_finally_close {A : Type} (c : coro A) w :
  exec (finally_ c session_close) w =
  match exec c w with
  | (Returned r, w') => (Returned r, session_closed w')
  | (Raised e, w') => (Raised e, session_closed w')
  | (Diverged, w') => (Diverged, w')
  | (Awaiting aws k, w') => (Awaiting aws (fun r => finally_ (k r) session_close), w')
  end.
Proof.
  unfold finally_. rewrite exec_mbind, exec_try_except.
  by destruct (exec c w) as [[r|e| |aws k] w'].
Qed.


(** ** Running the loop without stopping *)

Lemma run_all_app s1 s2 l : run_all (s1 ++ s2) l = run_all s2 (run_all s1 l).
Proof. apply fold_left_app. Qed.

(** [run_until_complete] stops on a state some prefix of the schedule
    reaches. *)
Lemma run_until_complete_prefix sched :
  forall l o l',
    run_until_complete sched l = (o, l') ->
    exists s1 s2, sched = s1 ++ s2 /\ l' = run_all s1 l /\ main_result l' = o.
Proof.
  induction sched as [|i sched IH]; intros l o l' H; simpl in H.
  - exists nil, nil. destruct (main_result l) as [r|] eqn:E; injection H as <- <-; done.
  - destruct (main_result l) as [r|] eqn:E.
    + injection H as <- <-. by exists nil, (i :: sched).
    + apply IH in H as (s1 & s2 & -> & -> & Ho).
      by exists (i :: s1), s2.
Qed.

(** It does stop when the whole schedule leads to a finished main task. *)
Lemma run_until_complete_total sched :
  forall l,
    is_Some (main_result (run_all sched l)) ->
    exists r l', run_until_complete sched l = (Some r, l').
Proof.
  induction sched as [|i sched IH]; intros l [r Hr]; simpl in *.
  - rewrite Hr. by eexists _, _.
  - destruct (main_result l) as [r'|] eqn:E; [by eexists _, _|].
    apply IH. by exists r.
Qed.

Lemma run_until_complete_reaches s1 : forall s2 l,
  is_Some (main_result (run_all s1 l)) ->
  exists r l', run_until_complete (s1 ++ s2) l = (Some r, l').
Proof.
  induction s1 as [|i s1 IH]; intros s2 l [r Hr]; simpl in *.
  - destruct s2; simpl; rewrite Hr; by eexists _, _.
  - destruct (main_result l) as [r'|] eqn:E; [by eexists _, _|].
    apply IH. by exists r.
Qed.

(** A coroutine alone in the loop ends as [exec] says. *)
Lemma run_solo (c : coro unit) : forall w,
  match exec c w with
  | (Returned _, w') =>
      exists n, run_until_complete (repeat 0 n) (start c w)
                = (Some None, mkLoop [mkTask None (Finished None)] w')
  | (Raised e, w') =>
      exists n, run_until_complete (repeat 0 n) (start c w)
                = (Some (Some e), mkLoop [mkTask None (Finished (Some e))] w')
  | _ => True
  end.
Proof.
  revert c. fix IH 1. intros c w. destruct c as [r|e| |X op k|aws k]; simpl.
  - by exists 1.
  - by exists 1.
  - done.
  - destruct (perform op w) as [x w'] eqn:E.
    specialize (IH (k x) w').
    destruct (exec (k x) w') as [[r|e| |aws k'] w'']; try done.
    + destruct IH as [n Hn]. exists (S n). simpl.
      unfold loop_step. simpl. rewrite E. exact Hn.
    + destruct IH as [n Hn]. exists (S n). simpl.
      unfold loop_step. simpl. rewrite E. exact Hn.
  - done.
Qed.

(** ** Scripts: the operations a coroutine performs and their results *)

Inductive action :=
| Act {X : Type} (op : io X) (x : X).

(** [c] performs the operations of [script], provided each gives the result
    the script expects, and then behaves as [rest]. *)
Fixpoint follows (script : list action) (rest : coro unit -> Prop) (c : coro unit) : Prop :=
  match script with
  | [] => rest c
  | Act op x :: script' => exists k, c = Vis op k /\ follows script' rest (k x)
  end.

Definition ends_with (final : option exn) (c : coro unit) : Prop :=
  c = match final with None => Ret tt | Some e => Raise e end.

Definition reaches_gather (aws : list (coro unit)) (k : option exn -> coro unit)
    (c : coro unit) : Prop :=
  c = Gather aws k.

Lemma follows_drop script rest c p X (op : io X) x :
  script !! p = Some (Act op x) ->
  follows (drop p script) rest c ->
  exists k, c = Vis op k /\ follows (drop (S p) script) rest (k x).
Proof.
  revert script. induction p as [|p IH]; intros [|a script] Hp Hf; try done.
  - simpl in Hp. injection Hp as ->. simpl in Hf. destruct Hf as (k & -> & Hf).
    exists k. by split.
  - simpl in *. by apply IH.
Qed.

Lemma follows_drop_end script rest c :
  follows (drop (length script) script) rest c -> rest c.
Proof. by rewrite drop_all. Qed.

(** The result of an operation does not depend on the log. *)
Definition enabled (a : action) (w : World) : Prop :=
  match a with Act op x => (perform op w).1 = x end.

Definition effect (a : action) (w : World) : World :=
  match a with Act op _ => (perform op w).2 end.

Lemma occurrences_nil i : occurrences i [] = 0.
Proof. reflexivity. Qed.

Lemma occurrences_cons i i' sched :
  occurrences i (i' :: sched) = (if decide (i' = i) then 1 else 0) + occurrences i sched.
Proof.
  unfold occurrences. cbn [List.filter].
  destruct (decide (i' = i)) as [->|Hne].
  - by rewrite Nat.eqb_refl.
  - by assert (Nat.eqb i i' = false) as -> by (apply Nat.eqb_neq; congruence).
Qed.

Lemma occurrences_app i s1 s2 :
  occurrences i (s1 ++ s2) = occurrences i s1 + occurrences i s2.
Proof. unfold occurrences. by rewrite List.filter_app, length_app. Qed.

(** ** A gather group: one waiting parent, children that follow scripts *)

Record child := mkChild { c_script : list action; c_final : option exn }.

Definition running (ch : child) (p : nat) : bool :=
  bool_decide (p <= length (c_script ch)).

Fixpoint pending_count (chs : list child) (pos : list nat) : nat :=
  match chs, pos with
  | ch :: chs', p :: pos' => (if running ch p then 1 else 0) + pending_count chs' pos'
  | _, _ => 0
  end.

Lemma pending_count_insert chs : forall pos j ch p p',
  chs !! j = Some ch -> pos !! j = Some p ->
  pending_count chs (<[j := p']> pos) + (if running ch p then 1 else 0)
  = pending_count chs pos + (if running ch p' then 1 else 0).
Proof.
  induction chs as [|ch0 chs IH]; intros pos j ch p p' Hch Hp; [done|].
  destruct pos as [|p0 pos]; [done|].
  destruct j as [|j]; simpl in *.
  - injection Hch as ->. injection Hp as ->. lia.
  - specialize (IH pos j ch p p' Hch Hp). lia.
Qed.

Lemma pending_count_zero chs : forall pos j ch p,
  length pos = length chs ->
  pending_count chs pos = 0 ->
  chs !! j = Some ch -> pos !! j = Some p -> running ch p = false.
Proof.
  induction chs as [|ch0 chs IH]; intros pos j ch p Hlen H0 Hch Hp; [done|].
  destruct pos as [|p0 pos]; [done|].
  simpl in H0. destruct j as [|j]; simpl in *.
  - injection Hch as ->. injection Hp as ->. destruct (running ch p); [lia|done].
  - apply (IH pos j); [lia|lia|done|done].
Qed.

(** [loop_step] on a pool made of a parent and its children. *)
Lemma loop_step_child_op pst cts w j X (op : io X) k :
  cts !! j = Some (mkTask (Some 0) (Runnable (Vis op k))) ->
  loop_step (S j) (mkLoop (mkTask None pst :: cts) w) =
  mkLoop (mkTask None pst :: <[j := mkTask (Some 0) (Runnable (k (perform op w).1))]> cts)
         (perform op w).2.
Proof.
  intros Ht. unfold loop_step, set_state. simpl. rewrite Ht. simpl.
  by destruct (perform op w).
Qed.

Lemma loop_step_child_end pst cts w j (r : option exn) :
  cts !! j = Some (mkTask (Some 0) (Runnable (gather_result r))) ->
  loop_step (S j) (mkLoop (mkTask None pst :: cts) w) =
  mkLoop (notify (Some 0) r
            (mkTask None pst :: <[j := mkTask (Some 0) (Finished r)]> cts)) w.
Proof.
  intros Ht. unfold loop_step, set_state. simpl. rewrite Ht.
  by destruct r.
Qed.

Lemma loop_step_idle pool w i :
  match state <$> pool !! i with
  | Some (Runnable _) => False
  | _ => True
  end ->
  loop_step i (mkLoop pool w) = mkLoop pool w.
Proof.
  unfold loop_step. simpl. by destruct (pool !! i) as [[p [c|n k|r]]|].
Qed.

Lemma loop_step_parent_end pst cts w (r : option exn) :
  pst = Runnable (gather_result r) ->
  loop_step 0 (mkLoop (mkTask None pst :: cts) w) =
  mkLoop (mkTask None (Finished r) :: cts) w.
Proof. intros ->. by destruct r. Qed.

Lemma notify_parent pst cts (r : option exn) :
  notify (Some 0) r (mkTask None pst :: cts) =
  match pst with
  | Waiting pending k =>
      match r with
      | Some e => mkTask None (Runnable (k (Some e))) :: cts
      | None =>
          match pending with
          | S (S n) => mkTask None (Waiting (S n) k) :: cts
          | _ => mkTask None (Runnable (k None)) :: cts
          end
      end
  | _ => mkTask None pst :: cts
  end.
Proof.
  unfold notify, set_state. simpl.
  destruct pst as [c|pending k|r']; try done.
  all: destruct r; try done; by destruct pending as [|[|n]].
Qed.

Section gather_group.

Context (chs : list child).
Context (WI : list nat -> World -> Prop).

Hypothesis WI_enabled : forall pos w j ch p a,
  length pos = length chs ->
  chs !! j = Some ch -> pos !! j = Some p -> c_script ch !! p = Some a ->
  WI pos w ->
  enabled a w /\ WI (<[j := S p]> pos) (effect a w).

Hypothesis WI_finish : forall pos w j ch p,
  length pos = length chs ->
  chs !! j = Some ch -> pos !! j = Some p -> p = length (c_script ch) ->
  WI pos w -> WI (<[j := S p]> pos) w.

Definition child_ok (ch : child) (p : nat) (t : task) : Prop :=
  parent t = Some 0 /\
  if running ch p
  then exists c, state t = Runnable c /\
                 follows (drop p (c_script ch)) (ends_with (c_final ch)) c
  else state t = Finished (c_final ch).

(** The outcome the parent is resumed with. *)
Definition outcome_ok (pos : list nat) (r : option exn) : Prop :=
  match r with
  | None => forall j ch p, chs !! j = Some ch -> pos !! j = Some p ->
                           running ch p = false /\ c_final ch = None
  | Some e => exists j ch p, chs !! j = Some ch /\ pos !! j = Some p /\
                             running ch p = false /\ c_final ch = Some e
  end.

Inductive parent_ok (pos : list nat) : tstate -> Prop :=
| parent_waiting n :
    n = pending_count chs pos -> 0 < n ->
    (forall j ch p, chs !! j = Some ch -> pos !! j = Some p ->
                    running ch p = false -> c_final ch = None) ->
    parent_ok pos (Waiting n gather_result)
| parent_resumed r : outcome_ok pos r -> parent_ok pos (Runnable (gather_result r))
| parent_finished r : outcome_ok pos r -> parent_ok pos (Finished r).

Definition group_inv (pos : list nat) (l : loop) : Prop :=
  length pos = length chs /\
  exists pst cts,
    tasks l = mkTask None pst :: cts /\
    parent_ok pos pst /\
    length cts = length chs /\
    (forall j ch p t, chs !! j = Some ch -> pos !! j = Some p -> cts !! j = Some t ->
                      child_ok ch p t) /\
    WI pos (world l).

(** How a schedule entry moves the positions. *)
Definition advance (i : nat) (pos : list nat) : list nat :=
  match i with
  | O => pos
  | S j =>
      match chs !! j, pos !! j with
      | Some ch, Some p => if running ch p then <[j := S p]> pos else pos
      | _, _ => pos
      end
  end.

Lemma outcome_ok_insert pos r j ch p :
  chs !! j = Some ch -> pos !! j = Some p ->
  outcome_ok pos r -> outcome_ok (<[j := S p]> pos) r.
Proof.
  intros Hch Hp Hr. destruct r as [e|]; simpl in *.
  - destruct Hr as (j' & ch' & p' & Hch' & Hp' & Hrun & Hfin).
    destruct (decide (j' = j)) as [->|Hne].
    + exists j, ch, (S p). assert (ch' = ch) as -> by congruence.
      assert (p' = p) as -> by congruence.
      split; [done|]. split.
      * apply list_lookup_insert_eq. by eapply lookup_lt_Some.
      * split; [|done]. unfold running in *.
        apply bool_decide_eq_false in Hrun. apply bool_decide_eq_false. lia.
    + exists j', ch', p'. split; [done|]. split; [|done].
      by rewrite list_lookup_insert_ne.
  - intros j' ch' p' Hch' Hp'.
    destruct (decide (j' = j)) as [->|Hne].
    + rewrite list_lookup_insert_eq in Hp' by by eapply lookup_lt_Some.
      injection Hp' as <-. assert (ch' = ch) as -> by congruence.
      destruct (Hr j ch p Hch Hp) as [Hrun Hfin]. split; [|done].
      unfold running in *.
      apply bool_decide_eq_false in Hrun. apply bool_decide_eq_false. lia.
    + rewrite list_lookup_insert_ne in Hp' by done. by apply (Hr j').
Qed.

(** A child that moves on without finishing leaves the parent as it is. *)
Lemma parent_ok_insert_running pos st j ch p :
  chs !! j = Some ch -> pos !! j = Some p ->
  running ch p = true -> running ch (S p) = true ->
  parent_ok pos st -> parent_ok (<[j := S p]> pos) st.
Proof.
  intros Hch Hp Hrun Hrun' Hpar. destruct Hpar as [n Hn Hpos Hfin|r Hr|r Hr].
  - apply parent_waiting; [|done|].
    + pose proof (pending_count_insert chs pos j ch p (S p) Hch Hp) as Hc.
      rewrite Hrun, Hrun' in Hc. lia.
    + intros j' ch' p' Hch' Hp' Hrun''.
      destruct (decide (j' = j)) as [->|Hne].
      * rewrite list_lookup_insert_eq in Hp' by by eapply lookup_lt_Some.
        injection Hp' as <-. assert (ch' = ch) as -> by congruence. congruence.
      * rewrite list_lookup_insert_ne in Hp' by done. by apply (Hfin j' ch' p').
  - apply parent_resumed. by apply (outcome_ok_insert pos r j ch p).
  - apply parent_finished. by apply (outcome_ok_insert pos r j ch p).
Qed.

Lemma child_lookups (pos : list nat) (cts : list task) j :
  length pos = length chs -> length cts = length chs ->
  match cts !! j with
  | Some t => exists ch p, chs !! j = Some ch /\ pos !! j = Some p
  | None => chs !! j = None
  end.
Proof.
  intros Hlen Hclen. destruct (cts !! j) as [t|] eqn:Ht.
  - apply lookup_lt_Some in Ht.
    destruct (lookup_lt_is_Some_2 chs j) as [ch Hch]; [lia|].
    destruct (lookup_lt_is_Some_2 pos j) as [p Hp]; [lia|].
    by exists ch, p.
  - apply lookup_ge_None in Ht. apply lookup_ge_None. lia.
Qed.

(** One entry of the schedule keeps the group in its invariant and moves the
    positions as [advance] says. *)
Lemma group_step (pos : list nat) l i : group_inv pos l -> group_inv (advance i pos) (loop_step i l).
Proof.
  intros (Hlen & pst & cts & Htasks & Hpar & Hclen & Hch & HW).
  destruct l as [pool w]. simpl in *. subst pool.
  destruct i as [|j].
  - (* the parent *)
    simpl. destruct Hpar as [n Hn Hpos Hfin|r Hr|r Hr].
    + rewrite loop_step_idle by done.
      split; [done|]. exists (Waiting n gather_result), cts.
      split; [done|]. split; [by apply parent_waiting|]. by split.
    + rewrite (loop_step_parent_end _ _ _ r) by done.
      split; [done|]. exists (Finished r), cts.
      split; [done|]. split; [by apply parent_finished|]. by split.
    + rewrite loop_step_idle by done.
      split; [done|]. exists (Finished r), cts.
      split; [done|]. split; [by apply parent_finished|]. by split.
  - (* a child, or nothing *)
    pose proof (child_lookups pos cts j Hlen Hclen) as Hj.
    destruct (cts !! j) as [t|] eqn:Ht.
    2: { unfold advance. rewrite Hj.
         rewrite loop_step_idle by (simpl; by rewrite Ht).
         split; [done|]. by exists pst, cts. }
    destruct Hj as (ch & p & Hchj & Hpj).
    destruct (Hch j ch p t Hchj Hpj Ht) as [Hparent Hst].
    destruct t as [tp tst]. simpl in Hparent, Hst. subst tp.
    unfold advance. rewrite Hchj, Hpj.
    destruct (running ch p) eqn:Hrun.
    2: { rewrite loop_step_idle by (simpl; rewrite Ht; simpl; by rewrite Hst).
         split; [done|]. by exists pst, cts. }
    destruct Hst as (c & -> & Hfol).
    assert (Hple : p <= length (c_script ch)).
    { unfold running in Hrun. by apply bool_decide_eq_true in Hrun. }
    assert (Hjlt : j < length pos) by by eapply lookup_lt_Some.
    destruct (decide (p < length (c_script ch))) as [Hlt|Hge].
    + (* an operation of the script *)
      destruct (lookup_lt_is_Some_2 (c_script ch) p Hlt) as [[X op x] Ha].
      destruct (follows_drop _ _ _ _ _ _ _ Ha Hfol) as (k & -> & Hfol').
      destruct (WI_enabled pos w j ch p _ Hlen Hchj Hpj Ha HW) as [Hen HW'].
      simpl in Hen, HW'.
      rewrite (loop_step_child_op _ _ _ _ _ _ _ Ht). rewrite Hen.
      assert (Hrun' : running ch (S p) = true).
      { unfold running. apply bool_decide_eq_true. lia. }
      split; [by rewrite length_insert|].
      exists pst, (<[j := mkTask (Some 0) (Runnable (k x))]> cts).
      split; [done|]. split; [by apply (parent_ok_insert_running pos pst j ch p)|].
      split; [by rewrite length_insert|]. split; [|done].
      intros j' ch' p' t' Hch' Hp' Ht'.
      destruct (decide (j' = j)) as [->|Hne].
      * rewrite list_lookup_insert_eq in Hp' by done.
        rewrite list_lookup_insert_eq in Ht' by lia.
        injection Hp' as <-. injection Ht' as <-.
        assert (ch' = ch) as -> by congruence.
        split; [done|]. rewrite Hrun'. by exists (k x).
      * rewrite list_lookup_insert_ne in Hp' by done.
        rewrite list_lookup_insert_ne in Ht' by done.
        by apply (Hch j').
    + (* the end of the script *)
      assert (p = length (c_script ch)) as Hp by lia.
      rewrite Hp in Hfol. apply follows_drop_end in Hfol. unfold ends_with in Hfol.
      change (match c_final ch with Some e => Raise e | None => Ret tt end)
        with (gather_result (c_final ch)) in Hfol. subst c.
      rewrite (loop_step_child_end _ _ _ _ _ Ht), notify_parent.
      assert (Hrun' : running ch (S p) = false).
      { unfold running. apply bool_decide_eq_false. lia. }
      pose proof (WI_finish pos w j ch p Hlen Hchj Hpj Hp HW) as HW'.
      pose proof (pending_count_insert chs pos j ch p (S p) Hchj Hpj) as Hcount.
      rewrite Hrun, Hrun' in Hcount.
      assert (Hch' : forall j' ch' p' t',
                 chs !! j' = Some ch' -> <[j := S p]> pos !! j' = Some p' ->
                 <[j := mkTask (Some 0) (Finished (c_final ch))]> cts !! j' = Some t' ->
                 child_ok ch' p' t').
      { intros j' ch' p' t' Hch' Hp' Ht'.
        destruct (decide (j' = j)) as [->|Hne].
        - rewrite list_lookup_insert_eq in Hp' by done.
          rewrite list_lookup_insert_eq in Ht' by lia.
          injection Hp' as <-. injection Ht' as <-.
          assert (ch' = ch) as -> by congruence.
          split; [done|]. by rewrite Hrun'.
        - rewrite list_lookup_insert_ne in Hp' by done.
          rewrite list_lookup_insert_ne in Ht' by done.
          by apply (Hch j'). }
      assert (Hnew : <[j := S p]> pos !! j = Some (S p))
        by by apply list_lookup_insert_eq.
      split; [by rewrite length_insert|].
      destruct Hpar as [n Hn Hpos Hfin|r Hr|r Hr].
      * destruct (c_final ch) as [e|] eqn:Hfinal.
        -- eexists _, _. split; [reflexivity|]. split; [|by rewrite length_insert].
           apply (parent_resumed _ (Some e)). by exists j, ch, (S p).
        -- destruct n as [|[|n]]; [lia| |].
           ++ eexists _, _. split; [reflexivity|]. split; [|by rewrite length_insert].
              apply (parent_resumed _ None).
              intros j' ch' p' Hchj' Hpj'.
              assert (Hz : pending_count chs (<[j := S p]> pos) = 0) by lia.
              assert (Hr' : running ch' p' = false).
              { apply (pending_count_zero chs (<[j := S p]> pos) j');
                  [by rewrite length_insert|done|done|done]. }
              split; [done|].
              destruct (decide (j' = j)) as [->|Hne]; [congruence|].
              rewrite list_lookup_insert_ne in Hpj' by done.
              by apply (Hfin j' ch' p').
           ++ eexists _, _. split; [reflexivity|]. split; [|by rewrite length_insert].
              apply parent_waiting; [lia|lia|].
              intros j' ch' p' Hchj' Hpj' Hr'.
              destruct (decide (j' = j)) as [->|Hne]; [congruence|].
              rewrite list_lookup_insert_ne in Hpj' by done.
              by apply (Hfin j' ch' p').
      * eexists _, _. split; [reflexivity|]. split; [|by rewrite length_insert].
        apply parent_resumed. by apply (outcome_ok_insert pos r j ch p).
      * eexists _, _. split; [reflexivity|]. split; [|by rewrite length_insert].
        apply parent_finished. by apply (outcome_ok_insert pos r j ch p).
Qed.

Definition advance_all (sched : list nat) (pos : list nat) : list nat :=
  fold_left (fun pos i => advance i pos) sched pos.

Lemma group_run sched : forall (pos : list nat) l,
  group_inv pos l -> group_inv (advance_all sched pos) (run_all sched l).
Proof.
  induction sched as [|i sched IH]; intros pos l H; [done|].
  simpl. apply IH. by apply group_step.
Qed.

Lemma advance_length i (pos : list nat) : length (advance i pos) = length pos.
Proof.
  destruct i as [|j]; [done|]. simpl.
  destruct (chs !! j) as [ch|]; [|done]. destruct (pos !! j) as [p|]; [|done].
  destruct (running ch p); [|done]. by rewrite length_insert.
Qed.

(** A child's position only depends on how often it was scheduled. *)
Lemma advance_lookup i (pos : list nat) j ch p :
  chs !! j = Some ch -> pos !! j = Some p ->
  advance i pos !! j =
  Some (if decide (i = S j) then (if running ch p then S p else p) else p).
Proof.
  intros Hch Hp. destruct i as [|j']; [by rewrite decide_False|].
  simpl. destruct (decide (j' = j)) as [->|Hne].
  - rewrite decide_True by done. rewrite Hch, Hp.
    destruct (running ch p); [|done].
    apply list_lookup_insert_eq. by eapply lookup_lt_Some.
  - rewrite decide_False by congruence.
    destruct (chs !! j') as [ch'|]; [|done]. destruct (pos !! j') as [p'|]; [|done].
    destruct (running ch' p'); [|done]. by rewrite list_lookup_insert_ne.
Qed.

Lemma advance_all_lookup sched : forall (pos : list nat) j ch p,
  chs !! j = Some ch -> pos !! j = Some p ->
  advance_all sched pos !! j =
  Some (Nat.max (Nat.min (S (length (c_script ch))) (p + occurrences (S j) sched)) p).
Proof.
  induction sched as [|i sched IH]; intros pos j ch p Hch Hp.
  - rewrite occurrences_nil. unfold advance_all. cbn [fold_left]. rewrite Hp. f_equal. lia.
  - cbn [advance_all fold_left].
    change (fold_left (fun pos i => advance i pos) sched (advance i pos))
      with (advance_all sched (advance i pos)).
    rewrite (IH _ j ch _ Hch (advance_lookup i pos j ch p Hch Hp)).
    f_equal. rewrite occurrences_cons.
    destruct (decide (i = S j)) as [->|Hne].
    + destruct (running ch p) eqn:Hrun; unfold running in Hrun.
      * apply bool_decide_eq_true in Hrun. lia.
      * apply bool_decide_eq_false in Hrun. lia.
    + lia.
Qed.

(** Scheduled often enough, every child is done. *)
Lemma advance_all_done sched (pos : list nat) j ch p p' :
  chs !! j = Some ch -> pos !! j = Some p ->
  S (length (c_script ch)) <= p + occurrences (S j) sched ->
  advance_all sched pos !! j = Some p' ->
  running ch p' = false.
Proof.
  intros Hch Hp Hocc Hp'.
  rewrite (advance_all_lookup sched pos j ch p Hch Hp) in Hp'.
  assert (p' = Nat.max (Nat.min (S (length (c_script ch)))
                                (p + occurrences (S j) sched)) p) as -> by congruence.
  unfold running. apply bool_decide_eq_false. lia.
Qed.

Lemma pending_count_done (pos : list nat) :
  length pos = length chs ->
  (forall j ch p, chs !! j = Some ch -> pos !! j = Some p -> running ch p = false) ->
  pending_count chs pos = 0.
Proof.
  clear WI_enabled WI_finish. revert pos.
  induction chs as [|ch0 chs' IH]; intros pos Hlen Hall; [done|].
  destruct pos as [|p0 pos]; [done|]. simpl.
  rewrite (Hall 0 ch0 p0) by done. simpl. apply IH; [simpl in Hlen; lia|].
  intros j ch p Hch Hp. by apply (Hall (S j)).
Qed.

(** Once every child is done, one more turn of the parent ends the run. *)
Lemma group_finishes (pos : list nat) l :
  group_inv pos l ->
  (forall j ch p, chs !! j = Some ch -> pos !! j = Some p -> running ch p = false) ->
  is_Some (main_result (loop_step 0 l)).
Proof.
  intros (Hlen & pst & cts & Htasks & Hpar & Hclen & Hch & HW) Hdone.
  destruct l as [pool w]. simpl in *. subst pool.
  destruct Hpar as [n Hn Hpos Hfin|r Hr|r Hr].
  - rewrite pending_count_done in Hn by done. lia.
  - rewrite (loop_step_parent_end _ _ _ r) by done. by eexists.
  - rewrite loop_step_idle by done. by eexists.
Qed.

(** What a finished run says about the children. *)
Lemma group_result (pos : list nat) l r :
  group_inv pos l -> main_result l = Some r ->
  outcome_ok pos r /\ WI pos (world l).
Proof.
  intros (Hlen & pst & cts & Htasks & Hpar & Hclen & Hch & HW) Hr.
  split; [|done]. unfold main_result in Hr. rewrite Htasks in Hr. simpl in Hr.
  destruct Hpar as [n Hn Hpos Hfin|r' Hr'|r' Hr']; simpl in Hr; try done.
  by injection Hr as <-.
Qed.

(** *** From the start of the parent to the spawn *)

Context (pscript : list action) (aws : list (coro unit)).

Definition pos0 : list nat := replicate (length chs) 0.

Hypothesis aws_follow :
  Forall2 (fun ch c => follows (c_script ch) (ends_with (c_final ch)) c) chs aws.
Hypothesis aws_nonempty : aws <> [].
Hypothesis parent_enabled : forall w a,
  a ∈ pscript -> WI pos0 w -> enabled a w /\ WI pos0 (effect a w).

Definition pre_inv (q : nat) (l : loop) : Prop :=
  q <= length pscript /\
  exists c, tasks l = [mkTask None (Runnable c)] /\
            follows (drop q pscript) (reaches_gather aws gather_result) c /\
            WI pos0 (world l).

Lemma pending_count_pos0 : pending_count chs pos0 = length chs.
Proof.
  clear. unfold pos0. induction chs as [|ch chs' IH]; [done|].
  cbn [length replicate pending_count]. rewrite IH.
  assert (running ch 0 = true) as ->; [|done].
  unfold running. apply bool_decide_eq_true. lia.
Qed.

Lemma pre_step_other q l i : pre_inv q l -> i <> 0 -> loop_step i l = l.
Proof.
  intros (Hq & c & Htasks & Hfol & HW) Hi. destruct l as [pool w]. simpl in *.
  subst pool. apply loop_step_idle. destruct i as [|i]; [done|]. by simpl.
Qed.

Lemma pre_step_parent q l :
  pre_inv q l ->
  if decide (q < length pscript) then pre_inv (S q) (loop_step 0 l)
  else group_inv pos0 (loop_step 0 l).
Proof.
  intros (Hq & c & Htasks & Hfol & HW). destruct l as [pool w]. simpl in *.
  subst pool. case_decide as Hlt.
  - destruct (lookup_lt_is_Some_2 pscript q Hlt) as [[X op x] Ha].
    destruct (follows_drop _ _ _ _ _ _ _ Ha Hfol) as (k & -> & Hfol').
    destruct (parent_enabled w (Act op x)) as [Hen HW']; [|done|].
    { by eapply list_elem_of_lookup_2. }
    simpl in Hen, HW'.
    unfold loop_step, set_state. simpl.
    destruct (perform op w) as [x' w'] eqn:E. simpl in *. subst x'.
    split; [lia|]. by exists (k x).
  - assert (q = length pscript) as -> by lia.
    apply follows_drop_end in Hfol. unfold reaches_gather in Hfol. subst c.
    destruct aws as [|aw aws'] eqn:Haws; [done|]. rewrite <- Haws in *.
    assert (Hstep : loop_step 0 (mkLoop [mkTask None (Runnable (Gather aws gather_result))] w)
                    = mkLoop (mkTask None (Waiting (length aws) gather_result) :: spawn 0 aws) w).
    { rewrite Haws. reflexivity. }
    rewrite Hstep. clear Hstep.
    pose proof (Forall2_length _ _ _ aws_follow) as Hlen.
    split; [unfold pos0; by rewrite length_replicate|].
    exists (Waiting (length aws) gather_result), (spawn 0 aws).
    split; [done|]. split.
    { apply parent_waiting.
      - by rewrite pending_count_pos0.
      - rewrite Haws. simpl. lia.
      - intros j ch p Hch Hp Hrun. unfold pos0 in Hp.
        apply lookup_replicate in Hp as [-> _].
        unfold running in Hrun. apply bool_decide_eq_false in Hrun. lia. }
    split; [unfold spawn; by rewrite length_map|]. split; [|done].
    intros j ch p t Hch Hp Ht. unfold pos0 in Hp.
    apply lookup_replicate in Hp as [-> _].
    unfold spawn in Ht. rewrite list_lookup_fmap in Ht.
    destruct (aws !! j) as [c|] eqn:Hc; [|done]. simpl in Ht. injection Ht as <-.
    split; [done|]. unfold running. rewrite bool_decide_eq_true_2 by lia.
    exists c. split; [done|]. rewrite drop_0.
    by apply (Forall2_lookup_lr _ _ _ _ _ _ aws_follow Hch Hc).
Qed.

(** Every state of the run is before the spawn or in the group. *)
Definition crawl_inv (l : loop) : Prop :=
  (exists q, pre_inv q l) \/ (exists pos, group_inv pos l).

Lemma crawl_run sched : forall l, crawl_inv l -> crawl_inv (run_all sched l).
Proof.
  induction sched as [|i sched IH]; intros l H; [done|].
  simpl. apply IH. destruct H as [[q Hq]|[pos Hpos]].
  - destruct (decide (i = 0)) as [->|Hne].
    + pose proof (pre_step_parent q l Hq) as Hs. case_decide.
      * left. by exists (S q).
      * right. by exists pos0.
    + rewrite (pre_step_other q l i Hq Hne). left. by exists q.
  - right. exists (advance i pos). by apply group_step.
Qed.

Lemma pre_run_spawns sched : forall q l,
  pre_inv q l ->
  S (length pscript) <= q + occurrences 0 sched ->
  exists pos, group_inv pos (run_all sched l).
Proof.
  induction sched as [|i sched IH]; intros q l Hq Hocc.
  - rewrite occurrences_nil in Hocc. destruct Hq as [Hq _]. lia.
  - rewrite occurrences_cons in Hocc. simpl.
    destruct (decide (i = 0)) as [->|Hne].
    + pose proof (pre_step_parent q l Hq) as Hs. case_decide.
      * apply (IH (S q)); [done|lia].
      * exists (advance_all sched pos0). by apply group_run.
    + rewrite (pre_step_other q l i Hq Hne). apply (IH q); [done|lia].
Qed.

(** Whatever the schedule, a completed run ended in the group, with an
    outcome that the positions of the children justify. *)
Lemma crawl_partial l0 sched r l' :
  pre_inv 0 l0 ->
  run_until_complete sched l0 = (Some r, l') ->
  exists pos, group_inv pos l' /\ outcome_ok pos r /\ WI pos (world l').
Proof.
  intros H0 Hrun.
  apply run_until_complete_prefix in Hrun as (s1 & s2 & -> & -> & Hres).
  destruct (crawl_run s1 l0) as [[q Hq]|[pos Hpos]]; [left; by exists 0| |].
  - destruct Hq as (_ & c & Htasks & _). unfold main_result in Hres.
    by rewrite Htasks in Hres.
  - exists pos. split; [done|]. by apply group_result.
Qed.

(** A schedule that lets the parent reach the spawn, then every child reach
    its end, then the parent take one turn, completes the run. *)
Lemma crawl_total l0 s0 s2 rest :
  pre_inv 0 l0 ->
  S (length pscript) <= occurrences 0 s0 ->
  (forall j ch, chs !! j = Some ch ->
                S (length (c_script ch)) <= occurrences (S j) s2) ->
  exists r l', run_until_complete (s0 ++ s2 ++ 0 :: rest) l0 = (Some r, l').
Proof.
  intros H0 Hocc0 Hocc2.
  replace (s0 ++ s2 ++ 0 :: rest) with ((s0 ++ s2 ++ [0]) ++ rest)
    by by rewrite <- !app_assoc.
  apply run_until_complete_reaches.
  rewrite !run_all_app. simpl.
  destruct (pre_run_spawns s0 0 l0 H0) as [pos Hpos]; [lia|].
  pose proof (group_run s2 pos _ Hpos) as Hg.
  apply (group_finishes _ _ Hg).
  intros j ch p' Hch Hp'.
  destruct Hpos as [Hlen _].
  destruct (lookup_lt_is_Some_2 pos j) as [p Hp].
  { apply lookup_lt_Some in Hch. lia. }
  apply (advance_all_done s2 pos j ch p p' Hch Hp); [|done].
  specialize (Hocc2 j ch Hch). lia.
Qed.

End gather_group.


(** ** An album crawl as a gather group *)

(** A song of the album: its row on the album page, what the site serves for
    it, and the lyrics its page holds, if it has the lyric block. *)
Record song := mkSong {
  sg_name : string;
  sg_fragment : string;
  sg_response : ClientResponse;
  sg_page : string;
  sg_lyrics : option string
}.

Lemma dict_of_fresh {V : Type} (entries : list (string * V)) :
  forall d, NoDup (d.*1 ++ entries.*1) -> dict_of entries d = d ++ entries.
Proof.
  induction entries as [|[k v] entries IH]; intros d Hnd.
  - by rewrite app_nil_r.
  - simpl in *. rewrite IH.
    + assert (Hset : dict_set d k v = d ++ [(k, v)]).
      { apply NoDup_app in Hnd as (_ & Hdis & _).
        assert (Hk : k ∉ d.*1).
        { intros Hin. apply (Hdis k Hin). apply list_elem_of_here. }
        clear -Hk. induction d as [|[k' v'] d IH]; [done|].
        simpl. destruct (String.eqb k' k) eqn:E.
        - apply String.eqb_eq in E as ->. exfalso. apply Hk. apply list_elem_of_here.
        - rewrite IH; [done|]. intros Hin. apply Hk. by apply list_elem_of_further. }
      rewrite Hset. by rewrite <- app_assoc.
    + assert (Hkeys : (dict_set d k v).*1 = d.*1 ++ [k]).
      { rewrite dict_set_keys. rewrite decide_False; [done|].
        apply NoDup_app in Hnd as (_ & Hdis & _).
        intros Hin. apply (Hdis k Hin). apply list_elem_of_here. }
      rewrite Hkeys, <- app_assoc. done.
Qed.

(** Rows that all carry a link: the loop returns without an operation. *)
Lemma for_each_song_rows rows : forall d0 entries,
  map classify_row rows = map (fun e => RowEntry e.1 e.2) entries ->
  for_each rows song_row d0 = Ret (dict_of entries d0).
Proof.
  induction rows as [|row rows IH]; intros d0 [|[name link] entries] H; try done.
  simpl in H. injection H as Hrow Hrows.
  cbn [for_each]. rewrite song_row_spec, Hrow. simpl. by apply IH.
Qed.




Section album_crawl.

Context (fuel : nat) (BeautifulSoup : string -> node) (session : ClientSession).
Context (album outputdir : string).
Context (album_response : ClientResponse) (album_page : string) (tbody : node).
Context (songs : list song).
Context (dir : string).

Definition sg_url (s : song) : string := "http://lyrics.com" +:+ sg_fragment s.
Definition sg_path (s : song) : string :=
  posixpath.join outputdir (sg_name s +:+ ".txt").

Definition song_script (s : song) : list action :=
  [Act (Get session (sg_url s)) (inr (sg_response s));
   Act (Text (sg_response s) 0) (inr (sg_page s))] ++
  match sg_lyrics s with
  | Some text =>
      [Act (Makedirs (posixpath.dirname (sg_path s))) (inr tt);
       Act (OpenW (sg_path s)) (inr tt);
       Act (WriteFile (sg_path s) text) tt;
       Act (Print ("---written " +:+ sg_name s)) tt]
  | None => []
  end.

Definition song_final (s : song) : option exn :=
  match sg_lyrics s with
  | Some _ => None
  | None => Some (NoneType_has_no "get_text")
  end.

Definition song_child (s : song) : child := mkChild (song_script s) (song_final s).

(** What the site and the parser give for a song. *)
Definition served (s : song) : Prop :=
  session (sg_url s) = inr (sg_response s) /\
  sg_response s 0 = inr (sg_page s) /\
  match sg_lyrics s with
  | Some text =>
      exists pre, bs4.find (BeautifulSoup (sg_page s)) "pre" (IdIs "lyric-body-text")
                  = Some pre /\ bs4.get_text pre = text
  | None => bs4.find (BeautifulSoup (sg_page s)) "pre" (IdIs "lyric-body-text") = None
  end.

Definition song_task (s : song) : coro unit :=
  get_and_write_lyrics_com_song (S fuel) BeautifulSoup session outputdir
    (sg_name s) (Some (sg_fragment s)).

Lemma song_follows s :
  served s -> follows (song_script s) (ends_with (song_final s)) (song_task s).
Proof.
  intros (Hget & Htext & Hpre).
  unfold song_script, song_final, song_task, get_and_write_lyrics_com_song,
    get_lyrics_com_song, fetch, write.
  cbn -[bs4.find bs4.get_text posixpath.join posixpath.dirname].
  eexists. split; [reflexivity|]. cbn -[bs4.find bs4.get_text posixpath.join posixpath.dirname].
  eexists. split; [reflexivity|]. cbn -[bs4.find bs4.get_text posixpath.join posixpath.dirname].
  destruct (sg_lyrics s) as [text|].
  - destruct Hpre as (pre & -> & <-).
    cbn -[bs4.find bs4.get_text posixpath.join posixpath.dirname].
    eexists. split; [reflexivity|]. cbn -[bs4.find bs4.get_text posixpath.join posixpath.dirname].
    eexists. split; [reflexivity|]. cbn -[bs4.find bs4.get_text posixpath.join posixpath.dirname].
    eexists. split; [reflexivity|]. cbn -[bs4.find bs4.get_text posixpath.join posixpath.dirname].
    eexists. split; [reflexivity|]. reflexivity.
  - rewrite Hpre. reflexivity.
Qed.

(** The album task up to its [gather]. *)
Definition album_url : string := "http://lyrics.com/album/" +:+ album.

Definition album_script : list action :=
  [Act (Get session album_url) (inr album_response);
   Act (Text album_response 0) (inr album_page)].

Definition listed : Prop :=
  session album_url = inr album_response /\
  album_response 0 = inr album_page /\
  bs4.find (BeautifulSoup album_page) "tbody" AnyAttrs = Some tbody /\
  map classify_row (bs4.find_all tbody "tr" AnyAttrs)
  = map (fun s => RowEntry (sg_name s) (Some (sg_fragment s))) songs /\
  NoDup (sg_name <$> songs).

(** The same for a page that may list a name more than once: its rows, all
    linked, are [entries], and [songs] is the dictionary the loop builds
    from them. *)
Definition listing : Prop :=
  session album_url = inr album_response /\
  album_response 0 = inr album_page /\
  bs4.find (BeautifulSoup album_page) "tbody" AnyAttrs = Some tbody /\
  exists entries : list (string * string),
    map classify_row (bs4.find_all tbody "tr" AnyAttrs)
    = map (fun e => RowEntry e.1 (Some e.2)) entries /\
    dict_of (map (fun e => (e.1, Some e.2)) entries) []
    = map (fun s => (sg_name s, Some (sg_fragment s))) songs.

Lemma listed_listing : listed -> listing.
Proof.
  intros (Hget & Htext & Htbody & Hrows & Hnames).
  split; [done|]. split; [done|]. split; [done|].
  exists (map (fun s => (sg_name s, sg_fragment s)) songs).
  rewrite !map_map. split; [done|].
  rewrite dict_of_fresh; [done|].
  simpl. by rewrite <- list_fmap_compose.
Qed.

Definition album_task : coro unit :=
  get_lyrics_com_album (S fuel) BeautifulSoup session album outputdir.

Lemma album_follows :
  listing ->
  follows album_script (reaches_gather (map song_task songs) gather_result) album_task.
Proof.
  intros (Hget & Htext & Htbody & entries & Hrows & Hdict).
  unfold album_script, album_task, get_lyrics_com_album, get_lyrics_com_songs_for_album,
    fetch.
  cbn -[bs4.find bs4.find_all for_each song_awaitables].
  eexists. split; [reflexivity|]. cbn -[bs4.find bs4.find_all for_each song_awaitables].
  eexists. split; [reflexivity|]. cbn -[bs4.find bs4.find_all for_each song_awaitables].
  rewrite Htbody. cbn -[bs4.find bs4.find_all for_each song_awaitables].
  rewrite (for_each_song_rows _ [] (map (fun e => (e.1, Some e.2)) entries)).
  2: { rewrite Hrows, map_map. done. }
  cbn -[bs4.find bs4.find_all for_each song_awaitables].
  rewrite Hdict.
  unfold reaches_gather, asyncio_gather. f_equal.
  unfold song_awaitables. simpl. rewrite map_map. done.
Qed.

(** *** The file system along the run *)

Definition file_state (s : song) (p : nat) : option entry :=
  match sg_lyrics s with
  | Some text =>
      if Nat.leb p 3 then None
      else if Nat.eqb p 4 then Some (File EmptyString)
      else Some (File text)
  | None => None
  end.

Definition songs_WI (pos : list nat) (w : World) : Prop :=
  closed w = false /\
  (fs w !! dir = None \/ fs w !! dir = Some Dir) /\
  (forall j s p, songs !! j = Some s -> pos !! j = Some p ->
                 is_Some (sg_lyrics s) -> 3 <= p -> fs w !! dir = Some Dir) /\
  (forall j s p, songs !! j = Some s -> pos !! j = Some p ->
                 fs w !! sg_path s = file_state s p) /\
  (forall q, q <> dir -> (forall s, s ∈ songs -> sg_path s <> q) -> fs w !! q = None).

Hypothesis paths_in_dir : forall s, s ∈ songs -> posixpath.dirname (sg_path s) = dir.
Hypothesis paths_distinct : NoDup (sg_path <$> songs).
Hypothesis paths_not_dir : forall s, s ∈ songs -> sg_path s <> dir.
Hypothesis makedirs_dir : forall m : gmap string entry,
  m !! dir = None \/ m !! dir = Some Dir -> os.makedirs dir m = inr (<[dir := Dir]> m).
Hypothesis open_in_dir : forall s (m : gmap string entry),
  s ∈ songs -> m !! dir = Some Dir -> m !! sg_path s <> Some Dir ->
  os.open_w (sg_path s) m = inr (<[sg_path s := File EmptyString]> m).

Lemma sg_path_inj j j' s s' :
  songs !! j = Some s -> songs !! j' = Some s' -> sg_path s = sg_path s' -> j = j'.
Proof.
  intros Hs Hs' Heq.
  apply (NoDup_lookup _ j j' (sg_path s) paths_distinct).
  - by rewrite list_lookup_fmap, Hs.
  - by rewrite list_lookup_fmap, Hs', Heq.
Qed.

(** The invariant after song [j] has moved on, given what the file system
    now holds. *)
Lemma songs_WI_update (pos : list nat) w j s p w' :
  songs !! j = Some s -> pos !! j = Some p ->
  songs_WI pos w ->
  closed w' = false ->
  (fs w' !! dir = fs w !! dir \/ fs w' !! dir = Some Dir) ->
  (is_Some (sg_lyrics s) -> 3 <= S p -> fs w' !! dir = Some Dir) ->
  fs w' !! sg_path s = file_state s (S p) ->
  (forall q, q <> dir -> q <> sg_path s -> fs w' !! q = fs w !! q) ->
  songs_WI (<[j := S p]> pos) w'.
Proof.
  intros Hs Hp (Hc & Hd & Hmade & Hfiles & Hrest) Hc' Hmd Hmade' Hfile Hother.
  assert (Hin : s ∈ songs) by by eapply list_elem_of_lookup_2.
  assert (Hjlt : j < length pos) by by eapply lookup_lt_Some.
  split; [done|]. split; [|split; [|split]].
  - destruct Hmd as [->| ->]; [done|by right].
  - intros j' s' p' Hs' Hp' Hgood Hge.
    destruct (decide (j' = j)) as [->|Hne].
    + rewrite list_lookup_insert_eq in Hp' by done. injection Hp' as <-.
      assert (s' = s) as -> by congruence. by apply Hmade'.
    + rewrite list_lookup_insert_ne in Hp' by done.
      destruct Hmd as [->| ->]; [|done]. by apply (Hmade j' s' p').
  - intros j' s' p' Hs' Hp'.
    destruct (decide (j' = j)) as [->|Hne].
    + rewrite list_lookup_insert_eq in Hp' by done. injection Hp' as <-.
      assert (s' = s) as -> by congruence. done.
    + rewrite list_lookup_insert_ne in Hp' by done.
      rewrite Hother.
      * by apply (Hfiles j').
      * apply paths_not_dir. by eapply list_elem_of_lookup_2.
      * intros Heq. apply Hne. by apply (sg_path_inj j' j s' s).
  - intros q Hq Hnone. rewrite Hother; [by apply Hrest|done|].
    intros ->. by apply (Hnone s).
Qed.

Lemma songs_WI_same_fs (pos : list nat) w j s p w' :
  songs !! j = Some s -> pos !! j = Some p ->
  songs_WI pos w ->
  closed w' = false -> fs w' = fs w ->
  file_state s (S p) = file_state s p ->
  (is_Some (sg_lyrics s) -> 3 <= S p -> fs w !! dir = Some Dir) ->
  songs_WI (<[j := S p]> pos) w'.
Proof.
  intros Hs Hp HW Hc' Hfs Hstate Hmade'.
  pose proof HW as (Hc & Hd & Hmade & Hfiles & Hrest).
  apply (songs_WI_update pos w j s p w' Hs Hp HW Hc'); rewrite Hfs.
  - by left.
  - done.
  - rewrite Hstate. by apply (Hfiles j).
  - done.
Qed.

Lemma songs_WI_enabled (pos : list nat) w j ch p a :
  Forall served songs ->
  length pos = length (song_child <$> songs) ->
  (song_child <$> songs) !! j = Some ch -> pos !! j = Some p ->
  c_script ch !! p = Some a ->
  songs_WI pos w ->
  enabled a w /\ songs_WI (<[j := S p]> pos) (effect a w).
Proof.
  intros Hserved Hlen Hch Hp Ha HW.
  rewrite list_lookup_fmap in Hch.
  destruct (songs !! j) as [s|] eqn:Hs; [|done]. simpl in Hch. injection Hch as <-.
  assert (Hin : s ∈ songs) by by eapply list_elem_of_lookup_2.
  pose proof (proj1 (Forall_forall _ _) Hserved s Hin) as (Hget & Htext & _).
  pose proof HW as (Hc & Hd & Hmade & Hfiles & Hrest).
  pose proof (Hfiles j s p Hs Hp) as Hfile.
  simpl in Ha. unfold song_script in Ha.
  destruct p as [|[|p]]; simpl in Ha.
  - (* the GET *)
    injection Ha as <-. simpl. rewrite Hc. split; [done|].
    apply (songs_WI_same_fs pos w j s 0 _ Hs Hp HW); simpl; [done|done| |lia].
    unfold file_state. by destruct (sg_lyrics s).
  - (* the read *)
    injection Ha as <-. simpl. split; [done|].
    apply (songs_WI_same_fs pos w j s 1 _ Hs Hp HW); simpl; [done|done| |lia].
    unfold file_state. by destruct (sg_lyrics s).
  - unfold file_state in Hfile.
    destruct (sg_lyrics s) as [text|] eqn:Hly; [|by destruct p].
    destruct p as [|[|[|[|p]]]]; simpl in Ha; [| | | |done].
    + (* makedirs *)
      injection Ha as <-. simpl. rewrite (paths_in_dir s Hin), (makedirs_dir _ Hd).
      simpl. split; [done|].
      apply (songs_WI_update pos w j s 2 _ Hs Hp HW); simpl.
      * done.
      * right. apply lookup_insert_eq.
      * intros _ _. apply lookup_insert_eq.
      * rewrite lookup_insert_ne by (intros Heq; by apply (paths_not_dir s)).
        rewrite Hfile. unfold file_state. by rewrite Hly.
      * intros q Hq _. by rewrite lookup_insert_ne.
    + (* open *)
      injection Ha as <-. simpl.
      assert (Hdir : fs w !! dir = Some Dir).
      { apply (Hmade j s 3); [done|done|by rewrite Hly|lia]. }
      rewrite (open_in_dir s (fs w) Hin Hdir) by (simpl in Hfile; by rewrite Hfile).
      simpl. split; [done|].
      apply (songs_WI_update pos w j s 3 _ Hs Hp HW); simpl.
      * done.
      * left. rewrite lookup_insert_ne; [done|]. by apply paths_not_dir.
      * intros _ _. rewrite lookup_insert_ne; [done|]. by apply paths_not_dir.
      * rewrite lookup_insert_eq. unfold file_state. by rewrite Hly.
      * intros q _ Hq. by rewrite lookup_insert_ne.
    + (* write *)
      injection Ha as <-. simpl. split; [done|].
      assert (Hdir : fs w !! dir = Some Dir).
      { apply (Hmade j s 4); [done|done|by rewrite Hly|lia]. }
      apply (songs_WI_update pos w j s 4 _ Hs Hp HW); simpl; unfold os.write_file.
      * done.
      * left. rewrite lookup_insert_ne; [done|]. by apply paths_not_dir.
      * intros _ _. rewrite lookup_insert_ne; [done|]. by apply paths_not_dir.
      * rewrite lookup_insert_eq. unfold file_state. by rewrite Hly.
      * intros q _ Hq. by rewrite lookup_insert_ne.
    + (* the notice *)
      injection Ha as <-. simpl. split; [done|].
      apply (songs_WI_same_fs pos w j s 5 _ Hs Hp HW); simpl; [done|done| |].
      * unfold file_state. by rewrite Hly.
      * intros _ _. apply (Hmade j s 5); [done|done|by rewrite Hly|lia].
Qed.

Lemma songs_WI_finish (pos : list nat) w j ch p :
  length pos = length (song_child <$> songs) ->
  (song_child <$> songs) !! j = Some ch -> pos !! j = Some p ->
  p = length (c_script ch) ->
  songs_WI pos w -> songs_WI (<[j := S p]> pos) w.
Proof.
  intros Hlen Hch Hp Hpl HW.
  rewrite list_lookup_fmap in Hch.
  destruct (songs !! j) as [s|] eqn:Hs; [|done]. simpl in Hch. injection Hch as <-.
  pose proof HW as (Hc & Hd & Hmade & Hfiles & Hrest).
  simpl in Hpl. unfold song_script in Hpl.
  apply (songs_WI_same_fs pos w j s p _ Hs Hp HW); [done|done| |].
  - unfold file_state. destruct (sg_lyrics s); [|done]. by subst p.
  - intros Hgood _. apply (Hmade j s p); [done|done|done|].
    destruct Hgood as [text Hly]. rewrite Hly in Hpl. subst p. simpl. lia.
Qed.

Lemma songs_WI_parent w a :
  listing ->
  a ∈ album_script -> songs_WI (pos0 (song_child <$> songs)) w ->
  enabled a w /\ songs_WI (pos0 (song_child <$> songs)) (effect a w).
Proof.
  intros (Hget & Htext & _) Ha HW.
  pose proof HW as (Hc & Hrest).
  unfold album_script in Ha.
  apply elem_of_cons in Ha as [->|Ha]; [|apply list_elem_of_singleton in Ha as ->].
  - simpl. rewrite Hc. split; [done|]. by split.
  - simpl. split; [done|]. by split.
Qed.

(** A world in which nothing has been written yet. *)
Lemma songs_WI_start w :
  closed w = false -> fs w = ∅ -> songs_WI (pos0 (song_child <$> songs)) w.
Proof.
  intros Hc Hfs. split; [done|]. rewrite Hfs. split; [by left|]. split; [|split].
  - intros j s p _ Hp _ Hge. unfold pos0 in Hp.
    apply lookup_replicate in Hp as [-> _]. lia.
  - intros j s p _ Hp. unfold pos0 in Hp.
    apply lookup_replicate in Hp as [-> _].
    rewrite lookup_empty. unfold file_state. by destruct (sg_lyrics s).
  - intros q _ _. apply lookup_empty.
Qed.

(** *** The run of the album task *)

Hypothesis is_listed : listing.
Hypothesis all_served : Forall served songs.
Hypothesis some_song : songs <> [].

Lemma song_tasks_follow :
  Forall2 (fun ch c => follows (c_script ch) (ends_with (c_final ch)) c)
          (song_child <$> songs) (map song_task songs).
Proof.
  clear -all_served. induction songs as [|s songs' IH]; [constructor|].
  apply Forall_cons in all_served as [Hs Hrest].
  constructor; [by apply song_follows|by apply IH].
Qed.

Lemma album_start w0 :
  closed w0 = false -> fs w0 = ∅ ->
  pre_inv (song_child <$> songs) songs_WI album_script (map song_task songs) 0
          (start album_task w0).
Proof.
  intros Hc Hfs. split; [lia|]. exists album_task. split; [done|].
  split; [by apply album_follows|by apply songs_WI_start].
Qed.

Lemma song_tasks_nonempty : map song_task songs <> [].
Proof. clear -some_song. by destruct songs. Qed.

(** Every completed run, whatever its schedule. *)
Lemma album_run_partial w0 sched r l' :
  closed w0 = false -> fs w0 = ∅ ->
  run_until_complete sched (start album_task w0) = (Some r, l') ->
  exists pos,
    group_inv (song_child <$> songs) songs_WI pos l' /\
    outcome_ok (song_child <$> songs) pos r /\
    songs_WI pos (world l').
Proof.
  intros Hc Hfs Hrun.
  apply (crawl_partial (song_child <$> songs) songs_WI
           (fun pos w j ch p a => songs_WI_enabled pos w j ch p a all_served)
           songs_WI_finish album_script (map song_task songs)
           song_tasks_follow song_tasks_nonempty
           (fun w a => songs_WI_parent w a is_listed)
           (start album_task w0) sched r l'); [|done].
  by apply album_start.
Qed.

Lemma song_script_length s : S (length (c_script (song_child s))) <= 7.
Proof. simpl. unfold song_script. destruct (sg_lyrics s); simpl; lia. Qed.

(** Schedules that complete the run: three turns for the album task, then
    seven for every song, then one more for the album task. *)
Lemma album_run_total w0 s0 s2 rest :
  closed w0 = false -> fs w0 = ∅ ->
  3 <= occurrences 0 s0 ->
  (forall j, j < length songs -> 7 <= occurrences (S j) s2) ->
  exists r l',
    run_until_complete (s0 ++ s2 ++ 0 :: rest) (start album_task w0) = (Some r, l').
Proof.
  intros Hc Hfs Hocc0 Hocc2.
  apply (crawl_total (song_child <$> songs) songs_WI
           (fun pos w j ch p a => songs_WI_enabled pos w j ch p a all_served)
           songs_WI_finish album_script (map song_task songs)
           song_tasks_follow song_tasks_nonempty
           (fun w a => songs_WI_parent w a is_listed)).
  - by apply album_start.
  - simpl. lia.
  - intros j ch Hch. rewrite list_lookup_fmap in Hch.
    destruct (songs !! j) as [s|] eqn:Hs; [|done]. simpl in Hch. injection Hch as <-.
    pose proof (song_script_length s). apply lookup_lt_Some in Hs.
    specialize (Hocc2 j Hs). lia.
Qed.

(** The outcome of a completed run: a failure is that of a song without the
    lyric block; success means every song has been written. *)
Lemma album_run_outcome w0 sched r l' :
  closed w0 = false -> fs w0 = ∅ ->
  run_until_complete sched (start album_task w0) = (Some r, l') ->
  match r with
  | Some e => e = NoneType_has_no "get_text" /\
              exists s, s ∈ songs /\ sg_lyrics s = None
  | None => forall s, s ∈ songs ->
              exists text, sg_lyrics s = Some text /\
                           fs (world l') !! sg_path s = Some (File text)
  end.
Proof.
  intros Hc Hfs Hrun.
  destruct (album_run_partial w0 sched r l' Hc Hfs Hrun) as (pos & Hinv & Hout & HW).
  destruct Hinv as [Hlen _]. rewrite length_fmap in Hlen.
  destruct r as [e|]; simpl in Hout.
  - destruct Hout as (j & ch & p & Hch & Hp & Hrun' & Hfin).
    rewrite list_lookup_fmap in Hch.
    destruct (songs !! j) as [s|] eqn:Hs; [|done]. simpl in Hch. injection Hch as <-.
    simpl in Hfin. unfold song_final in Hfin.
    destruct (sg_lyrics s) eqn:Hly; [done|]. injection Hfin as <-.
    split; [done|]. exists s. split; [by eapply list_elem_of_lookup_2|done].
  - intros s Hin. apply list_elem_of_lookup_1 in Hin as [j Hs].
    destruct (lookup_lt_is_Some_2 pos j) as [p Hp].
    { apply lookup_lt_Some in Hs. lia. }
    destruct (Hout j (song_child s) p) as [Hrun' Hfin];
      [by rewrite list_lookup_fmap, Hs|done|].
    simpl in Hfin. unfold song_final in Hfin.
    destruct (sg_lyrics s) as [text|] eqn:Hly; [|done].
    exists text. split; [done|].
    destruct HW as (_ & _ & _ & Hfiles & _).
    rewrite (Hfiles j s p Hs Hp). unfold file_state. rewrite Hly.
    unfold running in Hrun'. apply bool_decide_eq_false in Hrun'.
    simpl in Hrun'. unfold song_script in Hrun'. rewrite Hly in Hrun'. simpl in Hrun'.
    destruct p as [|[|[|[|[|p]]]]]; try lia. done.
Qed.

(** The file system of a completed run: the directory, if made, and for each
    song nothing, the empty file just opened, or the whole text; a song task
    that has finished has its text on disk. *)
Lemma album_run_files w0 sched r l' :
  closed w0 = false -> fs w0 = ∅ ->
  run_until_complete sched (start album_task w0) = (Some r, l') ->
  (fs (world l') !! dir = None \/ fs (world l') !! dir = Some Dir) /\
  (forall q, q <> dir -> (forall s, s ∈ songs -> sg_path s <> q) ->
             fs (world l') !! q = None) /\
  (forall j s, songs !! j = Some s ->
     match sg_lyrics s with
     | None => fs (world l') !! sg_path s = None
     | Some text =>
         (fs (world l') !! sg_path s = None \/
          fs (world l') !! sg_path s = Some (File EmptyString) \/
          fs (world l') !! sg_path s = Some (File text)) /\
         (fs (world l') !! sg_path s <> None -> fs (world l') !! dir = Some Dir) /\
         (state <$> tasks l' !! S j = Some (Finished None) ->
          fs (world l') !! sg_path s = Some (File text))
     end).
Proof.
  intros Hc Hfs Hrun.
  destruct (album_run_partial w0 sched r l' Hc Hfs Hrun) as (pos & Hinv & Hout & HW).
  destruct Hinv as (Hlen & pst & cts & Htasks & Hpar & Hclen & Hch & _).
  rewrite length_fmap in Hlen.
  pose proof HW as (_ & Hd & Hmade & Hfiles & Hrest).
  split; [done|]. split; [done|].
  intros j s Hs.
  destruct (lookup_lt_is_Some_2 pos j) as [p Hp].
  { apply lookup_lt_Some in Hs. lia. }
  rewrite (Hfiles j s p Hs Hp). unfold file_state.
  destruct (sg_lyrics s) as [text|] eqn:Hly; [|done].
  split; [|split].
  - destruct (Nat.leb p 3); [by left|]. destruct (Nat.eqb p 4); [right; by left|].
    right. by right.
  - intros Hsome. apply (Hmade j s p Hs Hp); [by rewrite Hly|].
    destruct (Nat.leb p 3) eqn:E; [done|]. apply Nat.leb_gt in E. lia.
  - intros Hfin. rewrite Htasks in Hfin. simpl in Hfin.
    destruct (cts !! j) as [t|] eqn:Ht; [|done]. simpl in Hfin.
    destruct (Hch j (song_child s) p t) as [_ Hst];
      [by rewrite list_lookup_fmap, Hs|done|done|].
    destruct (running (song_child s) p) eqn:Hr.
    + destruct Hst as (c & Hst & _). congruence.
    + unfold running in Hr. apply bool_decide_eq_false in Hr.
      simpl in Hr. unfold song_script in Hr. rewrite Hly in Hr. simpl in Hr.
      destruct p as [|[|[|[|[|p]]]]]; try lia. done.
Qed.

(** *** The requests and the writes of a run *)










End album_crawl.

(** ** The album of the songs A, B and C, written under [out] *)

Lemma makedirs_out (m : gmap string entry) :
  m !! "out" = None \/ m !! "out" = Some Dir ->
  os.makedirs "out" m = inr (<["out" := Dir]> m).
Proof.
  intros H. unfold os.makedirs. cbn [String.length os.makedirs_rec].
  change (posixpath.split "out") with (EmptyString, "out").
  cbn [Str.is_empty negb andb].
  unfold os.mkdir, os.exists_, os.isdir, os.parent_check.
  change (posixpath.dirname "out") with EmptyString.
  cbn [Str.is_empty negb andb orb].
  change (String.eqb "out" os.curdir) with false.
  change (Str.all_char posixpath.sep "out") with false.
  cbn [orb].
  destruct H as [-> | Hd].
  - done.
  - rewrite Hd. cbn. by rewrite insert_id.
Qed.

Lemma not_dir_cases (m : gmap string entry) (p : string) :
  m !! p <> Some Dir ->
  match m !! p with Some Dir => true | _ => false end = false.
Proof. by destruct (m !! p) as [[|c]|]. Qed.

Definition abc_songs (ra rb rc : ClientResponse) (pa pb pc : string)
    (la lb lc : option string) : list song :=
  [mkSong "A" "/a" ra pa la; mkSong "B" "/b" rb pb lb; mkSong "C" "/c" rc pc lc].

Section abc.

Context (ra rb rc : ClientResponse) (pa pb pc : string) (la lb lc : option string).

Let songs := abc_songs ra rb rc pa pb pc la lb lc.

Lemma abc_cases (s : song) :
  s ∈ songs -> sg_path "out" s = "out/A.txt" \/ sg_path "out" s = "out/B.txt"
               \/ sg_path "out" s = "out/C.txt".
Proof.
  unfold songs, abc_songs. intros H.
  apply elem_of_cons in H as [->|H]; [by left|].
  apply elem_of_cons in H as [->|H]; [right; by left|].
  apply list_elem_of_singleton in H as ->. right. by right.
Qed.

Lemma abc_paths_in_dir s : s ∈ songs -> posixpath.dirname (sg_path "out" s) = "out".
Proof. intros H. by destruct (abc_cases s H) as [-> | [-> | ->]]. Qed.

Lemma abc_paths_distinct : NoDup (sg_path "out" <$> songs).
Proof.
  unfold songs, abc_songs. apply (bool_decide_unpack _). by vm_compute.
Qed.

Lemma abc_paths_not_dir s : s ∈ songs -> sg_path "out" s <> "out".
Proof. intros H. by destruct (abc_cases s H) as [-> | [-> | ->]]. Qed.

Lemma abc_open s (m : gmap string entry) :
  s ∈ songs -> m !! "out" = Some Dir -> m !! sg_path "out" s <> Some Dir ->
  os.open_w (sg_path "out" s) m = inr (<[sg_path "out" s := File EmptyString]> m).
Proof.
  intros H Hd Hp.
  destruct (abc_cases s H) as [Heq | [Heq | Heq]]; rewrite Heq in *;
    unfold os.open_w, os.isdir, os.parent_check;
    rewrite (not_dir_cases _ _ Hp);
    [change (posixpath.dirname "out/A.txt") with "out"
    |change (posixpath.dirname "out/B.txt") with "out"
    |change (posixpath.dirname "out/C.txt") with "out"];
    unfold os.isdir; rewrite Hd; reflexivity.
Qed.

Context (fuel : nat) (BeautifulSoup : string -> node) (session : ClientSession).
Context (album : string) (album_response : ClientResponse) (album_page : string).
Context (tbody : node).

Hypothesis abc_listed :
  listed BeautifulSoup session album album_response album_page tbody songs.
Hypothesis abc_served : Forall (served BeautifulSoup session) songs.

Let crawl := get_lyrics_com_album (S fuel) BeautifulSoup session album "out".

Lemma abc_nonempty : songs <> [].
Proof. done. Qed.

Lemma abc_outcome w0 sched r l' :
  closed w0 = false -> fs w0 = ∅ ->
  run_until_complete sched (start crawl w0) = (Some r, l') ->
  match r with
  | Some e => e = NoneType_has_no "get_text" /\
              exists s, s ∈ songs /\ sg_lyrics s = None
  | None => forall s, s ∈ songs ->
              exists text, sg_lyrics s = Some text /\
                           fs (world l') !! sg_path "out" s = Some (File text)
  end.
Proof.
  apply (album_run_outcome fuel BeautifulSoup session album "out" album_response
           album_page tbody songs "out" abc_paths_in_dir abc_paths_distinct
           abc_paths_not_dir makedirs_out abc_open
           (listed_listing _ _ _ _ _ _ _ abc_listed) abc_served abc_nonempty).
Qed.

Lemma abc_files w0 sched r l' :
  closed w0 = false -> fs w0 = ∅ ->
  run_until_complete sched (start crawl w0) = (Some r, l') ->
  (fs (world l') !! "out" = None \/ fs (world l') !! "out" = Some Dir) /\
  (forall q, q <> "out" -> (forall s, s ∈ songs -> sg_path "out" s <> q) ->
             fs (world l') !! q = None) /\
  (forall j s, songs !! j = Some s ->
     match sg_lyrics s with
     | None => fs (world l') !! sg_path "out" s = None
     | Some text =>
         (fs (world l') !! sg_path "out" s = None \/
          fs (world l') !! sg_path "out" s = Some (File EmptyString) \/
          fs (world l') !! sg_path "out" s = Some (File text)) /\
         (fs (world l') !! sg_path "out" s <> None -> fs (world l') !! "out" = Some Dir) /\
         (state <$> tasks l' !! S j = Some (Finished None) ->
          fs (world l') !! sg_path "out" s = Some (File text))
     end).
Proof.
  apply (album_run_files fuel BeautifulSoup session album "out" album_response
           album_page tbody songs "out" abc_paths_in_dir abc_paths_distinct
           abc_paths_not_dir makedirs_out abc_open
           (listed_listing _ _ _ _ _ _ _ abc_listed) abc_served abc_nonempty).
Qed.

Lemma abc_total w0 s0 s2 rest :
  closed w0 = false -> fs w0 = ∅ ->
  3 <= occurrences 0 s0 ->
  (forall j, j < 3 -> 7 <= occurrences (S j) s2) ->
  exists r l', run_until_complete (s0 ++ s2 ++ 0 :: rest) (start crawl w0) = (Some r, l').
Proof.
  apply (album_run_total fuel BeautifulSoup session album "out" album_response
           album_page tbody songs "out" abc_paths_in_dir abc_paths_distinct
           abc_paths_not_dir makedirs_out abc_open
           (listed_listing _ _ _ _ _ _ _ abc_listed) abc_served abc_nonempty).
Qed.

End abc.

(** * The properties of the specification *)

(** C2, as stated, fails: not every connection reset is retried.  The test
    of the loop reads the message for the characters 54, the number the
    error has on macOS; the reset as Linux numbers it, 104, fails it: with a
    body that is reset once and then readable, [fetch] raises the reset
    after the first read, without a sleep, and the text is never read. *)
Lemma connection_reset_104_is_not_retried :
  let url := "http://lyrics.com/lyric/1/Dominion" in
  let session := one_page_session url
                   (flaky_response 1 reset_errno_104 "<pre>Dominion reigns</pre>") in
  exec (fetch 2 session url) empty_world
  = (Raised reset_errno_104, extend [EvGet url; EvRead 0] empty_world)
  /\ sleeps_of (log (exec (fetch 2 session url) empty_world).2) = []
  /\ exn_cls reset_errno_104 = ClientOSError
  /\ exn_str reset_errno_104 = "[Errno 104] Connection reset by peer"
  /\ retryable reset_errno_104 = false.
Proof. vm_compute. repeat split; reflexivity. Qed.

(** C2, amended: the retried errors are those the test of the loop accepts,
    a [ClientOSError] whose message contains 54 ([retryable]).  For every N,
    if reading the body fails N times with such an error and then succeeds,
    [fetch] returns the text that was read and has slept exactly N times, 5
    each time; no N is too large, the only bound being the unrolling bound
    of the model, which must exceed N. *)
Theorem fetch_retry_convergence (N fuel : nat) (session : ClientSession) (url : string)
    (response : ClientResponse) (text : string) (w : World) :
  closed w = false ->
  session url = inr response ->
  (forall k, k < N -> exists err, response k = inl err /\ retryable err = true) ->
  response N = inr text ->
  N < fuel ->
  exists w',
    exec (fetch fuel session url) w = (Returned text, w') /\
    log w' = log w ++ EvGet url :: retry_events 0 N ++ [EvRead N] /\
    sleeps_of (log w') = sleeps_of (log w) ++ repeat 5%Z N /\
    fs w' = fs w.
Proof.
  intros Hc Hs Hfail Hok Hfuel.
  rewrite (exec_fetch _ _ _ response) by done.
  rewrite (exec_fetch_loop_converges response N fuel 0 text) by done.
  eexists; split; [reflexivity|]. simpl. split; [|split; [|done]].
  - by rewrite <- app_assoc.
  - rewrite <- app_assoc, !sleeps_of_app, sleeps_of_retry_events. simpl.
    by rewrite app_nil_r.
Qed.

Lemma fetch_retry_convergence_witness :
  exists w',
    exec (fetch 3 (one_page_session "http://lyrics.com/lyric/1/Dominion"
                     (flaky_response 2 connection_reset "<pre>Dominion reigns</pre>"))
            "http://lyrics.com/lyric/1/Dominion") empty_world
    = (Returned "<pre>Dominion reigns</pre>", w') /\
    log w' = log empty_world ++
             EvGet "http://lyrics.com/lyric/1/Dominion" :: retry_events 0 2 ++ [EvRead 2] /\
    sleeps_of (log w') = sleeps_of (log empty_world) ++ repeat 5%Z 2 /\
    fs w' = fs empty_world.
Proof.
  apply (fetch_retry_convergence 2 3 _ _
           (flaky_response 2 connection_reset "<pre>Dominion reigns</pre>")).
  - reflexivity.
  - reflexivity.
  - intros k Hk. exists connection_reset.
    destruct k as [|[|k]]; [split; reflexivity|split; reflexivity|lia].
  - reflexivity.
  - lia.
Defined.

(** C3, as stated, fails: an error that is no connection reset is retried
    when its message happens to contain 54.  With a body whose first read
    fails on a refused connection to port 5400 and whose second read
    succeeds, [fetch] prints the notice, sleeps 5, reads again and returns
    the text. *)
Lemma refused_connection_is_retried :
  let url := "http://lyrics.com/a" in
  exec (fetch 2 (one_page_session url refusing_page) url) empty_world
  = (Returned "page",
     extend [EvGet url; EvRead 0; EvPrint "connection reset, backing off"; EvSleep 5;
             EvRead 1] empty_world)
  /\ refusing_page 0 = inl refused_on_port_5400
  /\ exn_errno refused_on_port_5400 = Some 61%Z
  /\ exn_str refused_on_port_5400 = "[Errno 61] Connect call failed ('10.0.0.1', 5400)"
  /\ retryable refused_on_port_5400 = true.
Proof. vm_compute. repeat split; reflexivity. Qed.

(** C3, amended: if the first read of the body fails with an error that the
    test of the loop rejects (it is no [ClientOSError], or its message does
    not contain 54), [fetch] raises that error at once: the log gains the
    GET and the one read, no sleep and no second read. *)
Theorem fetch_non_transient_passthrough (fuel : nat) (session : ClientSession)
    (url : string) (response : ClientResponse) (err : exn) (w : World) :
  closed w = false ->
  session url = inr response ->
  response 0 = inl err ->
  retryable err = false ->
  0 < fuel ->
  exists w',
    exec (fetch fuel session url) w = (Raised err, w') /\
    log w' = log w ++ [EvGet url; EvRead 0] /\
    sleeps_of (log w') = sleeps_of (log w) /\
    reads_of (log w') = reads_of (log w) ++ [0] /\
    fs w' = fs w.
Proof.
  intros Hc Hs Herr Hr Hfuel.
  destruct fuel as [|fuel]; [lia|].
  rewrite (exec_fetch _ _ _ response) by done.
  rewrite (exec_fetch_loop_raise response fuel 0 err) by done.
  eexists; split; [reflexivity|]. simpl.
  rewrite <- app_assoc. simpl. split; [done|].
  unfold sleeps_of, reads_of. rewrite !omap_app. simpl.
  by rewrite app_nil_r.
Qed.

Lemma fetch_non_transient_passthrough_witness :
  exists w',
    exec (fetch 1 (one_page_session "http://lyrics.com/a"
                     (flaky_response 1 payload_error "never read"))
            "http://lyrics.com/a") empty_world
    = (Raised payload_error, w') /\
    log w' = log empty_world ++ [EvGet "http://lyrics.com/a"; EvRead 0] /\
    sleeps_of (log w') = sleeps_of (log empty_world) /\
    reads_of (log w') = reads_of (log empty_world) ++ [0] /\
    fs w' = fs empty_world.
Proof.
  apply (fetch_non_transient_passthrough 1 _ _
           (flaky_response 1 payload_error "never read"));
    [reflexivity|reflexivity|reflexivity|reflexivity|lia].
Defined.



(** C10: for a path whose directory part is empty (such as a bare file name)
    [write] raises on [makedirs] of the empty string, before any file is
    opened and without touching the file system; so [write] returns only for
    paths with a non-empty directory part, although opening the bare name
    itself would have worked. *)
Theorem write_bare_filename_raises (path contents : string) (w : World) :
  posixpath.dirname path = EmptyString ->
  exec (write path contents) w =
    (Raised (ENOENT EmptyString), extend [EvMakedirs EmptyString] w)
  /\ (forall p, Str.contains "/" p = false -> posixpath.dirname p = EmptyString)
  /\ (forall p c w0 w', exec (write p c) w0 = (Returned tt, w') ->
                        posixpath.dirname p <> EmptyString)
  /\ (path <> EmptyString -> Str.contains "/" path = false ->
      os.isdir (fs w) path = false ->
      os.open_w path (fs w) = inr (<[path := File EmptyString]> (fs w))).
Proof.
  intros Hd. split; [by apply exec_write_bare|]. split; [apply dirname_bare|]. split.
  - intros p c w0 w' Hex Hp. by rewrite exec_write_bare in Hex.
  - intros Hne Hbare Hdir. unfold os.open_w, os.parent_check.
    rewrite Hdir, (endswith_bare _ Hbare), Hd. simpl.
    by destruct path.
Qed.

Lemma write_bare_filename_raises_witness :
  exec (write "S.txt" "Dominion reigns") empty_world =
    (Raised (ENOENT EmptyString), extend [EvMakedirs EmptyString] empty_world)
  /\ (forall p, Str.contains "/" p = false -> posixpath.dirname p = EmptyString)
  /\ (forall p c w0 w', exec (write p c) w0 = (Returned tt, w') ->
                        posixpath.dirname p <> EmptyString)
  /\ ("S.txt" <> EmptyString -> Str.contains "/" "S.txt" = false ->
      os.isdir (fs empty_world) "S.txt" = false ->
      os.open_w "S.txt" (fs empty_world) =
      inr (<["S.txt" := File EmptyString]> (fs empty_world))).
Proof.
  apply (write_bare_filename_raises "S.txt" "Dominion reigns" empty_world).
  reflexivity.
Defined.

(** C7: if [get_lyrics_com_song] raises (the fetch fails, or the lyric block
    is missing), [get_and_write_lyrics_com_song] raises the same error without
    a file operation: the file system is as before.  Whatever the outcome,
    every write it performs is to [directory/song_name.txt], carries the whole
    text [get_lyrics_com_song] returned, and there is at most one. *)
Theorem failed_song_writes_nothing (fuel : nat) (BeautifulSoup : string -> node)
    (session : ClientSession) (directory song_name : string)
    (song_fragment : option string) (w : World) :
  let song := get_and_write_lyrics_com_song fuel BeautifulSoup session directory
                song_name song_fragment in
  let text_of := get_lyrics_com_song fuel BeautifulSoup session song_fragment in
  (forall e w', exec text_of w = (Raised e, w') ->
     exec song w = (Raised e, w') /\ fs w' = fs w /\
     file_events (log w') = file_events (log w))
  /\ (exists evs,
        file_events (log (exec song w).2) = file_events (log w) ++ evs /\
        (forall p c, EvWrite p c ∈ evs ->
           p = posixpath.join directory (song_name +:+ ".txt") /\
           exists w1, exec text_of w = (Returned c, w1) /\ fs w1 = fs w) /\
        length (List.filter (fun ev => match ev with EvWrite _ _ => true | _ => false end)
                  evs) <= 1).
Proof.
  intros song text_of. subst song text_of.
  pose proof (exec_file_free _ w
                (get_lyrics_com_song_file_free fuel BeautifulSoup session song_fragment))
    as [Hfs Hlog].
  rewrite exec_get_and_write.
  destruct (exec (get_lyrics_com_song fuel BeautifulSoup session song_fragment) w)
    as [[text|e| |aws k] w1] eqn:E; cbn [then_exec fst snd] in *.
  - split; [done|].
    rewrite exec_mbind, exec_write. cbn zeta.
    destruct (os.makedirs _ _) as [e|fs1]; simpl.
    { eexists [_]. rewrite file_events_app, Hlog. simpl.
      split; [reflexivity|]. split; [|simpl; lia].
      intros p c Hin. apply list_elem_of_singleton in Hin. done. }
    destruct (os.open_w _ _) as [e|fs2]; simpl.
    { eexists [_; _]. rewrite file_events_app. simpl. rewrite Hlog. 
      split; [reflexivity|]. split; [|simpl; lia].
      intros p c Hin. apply elem_of_cons in Hin as [|Hin]; [done|].
      apply list_elem_of_singleton in Hin. done. }
    eexists [_; _; _]. rewrite !file_events_app. simpl. rewrite Hlog, app_nil_r.
    split; [reflexivity|]. split; [|simpl; lia].
    intros p c Hin. apply elem_of_cons in Hin as [|Hin]; [done|].
    apply elem_of_cons in Hin as [|Hin]; [done|].
    apply list_elem_of_singleton in Hin. injection Hin as -> ->.
    split; [done|]. by exists w1.
  - split; [by intros e' w' [= -> ->]|].
    exists []. rewrite app_nil_r. split; [done|]. split; [|simpl; lia].
    intros p c Hin. by apply elem_of_nil in Hin.
  - split; [done|].
    exists []. rewrite app_nil_r. split; [done|]. split; [|simpl; lia].
    intros p c Hin. by apply elem_of_nil in Hin.
  - split; [done|].
    exists []. rewrite app_nil_r. split; [done|]. split; [|simpl; lia].
    intros p c Hin. by apply elem_of_nil in Hin.
Qed.

Example missing_lyric_block_writes_nothing :
  exec (get_and_write_lyrics_com_song 1 abc_parser_without_B abc_session "out" "B"
          (Some "/b")) empty_world
  = (Raised (NoneType_has_no "get_text"),
     extend [EvGet "http://lyrics.com/b"; EvRead 0] empty_world).
Proof. reflexivity. Qed.

Example unreachable_song_writes_nothing :
  exec (get_and_write_lyrics_com_song 1 abc_parser abc_session "out" "D"
          (Some "/d")) empty_world
  = (Raised (mkExn ClientConnectorError None "Cannot connect to host http://lyrics.com/d"),
     extend [EvGet "http://lyrics.com/d"] empty_world).
Proof. reflexivity. Qed.

(** C6, as stated, fails: an album block without a link is not skipped, it
    makes [get_lyrics_com_albums_for_artist] raise [AttributeError] with no
    notice printed, and the crawl as a whole ends with that error; and a link
    without text yields an entry whose name is empty. *)
Lemma album_block_without_link_raises :
  exec (get_lyrics_com_albums_for_artist 1 unlinked_parser artist_session "X") empty_world
  = (Raised (NoneType_has_no "get_text"), artist_fetched)
  /\ (main 1 unlinked_parser artist_session "X" "out" [0; 0; 0; 0] empty_world).1
     = Some (Some (NoneType_has_no "get_text"))
  /\ exec (get_lyrics_com_albums_for_artist 1 nameless_parser artist_session "X") empty_world
     = (Returned [(EmptyString, "floodland-1")], artist_fetched).
Proof. repeat split; vm_compute; reflexivity. Qed.

(** C6, amended: on an artist page whose album blocks all carry a link (an
    [h3] holding an [a] with an [href]), [get_lyrics_com_albums_for_artist]
    raises nothing and prints nothing: it returns the dictionary of one
    assignment per block, the name being the text of the link, the value the
    last field of its [href].  Skipping with a notice is what the song loop
    does: a row whose second cell holds no [strong] is passed over with the
    notice and leaves the dictionary as it was. *)
Theorem album_list_of_linked_blocks (fuel : nat) (BeautifulSoup : string -> node)
    (client : ClientSession) (artist text : string) (w w1 : World) (body tdata : node) :
  exec (fetch fuel client ("http://lyrics.com/artist/" +:+ artist)) w = (Returned text, w1) ->
  bs4.find (BeautifulSoup text) "div" (IdIs "content-body") = Some body ->
  bs4.find body "div" (ClassIs "tdata-ext") = Some tdata ->
  Forall (fun div => is_Some (linked div))
         (bs4.find_all tdata "div" (ClassIs "clearfix")) ->
  exec (get_lyrics_com_albums_for_artist fuel BeautifulSoup client artist) w
  = (Returned (dict_of (omap linked (bs4.find_all tdata "div" (ClassIs "clearfix"))) []),
     w1)
  /\ (forall row n a c cs urls w0,
        bs4.contents row !! 1 = Some (Tag n a c cs) ->
        bs4.find (Tag n a c cs) "strong" AnyAttrs = None ->
        exec (song_row row urls) w0
        = (Returned urls,
           extend [EvPrint (no_lyrics_notice (bs4.get_text (Tag n a c cs)))] w0)).
Proof.
  intros Hfetch Hbody Htdata Hall. split.
  - unfold get_lyrics_com_albums_for_artist.
    rewrite exec_mbind, Hfetch. cbn [then_exec].
    rewrite exec_mbind, Hbody. cbn [not_none exec then_exec].
    rewrite exec_mbind, Htdata. cbn [not_none exec then_exec].
    by apply exec_album_divs_linked.
  - intros row n a c cs urls w0 Hcell Hstrong.
    rewrite song_row_spec. unfold classify_row. by rewrite Hcell, Hstrong.
Qed.

Lemma album_list_of_linked_blocks_witness :
  exec (get_lyrics_com_albums_for_artist 1 linked_parser artist_session "X") empty_world
  = (Returned (dict_of (omap linked
                 [album_block "Floodland" "/album/1/floodland-1";
                  album_block "Vision Thing" "/album/2/vision-thing-2"]) []),
     artist_fetched)
  /\ (forall row n a c cs urls w0,
        bs4.contents row !! 1 = Some (Tag n a c cs) ->
        bs4.find (Tag n a c cs) "strong" AnyAttrs = None ->
        exec (song_row row urls) w0
        = (Returned urls,
           extend [EvPrint (no_lyrics_notice (bs4.get_text (Tag n a c cs)))] w0)).
Proof.
  apply (album_list_of_linked_blocks 1 linked_parser artist_session "X" "artist page"
           empty_world artist_fetched
           (Tag "div" [("id", "content-body")] []
              [Tag "div" [] ["tdata-ext"]
                 [album_block "Floodland" "/album/1/floodland-1";
                  album_block "Vision Thing" "/album/2/vision-thing-2"]])
           (Tag "div" [] ["tdata-ext"]
              [album_block "Floodland" "/album/1/floodland-1";
               album_block "Vision Thing" "/album/2/vision-thing-2"])).
  - reflexivity.
  - reflexivity.
  - reflexivity.
  - repeat constructor; vm_compute; eexists; reflexivity.
Defined.

Example linked_blocks_dictionary :
  dict_of (omap linked
             [album_block "Floodland" "/album/1/floodland-1";
              album_block "Vision Thing" "/album/2/vision-thing-2"]) []
  = [("Floodland", "floodland-1"); ("Vision Thing", "vision-thing-2")].
Proof. reflexivity. Qed.

Example unlinked_song_row_is_skipped :
  exec (song_row (unlinked_tr "Untitled") [("Dominion", Some "/lyric/1/Dominion")])
    empty_world
  = (Returned [("Dominion", Some "/lyric/1/Dominion")],
     extend [EvPrint (no_lyrics_notice "Untitled")] empty_world).
Proof. reflexivity. Qed.

(** C4: with an album page listing A, B and C and song pages that are served
    and hold their lyric block, every run of [get_lyrics_com_album] that
    completes, whatever the schedule (hence whatever the order in which the
    songs complete), succeeds and leaves exactly the directory [out] and the
    files [out/A.txt], [out/B.txt], [out/C.txt] holding the lyrics of their
    pages; and the run does complete on every schedule that gives the album
    task three turns, then each song seven, then the album task one more. *)
Theorem album_fan_out_complete (fuel : nat) (BeautifulSoup : string -> node)
    (session : ClientSession) (album : string) (album_response : ClientResponse)
    (album_page : string) (tbody : node) (ra rb rc : ClientResponse)
    (pa pb pc ta tb tc : string) (w0 : World) :
  let songs := abc_songs ra rb rc pa pb pc (Some ta) (Some tb) (Some tc) in
  let crawl := get_lyrics_com_album (S fuel) BeautifulSoup session album "out" in
  listed BeautifulSoup session album album_response album_page tbody songs ->
  Forall (served BeautifulSoup session) songs ->
  closed w0 = false -> fs w0 = ∅ ->
  (forall sched r l',
      run_until_complete sched (start crawl w0) = (Some r, l') ->
      r = None /\
      fs (world l') = <["out" := Dir]> (<["out/A.txt" := File ta]>
                        (<["out/B.txt" := File tb]> (<["out/C.txt" := File tc]> ∅))))
  /\ (forall s0 s2 rest,
        3 <= occurrences 0 s0 ->
        (forall j, j < 3 -> 7 <= occurrences (S j) s2) ->
        exists l', run_until_complete (s0 ++ s2 ++ 0 :: rest) (start crawl w0)
                   = (Some None, l')).
Proof.
  intros songs crawl Hlisted Hserved Hc Hfs.
  assert (Hpartial : forall sched r l',
      run_until_complete sched (start crawl w0) = (Some r, l') ->
      r = None /\
      fs (world l') = <["out" := Dir]> (<["out/A.txt" := File ta]>
                        (<["out/B.txt" := File tb]> (<["out/C.txt" := File tc]> ∅)))).
  { intros sched r l' Hrun.
    pose proof (abc_outcome ra rb rc pa pb pc _ _ _ fuel BeautifulSoup session album
                  album_response album_page tbody Hlisted Hserved w0 sched r l'
                  Hc Hfs Hrun) as Hout.
    pose proof (abc_files ra rb rc pa pb pc _ _ _ fuel BeautifulSoup session album
                  album_response album_page tbody Hlisted Hserved w0 sched r l'
                  Hc Hfs Hrun) as (Hdir & Hrest & Hfiles).
    destruct r as [e|].
    { destruct Hout as (_ & s & Hin & Hly). exfalso.
      apply elem_of_cons in Hin as [->|Hin]; [done|].
      apply elem_of_cons in Hin as [->|Hin]; [done|].
      apply list_elem_of_singleton in Hin as ->. done. }
    split; [done|].
    destruct (Hout (mkSong "A" "/a" ra pa (Some ta))) as (? & [= <-] & HA);
      [apply list_elem_of_here|].
    destruct (Hout (mkSong "B" "/b" rb pb (Some tb))) as (? & [= <-] & HB);
      [apply list_elem_of_further, list_elem_of_here|].
    destruct (Hout (mkSong "C" "/c" rc pc (Some tc))) as (? & [= <-] & HC);
      [do 2 apply list_elem_of_further; apply list_elem_of_here|].
    change (sg_path "out" (mkSong "A" "/a" ra pa (Some ta))) with "out/A.txt" in HA.
    change (sg_path "out" (mkSong "B" "/b" rb pb (Some tb))) with "out/B.txt" in HB.
    change (sg_path "out" (mkSong "C" "/c" rc pc (Some tc))) with "out/C.txt" in HC.
    destruct (Hfiles 0 (mkSong "A" "/a" ra pa (Some ta)) eq_refl) as (_ & Hmade & _).
    change (sg_path "out" (mkSong "A" "/a" ra pa (Some ta))) with "out/A.txt" in Hmade.
    assert (Hout' : fs (world l') !! "out" = Some Dir) by (apply Hmade; by rewrite HA).
    apply map_eq. intros q.
    destruct (decide (q = "out")) as [->|Hq]; [by rewrite lookup_insert_eq|].
    rewrite lookup_insert_ne by done.
    destruct (decide (q = "out/A.txt")) as [->|HqA]; [by rewrite lookup_insert_eq|].
    rewrite lookup_insert_ne by done.
    destruct (decide (q = "out/B.txt")) as [->|HqB]; [by rewrite lookup_insert_eq|].
    rewrite lookup_insert_ne by done.
    destruct (decide (q = "out/C.txt")) as [->|HqC]; [by rewrite lookup_insert_eq|].
    rewrite lookup_insert_ne by done. rewrite lookup_empty.
    apply Hrest; [done|]. intros s Hin.
    destruct (abc_cases ra rb rc pa pb pc _ _ _ s Hin) as [-> | [-> | ->]]; done. }
  split; [done|].
  intros s0 s2 rest Hocc0 Hocc2.
  destruct (abc_total ra rb rc pa pb pc _ _ _ fuel BeautifulSoup session album
              album_response album_page tbody Hlisted Hserved w0 s0 s2 rest
              Hc Hfs Hocc0 Hocc2) as (r & l' & Hrun).
  exists l'. by destruct (Hpartial _ _ _ Hrun) as [-> _].
Qed.

Lemma album_fan_out_complete_witness :
  let crawl := get_lyrics_com_album 1 abc_parser abc_session "floodland-1" "out" in
  (forall sched r l',
      run_until_complete sched (start crawl empty_world) = (Some r, l') ->
      r = None /\
      fs (world l') = <["out" := Dir]> (<["out/A.txt" := File "lyrics of A"]>
                        (<["out/B.txt" := File "lyrics of B"]>
                           (<["out/C.txt" := File "lyrics of C"]> ∅))))
  /\ (forall s0 s2 rest,
        3 <= occurrences 0 s0 ->
        (forall j, j < 3 -> 7 <= occurrences (S j) s2) ->
        exists l', run_until_complete (s0 ++ s2 ++ 0 :: rest) (start crawl empty_world)
                   = (Some None, l')).
Proof.
  apply (album_fan_out_complete 0 abc_parser abc_session "floodland-1"
           (body_of "album page") "album page" abc_tbody
           (body_of "page of A") (body_of "page of B") (body_of "page of C")
           "page of A" "page of B" "page of C"
           "lyrics of A" "lyrics of B" "lyrics of C" empty_world).
  - repeat split; try reflexivity. apply (bool_decide_unpack _). by vm_compute.
  - repeat constructor; eexists; split; reflexivity.
  - reflexivity.
  - reflexivity.
Defined.

(** Three schedules of the mock site, completing the songs in different
    orders, all with the same files. *)
Example abc_in_order :
  (run_until_complete
     ([0; 0; 0] ++ (repeat 1 7 ++ repeat 2 7 ++ repeat 3 7) ++ [0])
     (start (get_lyrics_com_album 1 abc_parser abc_session "floodland-1" "out")
        empty_world)).1 = Some None.
Proof. vm_compute. reflexivity. Qed.

Example abc_reversed_interleaved :
  let l := (run_until_complete
     ([0; 0; 0] ++ concat (repeat [3; 2; 1] 7) ++ [0])
     (start (get_lyrics_com_album 1 abc_parser abc_session "floodland-1" "out")
        empty_world)) in
  l.1 = Some None /\
  fs (world l.2) !! "out/B.txt" = Some (File "lyrics of B").
Proof. vm_compute. split; reflexivity. Qed.






(** When A and C finish before the page of B is read, both files are there
    and the crawl still fails. *)
Example siblings_finished_first :
  let run := run_until_complete
               ([0; 0; 0] ++ (repeat 1 7 ++ repeat 3 7 ++ repeat 2 3) ++ [0])
               (start (get_lyrics_com_album 1 abc_parser_without_B abc_session
                         "floodland-1" "out") empty_world) in
  run.1 = Some (Some (NoneType_has_no "get_text")) /\
  fs (world run.2) = <["out" := Dir]> (<["out/A.txt" := File "lyrics of A"]>
                       (<["out/C.txt" := File "lyrics of C"]> ∅)).
Proof. vm_compute. split; reflexivity. Qed.

(** C5, as stated, fails: for artist X, album "Y Z" and song S the crawl into
    [out] writes [out/Y Z/S.txt]; nothing is written at [out/X/Y Z/S.txt],
    the artist identifier is no component of the path. *)
Lemma artist_is_not_a_path_component :
  let run := main 1 xyz_parser xyz_session "X" "out" xyz_schedule empty_world in
  run.1 = Some None /\
  writes_of (log (world run.2)) = [EvWrite "out/Y Z/S.txt" "lyrics of S"] /\
  fs (world run.2) !! "out/Y Z/S.txt" = Some (File "lyrics of S") /\
  fs (world run.2) !! "out/X/Y Z/S.txt" = None.
Proof. vm_compute. repeat split; reflexivity. Qed.

Lemma join_onto_directory (a b : string) :
  a <> EmptyString -> Str.endswith_char posixpath.sep a = false ->
  Str.startswith "/" b = false ->
  posixpath.join a b = a +:+ "/" +:+ b.
Proof.
  intros Ha Hend Hb. unfold posixpath.join. rewrite Hb, Hend.
  by destruct a.
Qed.

Lemma string_append_assoc (a b c : string) : (a +:+ b) +:+ c = a +:+ b +:+ c.
Proof.
  induction a as [|x a IH]; [done|].
  change (String x ((a +:+ b) +:+ c) = String x (a +:+ b +:+ c)). by rewrite IH.
Qed.

Lemma endswith_append_char (a : string) (c d : ascii) (b : string) :
  Str.endswith_char c (a +:+ String d b) = Str.endswith_char c (String d b).
Proof.
  induction a as [|x a IH]; [done|].
  change (String x a +:+ String d b) with (String x (a +:+ String d b)).
  cbn [Str.endswith_char]. destruct (a +:+ String d b) eqn:E; [|done].
  by destruct a.
Qed.

(** C5, amended: the album tasks are handed [join(outputdir, album name)] and
    each song task writes to [join(directory, song name + ".txt")] and nowhere
    else, so that for album "Y Z" and song S the file is
    [<output>/Y Z/S.txt] (for an output directory that is not empty and does
    not end in a slash), spaces kept as they are, whatever the artist
    identifier, which only enters the URL of the artist page; the crawl of
    artist X into [out] writes that one file. *)
Theorem song_path_is_output_album_song (fuel : nat) (BeautifulSoup : string -> node)
    (client : ClientSession) (outputdir : string) :
  (forall albums,
      album_awaitables fuel BeautifulSoup client outputdir albums
      = map (fun e => get_lyrics_com_album fuel BeautifulSoup client e.2
                        (posixpath.join outputdir e.1)) albums)
  /\ (forall directory song_name song_fragment w p c,
        EvWrite p c ∈ log (exec (get_and_write_lyrics_com_song fuel BeautifulSoup client
                                   directory song_name song_fragment) w).2 ->
        EvWrite p c ∈ log w \/
        p = posixpath.join directory (song_name +:+ ".txt"))
  /\ (outputdir <> EmptyString -> Str.endswith_char posixpath.sep outputdir = false ->
      posixpath.join (posixpath.join outputdir "Y Z") ("S" +:+ ".txt")
      = outputdir +:+ "/Y Z/S.txt")
  /\ (let run := main 1 xyz_parser xyz_session "X" "out" xyz_schedule empty_world in
      run.1 = Some None /\
      writes_of (log (world run.2)) = [EvWrite "out/Y Z/S.txt" "lyrics of S"] /\
      fs (world run.2)
      = <["out" := Dir]> (<["out/Y Z" := Dir]>
          (<["out/Y Z/S.txt" := File "lyrics of S"]> ∅))).
Proof.
  split; [|split; [|split]].
  - intros albums. unfold album_awaitables. apply map_ext. by intros [name album].
  - intros directory song_name song_fragment w p c Hin.
    rewrite exec_get_and_write in Hin.
    pose proof (exec_file_free _ w
                  (get_lyrics_com_song_file_free fuel BeautifulSoup client song_fragment))
      as [_ Hlog].
    assert (Hpre : forall w1, file_events (log w1) = file_events (log w) ->
                              EvWrite p c ∈ log w1 -> EvWrite p c ∈ log w).
    { intros w1 Heq Hin1.
      assert (Hf : EvWrite p c ∈ file_events (log w1)).
      { unfold file_events. apply list_elem_of_In, List.filter_In.
        split; [by apply list_elem_of_In|done]. }
      rewrite Heq in Hf. unfold file_events in Hf.
      apply list_elem_of_In, List.filter_In in Hf as [Hf _]. by apply list_elem_of_In. }
    destruct (exec (get_lyrics_com_song fuel BeautifulSoup client song_fragment) w)
      as [[text|e| |aws k] w1] eqn:E; cbn [then_exec fst snd] in *;
      try (left; by apply (Hpre w1)).
    rewrite exec_mbind, exec_write in Hin. cbn zeta in Hin.
    destruct (os.makedirs _ _) as [e|fs1]; simpl in Hin.
    { apply elem_of_app in Hin as [Hin|Hin]; [left; by apply (Hpre w1)|].
      apply list_elem_of_singleton in Hin. done. }
    destruct (os.open_w _ _) as [e|fs2]; simpl in Hin.
    { apply elem_of_app in Hin as [Hin|Hin]; [left; by apply (Hpre w1)|].
      apply elem_of_cons in Hin as [|Hin]; [done|].
      apply list_elem_of_singleton in Hin. done. }
    apply elem_of_app in Hin as [Hin|Hin].
    + apply elem_of_app in Hin as [Hin|Hin]; [left; by apply (Hpre w1)|].
      apply elem_of_cons in Hin as [|Hin]; [done|].
      apply elem_of_cons in Hin as [|Hin]; [done|].
      apply list_elem_of_singleton in Hin. injection Hin as -> _. by right.
    + apply list_elem_of_singleton in Hin. done.
  - intros Hne Hend.
    rewrite (join_onto_directory outputdir "Y Z") by done.
    rewrite join_onto_directory.
    + by rewrite !string_append_assoc.
    + by destruct outputdir.
    + change (outputdir +:+ "/" +:+ "Y Z") with (outputdir +:+ String "/" "Y Z").
      by rewrite endswith_append_char.
    + done.
  - vm_compute. repeat split; reflexivity.
Qed.


(** * Further properties of the code *)

(** ** [fetch] *)

(** [n] retryable failures from [attempt] on, then an error of another kind. *)
Lemma exec_fetch_loop_gives_up response n :
  forall fuel attempt err w,
    (forall k, k < n -> exists e, response (attempt + k) = inl e /\ retryable e = true) ->
    response (attempt + n) = inl err ->
    retryable err = false ->
    n < fuel ->
    exec (fetch_loop fuel response attempt) w =
    (Raised err, extend (retry_events attempt n ++ [EvRead (attempt + n)]) w).
Proof.
  induction n as [|n IH]; intros fuel attempt err w Hfail Herr Hr Hfuel.
  - destruct fuel as [|fuel]; [lia|].
    rewrite Nat.add_0_r in *. by rewrite (exec_fetch_loop_raise response _ _ err).
  - destruct fuel as [|fuel]; [lia|].
    destruct (Hfail 0) as (e & He & Hre); [lia|].
    rewrite Nat.add_0_r in He.
    rewrite (exec_fetch_loop_retry response _ _ e) by done.
    rewrite (IH fuel (S attempt) err).
    + rewrite extend_extend, retry_events_snoc, <- app_assoc.
      by replace (S attempt + n) with (attempt + S n) by lia.
    + intros k Hk. destruct (Hfail (S k)) as (e' & He' & Hre'); [lia|].
      exists e'. split; [|done]. by replace (S attempt + k) with (attempt + S k) by lia.
    + by replace (S attempt + n) with (attempt + S n) by lia.
    + done.
    + lia.
Qed.

(** X1: the request itself is outside the [try]: when [session.get] fails,
    be it with the very error the loop retries, [fetch] raises at once,
    without a read and without a sleep. *)
Theorem fetch_get_failure_is_not_retried (fuel : nat) (session : ClientSession)
    (url : string) (err : exn) (w : World) :
  closed w = false ->
  session url = inl err ->
  exec (fetch fuel session url) w = (Raised err, extend [EvGet url] w)
  /\ retryable connection_reset = true.
Proof.
  intros Hc Hs. split; [|done]. unfold fetch. rewrite exec_mbind. simpl.
  by rewrite Hc, Hs.
Qed.

Lemma fetch_get_failure_is_not_retried_witness :
  exec (fetch 5 refusing_session "http://lyrics.com/a") empty_world
  = (Raised connection_reset, extend [EvGet "http://lyrics.com/a"] empty_world)
  /\ retryable connection_reset = true.
Proof.
  apply (fetch_get_failure_is_not_retried 5 refusing_session "http://lyrics.com/a"
           connection_reset empty_world); reflexivity.
Defined.

(** X2: an error of another kind that follows N retried failures is raised
    as it is, after the N sleeps already made and one read more. *)
Theorem fetch_raises_after_retries (N fuel : nat) (session : ClientSession)
    (url : string) (response : ClientResponse) (err : exn) (w : World) :
  closed w = false ->
  session url = inr response ->
  (forall k, k < N -> exists e, response k = inl e /\ retryable e = true) ->
  response N = inl err ->
  retryable err = false ->
  N < fuel ->
  exists w',
    exec (fetch fuel session url) w = (Raised err, w') /\
    log w' = log w ++ EvGet url :: retry_events 0 N ++ [EvRead N] /\
    sleeps_of (log w') = sleeps_of (log w) ++ repeat 5%Z N /\
    fs w' = fs w.
Proof.
  intros Hc Hs Hfail Herr Hr Hfuel.
  rewrite (exec_fetch _ _ _ response) by done.
  rewrite (exec_fetch_loop_gives_up response N fuel 0 err) by done.
  eexists; split; [reflexivity|]. simpl. split; [|split; [|done]].
  - by rewrite <- app_assoc.
  - rewrite <- app_assoc, !sleeps_of_app, sleeps_of_retry_events. simpl.
    by rewrite app_nil_r.
Qed.

Lemma fetch_raises_after_retries_witness :
  exists w',
    exec (fetch 3 (one_page_session "http://lyrics.com/a" reset_then_payload_error)
            "http://lyrics.com/a") empty_world = (Raised payload_error, w') /\
    log w' = log empty_world ++
             EvGet "http://lyrics.com/a" :: retry_events 0 2 ++ [EvRead 2] /\
    sleeps_of (log w') = sleeps_of (log empty_world) ++ repeat 5%Z 2 /\
    fs w' = fs empty_world.
Proof.
  apply (fetch_raises_after_retries 2 3 _ _ reset_then_payload_error).
  - reflexivity.
  - reflexivity.
  - intros k Hk. exists connection_reset.
    destruct k as [|[|k]]; [split; reflexivity|split; reflexivity|lia].
  - reflexivity.
  - reflexivity.
  - lia.
Defined.

(** ** [write] and the file system *)

Lemma exists_false_lookup (m : gmap string entry) (name : string) :
  name <> EmptyString -> os.exists_ m name = false -> m !! name = None.
Proof.
  intros Hne H. unfold os.exists_ in H.
  destruct name as [|c name]; [done|]. simpl in H.
  apply orb_false_iff in H as [_ H]. by destruct (m !! String c name).
Qed.

(** [mkdir] adds one directory and touches nothing else. *)
Lemma mkdir_adds (name : string) (m m' : gmap string entry) :
  os.mkdir name m = inr m' ->
  m !! name = None /\ m' = <[name := Dir]> m.
Proof.
  unfold os.mkdir. intros H.
  destruct (Str.is_empty name) eqn:He; [done|].
  destruct (os.exists_ m name) eqn:Hex; [done|].
  destruct (os.parent_check m name); [done|]. injection H as <-.
  split; [|done]. apply exists_false_lookup; [|done]. by destruct name.
Qed.

Lemma grown_refl m : grown m m.
Proof. intros q. by left. Qed.

Lemma grown_trans m1 m2 m3 : grown m1 m2 -> grown m2 m3 -> grown m1 m3.
Proof.
  intros H12 H23 q. destruct (H12 q) as [E12|[E1 E2]], (H23 q) as [E23|[E2' E3]].
  - left. congruence.
  - right. split; congruence.
  - right. split; congruence.
  - congruence.
Qed.

Lemma grown_mkdir name m m' : os.mkdir name m = inr m' -> grown m m'.
Proof.
  intros H. apply mkdir_adds in H as [Hnone ->]. intros q.
  destruct (decide (q = name)) as [->|Hne].
  - right. by rewrite lookup_insert_eq.
  - left. by rewrite lookup_insert_ne.
Qed.

Lemma makedirs_rec_grown fuel : forall name m m',
  os.makedirs_rec fuel name m = inr m' -> grown m m'.
Proof.
  assert (Hfinish : forall name m m',
    match os.mkdir name m with
    | inr fs' => inr fs'
    | inl e => if os.isdir m name then inr m else inl e
    end = inr m' -> grown m m').
  { intros name m m' H. destruct (os.mkdir name m) as [e|m1] eqn:E.
    - destruct (os.isdir m name); [|done]. injection H as <-. apply grown_refl.
    - injection H as <-. by apply grown_mkdir in E. }
  induction fuel as [|fuel IH]; intros name m m' H.
  - cbn [os.makedirs_rec] in H.
    destruct (posixpath.split name) as [head tail].
    destruct (if Str.is_empty tail then posixpath.split head else (head, tail))
      as [head' tail'].
    destruct (negb (Str.is_empty head') && negb (Str.is_empty tail')
              && negb (os.exists_ m head')); [done|].
    by apply (Hfinish name).
  - cbn [os.makedirs_rec] in H.
    destruct (posixpath.split name) as [head tail].
    destruct (if Str.is_empty tail then posixpath.split head else (head, tail))
      as [head' tail'].
    destruct (negb (Str.is_empty head') && negb (Str.is_empty tail')
              && negb (os.exists_ m head')); [|by apply (Hfinish name)].
    destruct (os.makedirs_rec fuel head' m) as [e|m1] eqn:E.
    + destruct (exn_cls e); try done.
      destruct (String.eqb tail' os.curdir).
      * injection H as <-. apply grown_refl.
      * by apply (Hfinish name).
    + apply IH in E. destruct (String.eqb tail' os.curdir).
      * by injection H as <-.
      * apply (grown_trans _ m1); [done|]. by apply (Hfinish name).
Qed.

Lemma makedirs_grown name m m' : os.makedirs name m = inr m' -> grown m m'.
Proof. apply makedirs_rec_grown. Qed.

Lemma open_w_adds path m m' :
  os.open_w path m = inr m' ->
  m' = <[path := File EmptyString]> m /\ os.isdir m path = false /\
  (posixpath.dirname path = EmptyString \/ os.isdir m (posixpath.dirname path) = true).
Proof.
  unfold os.open_w, os.parent_check. intros H.
  destruct (Str.is_empty path) eqn:He; [done|].
  destruct (os.isdir m path || Str.endswith_char posixpath.sep path) eqn:Hd; [done|].
  apply orb_false_iff in Hd as [Hd _].
  destruct (Str.is_empty (posixpath.dirname path) || os.isdir m (posixpath.dirname path))
    eqn:Hp.
  - injection H as <-. split; [done|]. split; [done|].
    apply orb_true_iff in Hp as [Hp|Hp]; [left|by right].
    by destruct (posixpath.dirname path).
  - by destruct (os.exists_ m (posixpath.dirname path)).
Qed.

Lemma isdir_insert_file m d path c :
  os.isdir m d = true -> os.isdir m path = false ->
  os.isdir (<[path := File c]> m) d = true.
Proof.
  intros Hd Hp. destruct (decide (d = path)) as [->|Hne]; [congruence|].
  unfold os.isdir in *. by rewrite lookup_insert_ne.
Qed.

(** X3: when [write] returns, the file holds exactly the contents given,
    whatever the path held before (an existing file is overwritten), its
    directory exists, every other entry is as it was or is a directory just
    made, and the file operations were one [makedirs], one open, one write. *)
Theorem write_then_file_holds_contents (path contents : string) (w w' : World) :
  exec (write path contents) w = (Returned tt, w') ->
  fs w' !! path = Some (File contents) /\
  os.isdir (fs w') (posixpath.dirname path) = true /\
  (forall q, q <> path ->
             fs w' !! q = fs w !! q \/ (fs w !! q = None /\ fs w' !! q = Some Dir)) /\
  log w' = log w ++ [EvMakedirs (posixpath.dirname path); EvOpen path;
                     EvWrite path contents].
Proof.
  rewrite exec_write. cbn zeta. intros H.
  destruct (os.makedirs _ _) as [e|m1] eqn:Hmk; [done|].
  destruct (os.open_w _ _) as [e|m2] eqn:Hop; [done|].
  injection H as <-. simpl.
  apply open_w_adds in Hop as (-> & Hnd & Hparent).
  unfold os.write_file. rewrite insert_insert_eq.
  split; [by rewrite lookup_insert_eq|]. split; [|split; [|done]].
  - destruct Hparent as [He|Hd].
    + rewrite He in Hmk. by rewrite makedirs_empty in Hmk.
    + by apply isdir_insert_file.
  - intros q Hq. rewrite lookup_insert_ne by done. by apply (makedirs_grown _ _ _ Hmk).
Qed.

Lemma write_then_file_holds_contents_witness :
  let w := world_with (<["out/S.txt" := File "old text"]> (<["out" := Dir]> ∅)) in
  let w' := mkWorld (<["out/S.txt" := File "new text"]> (<["out" := Dir]> ∅)) false
              [EvMakedirs "out"; EvOpen "out/S.txt"; EvWrite "out/S.txt" "new text"] in
  fs w' !! "out/S.txt" = Some (File "new text") /\
  os.isdir (fs w') (posixpath.dirname "out/S.txt") = true /\
  (forall q, q <> "out/S.txt" ->
             fs w' !! q = fs w !! q \/ (fs w !! q = None /\ fs w' !! q = Some Dir)) /\
  log w' = log w ++ [EvMakedirs (posixpath.dirname "out/S.txt"); EvOpen "out/S.txt";
                     EvWrite "out/S.txt" "new text"].
Proof.
  apply (write_then_file_holds_contents "out/S.txt" "new text").
  vm_compute. reflexivity.
Defined.

(** X4: when [write] raises, no file has been created, truncated or changed
    and nothing was written; at most directories have been made (there is no
    cleanup of what [makedirs] did before the open failed). *)
Theorem write_failure_keeps_files (path contents : string) (w w' : World) (e : exn) :
  exec (write path contents) w = (Raised e, w') ->
  (forall q c, fs w' !! q = Some (File c) <-> fs w !! q = Some (File c)) /\
  (forall q, fs w' !! q = fs w !! q \/ (fs w !! q = None /\ fs w' !! q = Some Dir)) /\
  writes_of (log w') = writes_of (log w).
Proof.
  rewrite exec_write. cbn zeta. intros H.
  assert (Hfiles : forall m m' : gmap string entry, grown m m' ->
            forall q c, m' !! q = Some (File c) <-> m !! q = Some (File c)).
  { intros m m' Hg q c. destruct (Hg q) as [->|[Hn Hd]]; [done|].
    rewrite Hn, Hd. split; done. }
  destruct (os.makedirs _ _) as [e1|m1] eqn:Hmk.
  - injection H as <- <-. simpl. split; [done|]. split; [by left|].
    unfold writes_of. rewrite List.filter_app. simpl. by rewrite app_nil_r.
  - apply makedirs_grown in Hmk.
    destruct (os.open_w _ _) as [e2|m2] eqn:Hop; [|done].
    injection H as <- <-. simpl. split; [by apply Hfiles|]. split; [done|].
    unfold writes_of. rewrite List.filter_app. simpl. by rewrite app_nil_r.
Qed.

Lemma write_failure_keeps_files_witness :
  let w := world_with (<["out/Y Z/S.txt" := Dir]> ∅) in
  let w' := mkWorld (<["out/Y Z" := Dir]> (<["out" := Dir]> (<["out/Y Z/S.txt" := Dir]> ∅)))
              false [EvMakedirs "out/Y Z"; EvOpen "out/Y Z/S.txt"] in
  (forall q c, fs w' !! q = Some (File c) <-> fs w !! q = Some (File c)) /\
  (forall q, fs w' !! q = fs w !! q \/ (fs w !! q = None /\ fs w' !! q = Some Dir)) /\
  writes_of (log w') = writes_of (log w).
Proof.
  apply (write_failure_keeps_files "out/Y Z/S.txt" "text" _ _ (EISDIR "out/Y Z/S.txt")).
  vm_compute. reflexivity.
Defined.

(** ** Paths *)

Lemma contains_sep_cons (c : ascii) (s : string) :
  Str.contains "/" (String c s) = Ascii.eqb posixpath.sep c || Str.contains "/" s.
Proof. simpl. by rewrite andb_true_r. Qed.

Lemma contains_sep_app (a b : string) :
  Str.contains "/" (a +:+ b) = Str.contains "/" a || Str.contains "/" b.
Proof.
  induction a as [|c a IH].
  - change (EmptyString +:+ b) with b. by destruct b.
  - change (String c a +:+ b) with (String c (a +:+ b)).
    rewrite !contains_sep_cons, IH. by rewrite orb_assoc.
Qed.

Lemma rpartition_bare (s : string) :
  Str.contains "/" s = false -> Str.rpartition posixpath.sep s = (EmptyString, s).
Proof.
  induction s as [|c s IH]; [done|]. rewrite contains_sep_cons.
  intros [Hc Hs]%orb_false_iff. cbn [Str.rpartition]. by rewrite (IH Hs), Hc.
Qed.

Lemma rpartition_app_sep (a b : string) :
  Str.contains "/" b = false ->
  Str.rpartition posixpath.sep (a +:+ String posixpath.sep b)
  = (a +:+ String posixpath.sep EmptyString, b).
Proof.
  intros Hb. induction a as [|c a IH].
  - change (EmptyString +:+ String posixpath.sep b) with (String posixpath.sep b).
    cbn [Str.rpartition]. rewrite (rpartition_bare b Hb).
    by rewrite Ascii.eqb_refl.
  - change (String c a +:+ String posixpath.sep b)
      with (String c (a +:+ String posixpath.sep b)).
    cbn [Str.rpartition]. rewrite IH. by destruct a.
Qed.

Lemma rstrip_app_sep (a : string) :
  a <> EmptyString -> Str.endswith_char posixpath.sep a = false ->
  Str.rstrip posixpath.sep (a +:+ String posixpath.sep EmptyString) = a.
Proof.
  induction a as [|c a IH]; [done|]. intros _ Hend.
  change (String c a +:+ String posixpath.sep EmptyString)
    with (String c (a +:+ String posixpath.sep EmptyString)).
  cbn [Str.rstrip]. destruct a as [|d a].
  - change (EmptyString +:+ String posixpath.sep EmptyString)
      with (String posixpath.sep EmptyString).
    cbn [Str.rstrip]. rewrite Ascii.eqb_refl. simpl in Hend. by rewrite Hend.
  - rewrite IH; [done|done|]. by simpl in Hend.
Qed.

Lemma all_char_app_sep (a : string) :
  a <> EmptyString -> Str.endswith_char posixpath.sep a = false ->
  Str.all_char posixpath.sep (a +:+ String posixpath.sep EmptyString) = false.
Proof.
  induction a as [|c a IH]; [done|]. intros _ Hend.
  change (String c a +:+ String posixpath.sep EmptyString)
    with (String c (a +:+ String posixpath.sep EmptyString)).
  cbn [Str.all_char]. destruct a as [|d a].
  - simpl in Hend. by rewrite Hend.
  - rewrite IH; [by rewrite andb_false_r|done|by simpl in Hend].
Qed.

Lemma bare_not_absolute (b : string) :
  Str.contains "/" b = false -> Str.startswith "/" b = false.
Proof.
  destruct b as [|c b]; [done|]. rewrite contains_sep_cons.
  intros [Hc _]%orb_false_iff. unfold posixpath.sep in Hc. simpl. by rewrite Hc.
Qed.

Lemma join_bare (a b : string) :
  a <> EmptyString -> Str.endswith_char posixpath.sep a = false ->
  Str.contains "/" b = false ->
  posixpath.join a b = a +:+ String posixpath.sep b.
Proof.
  intros Ha Hend Hb. unfold posixpath.join.
  rewrite (bare_not_absolute b Hb), Hend. by destruct a.
Qed.

Lemma dirname_join_bare (a b : string) :
  a <> EmptyString -> Str.endswith_char posixpath.sep a = false ->
  Str.contains "/" b = false ->
  posixpath.dirname (posixpath.join a b) = a.
Proof.
  intros Ha Hend Hb. rewrite join_bare by done.
  unfold posixpath.dirname, posixpath.split.
  rewrite (rpartition_app_sep a b Hb).
  rewrite (all_char_app_sep a Ha Hend).
  assert (Str.is_empty (a +:+ String posixpath.sep EmptyString) = false) as ->
    by by destruct a.
  simpl. by apply rstrip_app_sep.
Qed.

(** X5: a song whose name holds no slash is written right under the
    directory of its album: the path is [directory/name.txt] and its
    directory part, the one [write] makes, is [directory] again.  A name
    that starts with a slash makes [join] drop the directory: the file is
    written at [/rest.txt], outside the output tree. *)
Theorem song_path_stays_in_directory (directory song_name : string) :
  directory <> EmptyString ->
  Str.endswith_char posixpath.sep directory = false ->
  Str.contains "/" song_name = false ->
  posixpath.join directory (song_name +:+ ".txt")
  = directory +:+ "/" +:+ song_name +:+ ".txt"
  /\ posixpath.dirname (posixpath.join directory (song_name +:+ ".txt")) = directory
  /\ (forall rest,
        posixpath.join directory (("/" +:+ rest) +:+ ".txt") = "/" +:+ rest +:+ ".txt").
Proof.
  intros Ha Hend Hn.
  assert (Hb : Str.contains "/" (song_name +:+ ".txt") = false).
  { rewrite contains_sep_app, Hn. reflexivity. }
  split; [by apply join_bare|]. split; [by apply dirname_join_bare|].
  intros rest. reflexivity.
Qed.

Lemma song_path_stays_in_directory_witness :
  posixpath.join "out/Y Z" ("S" +:+ ".txt") = "out/Y Z" +:+ "/" +:+ "S" +:+ ".txt"
  /\ posixpath.dirname (posixpath.join "out/Y Z" ("S" +:+ ".txt")) = "out/Y Z"
  /\ (forall rest,
        posixpath.join "out/Y Z" (("/" +:+ rest) +:+ ".txt") = "/" +:+ rest +:+ ".txt").
Proof.
  apply (song_path_stays_in_directory "out/Y Z" "S"); [done|reflexivity|reflexivity].
Defined.

(** ** The listing of songs *)

Lemma exec_song_rows_well_formed rows : forall d0 w,
  Forall (fun row => well_formed_row row = true) rows ->
  exec (for_each rows song_row d0) w
  = (Returned (dict_of (omap row_entry rows) d0), extend (row_notices rows) w).
Proof.
  induction rows as [|row rows IH]; intros d0 w Hall.
  - simpl. by rewrite extend_nil.
  - apply Forall_cons in Hall as [Hrow Hall].
    cbn [for_each]. rewrite exec_mbind, song_row_spec.
    unfold row_notices, row_entry, well_formed_row in *. cbn [omap list_omap].
    destruct (classify_row row) as [name link|t|e]; [| |done].
    + simpl. by rewrite IH.
    + simpl. rewrite IH by done. by rewrite record_extend, extend_extend.
Qed.

Lemma exec_song_rows_malformed rows1 row rows2 e : forall d0 w,
  Forall (fun row => well_formed_row row = true) rows1 ->
  classify_row row = RowError e ->
  exec (for_each (rows1 ++ row :: rows2) song_row d0) w
  = (Raised e, extend (row_notices rows1) w).
Proof.
  induction rows1 as [|row1 rows1 IH]; intros d0 w Hall Hrow.
  - cbn [app for_each]. rewrite exec_mbind, song_row_spec, Hrow. simpl.
    by rewrite extend_nil.
  - apply Forall_cons in Hall as [Hrow1 Hall].
    cbn [app for_each]. rewrite exec_mbind, song_row_spec.
    unfold row_notices, well_formed_row in *. cbn [omap list_omap].
    destruct (classify_row row1) as [name link|t|e1]; [| |done].
    + simpl. by rewrite IH.
    + simpl. rewrite IH by done. by rewrite record_extend, extend_extend.
Qed.

Lemma exec_songs_for_album fuel BeautifulSoup session album w text w1 tbody :
  exec (fetch fuel session ("http://lyrics.com/album/" +:+ album)) w = (Returned text, w1) ->
  bs4.find (BeautifulSoup text) "tbody" AnyAttrs = Some tbody ->
  exec (get_lyrics_com_songs_for_album fuel BeautifulSoup session album) w
  = exec (for_each (bs4.find_all tbody "tr" AnyAttrs) song_row []) w1.
Proof.
  intros Hfetch Htbody. unfold get_lyrics_com_songs_for_album.
  rewrite exec_mbind, Hfetch. cbn [then_exec].
  by rewrite exec_mbind, Htbody.
Qed.

(** X6: rows without a link do not stop the listing of an album page: when
    no row is malformed, [get_lyrics_com_songs_for_album] returns the
    dictionary of the linked rows, in page order, and has printed one notice
    per row without a link, in page order, and nothing else. *)
Theorem song_listing_skips_unlinked_rows (fuel : nat) (BeautifulSoup : string -> node)
    (session : ClientSession) (album text : string) (w w1 : World) (tbody : node) :
  exec (fetch fuel session ("http://lyrics.com/album/" +:+ album)) w = (Returned text, w1) ->
  bs4.find (BeautifulSoup text) "tbody" AnyAttrs = Some tbody ->
  Forall (fun row => well_formed_row row = true) (bs4.find_all tbody "tr" AnyAttrs) ->
  exec (get_lyrics_com_songs_for_album fuel BeautifulSoup session album) w
  = (Returned (dict_of (omap row_entry (bs4.find_all tbody "tr" AnyAttrs)) []),
     extend (row_notices (bs4.find_all tbody "tr" AnyAttrs)) w1).
Proof.
  intros Hfetch Htbody Hrows.
  rewrite (exec_songs_for_album _ _ _ _ _ text w1 tbody) by done.
  by apply exec_song_rows_well_formed.
Qed.

Lemma song_listing_skips_unlinked_rows_witness :
  exec (get_lyrics_com_songs_for_album 1 gappy_parser gappy_session "floodland-1")
    empty_world
  = (Returned (dict_of (omap row_entry (bs4.find_all (el "tbody" gappy_rows) "tr" AnyAttrs))
                 []),
     extend (row_notices (bs4.find_all (el "tbody" gappy_rows) "tr" AnyAttrs))
       album_fetched).
Proof.
  apply (song_listing_skips_unlinked_rows 1 gappy_parser gappy_session "floodland-1"
           "album page" empty_world album_fetched (el "tbody" gappy_rows)).
  - reflexivity.
  - reflexivity.
  - repeat constructor.
Defined.

Example gappy_listing :
  dict_of (omap row_entry (bs4.find_all (el "tbody" gappy_rows) "tr" AnyAttrs)) []
  = [("A", Some "/a"); ("C", Some "/c")]
  /\ row_notices (bs4.find_all (el "tbody" gappy_rows) "tr" AnyAttrs)
     = [EvPrint (no_lyrics_notice "Untitled"); EvPrint (no_lyrics_notice "Interlude")].
Proof. split; reflexivity. Qed.

(** X7: the first malformed row (fewer than two children, a second child
    that is a string, or a [strong] without an anchor) ends the listing with
    its exception: no dictionary is returned, whatever the rows before and
    after hold; only the notices of the rows before it have been printed.
    [get_lyrics_com_album] then raises the same exception without reaching
    [gather]: no song is requested and no file is touched. *)
Theorem song_listing_aborts_on_malformed_row (fuel : nat)
    (BeautifulSoup : string -> node) (session : ClientSession)
    (album outputdir text : string) (w w1 : World) (tbody : node)
    (rows1 rows2 : list node) (row : node) (e : exn) :
  exec (fetch fuel session ("http://lyrics.com/album/" +:+ album)) w = (Returned text, w1) ->
  bs4.find (BeautifulSoup text) "tbody" AnyAttrs = Some tbody ->
  bs4.find_all tbody "tr" AnyAttrs = rows1 ++ row :: rows2 ->
  Forall (fun row => well_formed_row row = true) rows1 ->
  classify_row row = RowError e ->
  exec (get_lyrics_com_songs_for_album fuel BeautifulSoup session album) w
  = (Raised e, extend (row_notices rows1) w1)
  /\ exec (get_lyrics_com_album fuel BeautifulSoup session album outputdir) w
     = (Raised e, extend (row_notices rows1) w1)
  /\ fs (extend (row_notices rows1) w1) = fs w.
Proof.
  intros Hfetch Htbody Hrows Hall Hrow.
  assert (Hlist : exec (get_lyrics_com_songs_for_album fuel BeautifulSoup session album) w
                  = (Raised e, extend (row_notices rows1) w1)).
  { rewrite (exec_songs_for_album _ _ _ _ _ text w1 tbody) by done.
    rewrite Hrows. by apply exec_song_rows_malformed. }
  split; [done|]. split.
  - unfold get_lyrics_com_album. by rewrite exec_mbind, Hlist.
  - simpl. pose proof (exec_file_free _ w (fetch_file_free fuel session
                         ("http://lyrics.com/album/" +:+ album))) as [Hfs _].
    by rewrite Hfetch in Hfs.
Qed.

Lemma song_listing_aborts_on_malformed_row_witness :
  exec (get_lyrics_com_songs_for_album 1 broken_rows_parser gappy_session "floodland-1")
    empty_world
  = (Raised list_index_out_of_range,
     extend (row_notices [unlinked_tr "Untitled"; song_tr "A" "/a"]) album_fetched)
  /\ exec (get_lyrics_com_album 1 broken_rows_parser gappy_session "floodland-1" "out")
       empty_world
     = (Raised list_index_out_of_range,
        extend (row_notices [unlinked_tr "Untitled"; song_tr "A" "/a"]) album_fetched)
  /\ fs (extend (row_notices [unlinked_tr "Untitled"; song_tr "A" "/a"]) album_fetched)
     = fs empty_world.
Proof.
  apply (song_listing_aborts_on_malformed_row 1 broken_rows_parser gappy_session
           "floodland-1" "out" "album page" empty_world album_fetched
           (el "tbody" [unlinked_tr "Untitled"; song_tr "A" "/a"; one_cell_tr;
                        song_tr "C" "/c"])
           [unlinked_tr "Untitled"; song_tr "A" "/a"] [song_tr "C" "/c"] one_cell_tr
           list_index_out_of_range).
  - reflexivity.
  - reflexivity.
  - reflexivity.
  - repeat constructor.
  - reflexivity.
Defined.

(** ** The listing of albums *)

Lemma last_field_bare (s : string) :
  Str.contains "/" (Str.last_field posixpath.sep s) = false.
Proof.
  unfold Str.last_field. induction s as [|c s IH]; [done|].
  cbn [Str.rpartition]. destruct (Str.rpartition posixpath.sep s) as [hd tl].
  cbn [snd] in IH. destruct hd as [|h hd]; [|done].
  destruct (Ascii.eqb posixpath.sep c) eqn:Hc; [done|].
  cbn [snd]. by rewrite contains_sep_cons, Hc, IH.
Qed.

Lemma dict_set_values {V : Type} (P : V -> Prop) (d : list (string * V)) key v :
  Forall (fun e => P e.2) d -> P v -> Forall (fun e => P e.2) (dict_set d key v).
Proof.
  intros Hd Hv. induction d as [|[k x] d IH]; simpl.
  - by repeat constructor.
  - apply Forall_cons in Hd as [Hx Hd]. destruct (String.eqb k key).
    + by constructor.
    + constructor; [done|]. by apply IH.
Qed.

Lemma exec_album_divs_returned divs : forall d0 w d w',
  exec (for_each divs album_div d0) w = (Returned d, w') ->
  d = dict_of (omap linked divs) d0 /\ w' = w
  /\ Forall (fun div => is_Some (linked div)) divs.
Proof.
  induction divs as [|div divs IH]; intros d0 w d w' Hexec.
  - simpl in Hexec. injection Hexec as <- <-. by repeat split.
  - cbn [for_each] in Hexec. rewrite exec_mbind, album_div_spec in Hexec.
    cbn [omap list_omap]. unfold linked at 1 3.
    destruct (album_entry div) as [err|[name url]] eqn:He; [done|].
    simpl in Hexec. apply IH in Hexec as (-> & -> & Hall).
    split; [done|]. split; [done|]. constructor; [|done].
    unfold linked. by rewrite He.
Qed.

Lemma linked_slug div name url :
  linked div = Some (name, url) -> Str.contains "/" url = false.
Proof.
  unfold linked, album_entry. intros H.
  destruct div as [s|n at' cl cs]; [done|].
  destruct (bs4.find _ "h3" _) as [[s|n1 a1 c1 cs1]|]; try done.
  destruct (bs4.find _ "a" _) as [a|]; try done.
  destruct (bs4.get a "href") as [href|]; try done.
  injection H as _ <-. apply last_field_bare.
Qed.

Lemma dict_of_values {V : Type} (P : V -> Prop) entries : forall (d : list (string * V)),
  Forall (fun e => P e.2) d -> Forall (fun e => P e.2) entries ->
  Forall (fun e => P e.2) (dict_of entries d).
Proof.
  induction entries as [|[k v] entries IH]; intros d Hd He; [done|].
  apply Forall_cons in He as [Hv He]. unfold dict_of in *. simpl.
  apply IH; [|done]. by apply dict_set_values.
Qed.

Lemma exec_albums_for_artist fuel BeautifulSoup client artist w text w1 body tdata :
  exec (fetch fuel client ("http://lyrics.com/artist/" +:+ artist)) w = (Returned text, w1) ->
  bs4.find (BeautifulSoup text) "div" (IdIs "content-body") = Some body ->
  bs4.find body "div" (ClassIs "tdata-ext") = Some tdata ->
  exec (get_lyrics_com_albums_for_artist fuel BeautifulSoup client artist) w
  = exec (for_each (bs4.find_all tdata "div" (ClassIs "clearfix")) album_div []) w1.
Proof.
  intros Hfetch Hbody Htdata. unfold get_lyrics_com_albums_for_artist.
  rewrite exec_mbind, Hfetch. cbn [then_exec].
  rewrite exec_mbind, Hbody. cbn [not_none then_exec exec].
  by rewrite exec_mbind, Htdata.
Qed.

(** X8: whatever the artist page holds, a dictionary that
    [get_lyrics_com_albums_for_artist] returns has distinct album names as
    keys, and every value is the text after the last slash of a link, so it
    contains no slash: the album page is always requested as
    [http://lyrics.com/album/<one segment>].  The listing has made the one
    request and printed nothing. *)
Theorem album_slugs_are_single_segments (fuel : nat) (BeautifulSoup : string -> node)
    (client : ClientSession) (artist : string) (w w' : World)
    (albums : list (string * string)) :
  exec (get_lyrics_com_albums_for_artist fuel BeautifulSoup client artist) w
  = (Returned albums, w') ->
  NoDup albums.*1
  /\ Forall (fun entry => Str.contains "/" entry.2 = false) albums
  /\ exists text,
       exec (fetch fuel client ("http://lyrics.com/artist/" +:+ artist)) w
       = (Returned text, w').
Proof.
  unfold get_lyrics_com_albums_for_artist. rewrite exec_mbind.
  destruct (exec (fetch _ _ _) w) as [[text|e| |aws k] w1] eqn:Hfetch; try done.
  cbn [then_exec]. rewrite exec_mbind.
  destruct (bs4.find (BeautifulSoup text) _ _) as [body|]; [|done].
  cbn [not_none then_exec exec]. rewrite exec_mbind.
  destruct (bs4.find body _ _) as [tdata|]; [|done].
  cbn [not_none then_exec exec]. intros (-> & -> & Hall)%exec_album_divs_returned.
  split; [|split; [|by exists text]].
  - apply dict_of_NoDup. constructor.
  - apply (dict_of_values (fun url => Str.contains "/" url = false)); [constructor|].
    induction Hall as [|div divs [[name url] He] _ IH]; [constructor|].
    cbn [omap list_omap]. rewrite He. constructor; [|done].
    by apply (linked_slug div name).
Qed.

Lemma album_slugs_are_single_segments_witness :
  NoDup [("Floodland", EmptyString); ("Vision Thing", "vision-thing-2")].*1
  /\ Forall (fun entry : string * string => Str.contains "/" entry.2 = false)
       [("Floodland", EmptyString); ("Vision Thing", "vision-thing-2")]
  /\ exists text,
       exec (fetch 1 artist_session ("http://lyrics.com/artist/" +:+ "X")) empty_world
       = (Returned text, artist_fetched).
Proof.
  apply (album_slugs_are_single_segments 1 more_segments_parser artist_session "X"
           empty_world artist_fetched
           [("Floodland", EmptyString); ("Vision Thing", "vision-thing-2")]).
  reflexivity.
Defined.

(** X9: the first album block without an [h3], without an anchor in it or
    without an [href] on the anchor ends the album listing with its
    exception: the blocks before it are not reported and those after it are
    not looked at. *)
Theorem album_listing_aborts_on_unlinked_block (fuel : nat)
    (BeautifulSoup : string -> node) (client : ClientSession) (artist text : string)
    (w w1 : World) (body tdata : node) (divs1 divs2 : list node) (div : node) (e : exn) :
  exec (fetch fuel client ("http://lyrics.com/artist/" +:+ artist)) w = (Returned text, w1) ->
  bs4.find (BeautifulSoup text) "div" (IdIs "content-body") = Some body ->
  bs4.find body "div" (ClassIs "tdata-ext") = Some tdata ->
  bs4.find_all tdata "div" (ClassIs "clearfix") = divs1 ++ div :: divs2 ->
  Forall (fun div => is_Some (linked div)) divs1 ->
  album_entry div = inl e ->
  exec (get_lyrics_com_albums_for_artist fuel BeautifulSoup client artist) w
  = (Raised e, w1).
Proof.
  intros Hfetch Hbody Htdata Hdivs Hall He.
  rewrite (exec_albums_for_artist _ _ _ _ _ text w1 body tdata) by done.
  rewrite Hdivs. by apply exec_album_divs_unlinked.
Qed.

Lemma album_listing_aborts_on_unlinked_block_witness :
  exec (get_lyrics_com_albums_for_artist 1 second_unlinked_parser artist_session "X")
    empty_world
  = (Raised (NoneType_has_no "get_text"), artist_fetched).
Proof.
  apply (album_listing_aborts_on_unlinked_block 1 second_unlinked_parser artist_session
           "X" "artist page" empty_world artist_fetched
           (Tag "div" [("id", "content-body")] []
              [Tag "div" [] ["tdata-ext"] second_unlinked_blocks])
           (Tag "div" [] ["tdata-ext"] second_unlinked_blocks)
           [album_block "Floodland" "/album/1/floodland-1"]
           [album_block "Vision Thing" "/album/2/vision-thing-2"]
           (unlinked_block "Some Girls")).
  - reflexivity.
  - reflexivity.
  - reflexivity.
  - reflexivity.
  - repeat constructor. vm_compute. by eexists.
  - reflexivity.
Defined.

(** ** The session of [get_lyrics_com_artist] *)

Lemma albums_for_artist_file_free fuel BeautifulSoup client artist :
  file_free (get_lyrics_com_albums_for_artist fuel BeautifulSoup client artist).
Proof.
  unfold get_lyrics_com_albums_for_artist.
  apply file_free_mbind; [apply fetch_file_free|]. intros text.
  apply file_free_mbind; [by destruct (bs4.find _ _ _)|]. intros body.
  apply file_free_mbind; [by destruct (bs4.find _ _ _)|]. intros tdata.
  generalize (@nil (string * string)).
  induction (bs4.find_all tdata "div" (ClassIs "clearfix")) as [|div divs IH];
    intros d0; [done|].
  cbn [for_each]. apply file_free_mbind; [|done].
  rewrite album_div_spec. by destruct (album_entry div) as [e|[name url]].
Qed.

(** X10: when the listing of the artist page fails (the request, the read,
    a missing container or a block without a link), [get_lyrics_com_artist]
    closes the session and raises the same exception; run by [main], the
    crawl ends with that exception without having requested an album or
    touched a file. *)
Theorem artist_listing_failure_ends_crawl (fuel : nat) (BeautifulSoup : string -> node)
    (client : ClientSession) (artist output : string) (w w1 : World) (e : exn) :
  exec (get_lyrics_com_albums_for_artist fuel BeautifulSoup client artist) w
  = (Raised e, w1) ->
  exec (get_lyrics_com_artist fuel BeautifulSoup client artist output) w
  = (Raised e, session_closed w1)
  /\ fs (session_closed w1) = fs w
  /\ exists n,
       main fuel BeautifulSoup client artist output (repeat 0 n) w
       = (Some (Some e), mkLoop [mkTask None (Finished (Some e))] (session_closed w1)).
Proof.
  intros Hlist.
  assert (Hexec : exec (get_lyrics_com_artist fuel BeautifulSoup client artist output) w
                  = (Raised e, session_closed w1)).
  { unfold get_lyrics_com_artist. by rewrite exec_finally_close, exec_mbind, Hlist. }
  split; [done|]. split.
  - pose proof (exec_file_free _ w
                  (albums_for_artist_file_free fuel BeautifulSoup client artist)) as [Hfs _].
    by rewrite Hlist in Hfs.
  - pose proof (run_solo (get_lyrics_com_artist fuel BeautifulSoup client artist output) w)
      as Hrun.
    by rewrite Hexec in Hrun.
Qed.

Lemma artist_listing_failure_ends_crawl_witness :
  exec (get_lyrics_com_artist 1 second_unlinked_parser artist_session "X" "out") empty_world
  = (Raised (NoneType_has_no "get_text"), session_closed artist_fetched)
  /\ fs (session_closed artist_fetched) = fs empty_world
  /\ exists n,
       main 1 second_unlinked_parser artist_session "X" "out" (repeat 0 n) empty_world
       = (Some (Some (NoneType_has_no "get_text")),
          mkLoop [mkTask None (Finished (Some (NoneType_has_no "get_text")))]
            (session_closed artist_fetched)).
Proof.
  apply (artist_listing_failure_ends_crawl 1 second_unlinked_parser artist_session
           "X" "out" empty_world artist_fetched (NoneType_has_no "get_text")).
  reflexivity.
Defined.

(** *** The session is closed before [main] returns *)

Lemma finally_closes_first {A : Type} (c : coro A) :
  closes_first (finally_ c session_close).
Proof.
  unfold finally_.
  induction c as [A r|A e|A|A X op k IH|A aws k IH]; simpl.
  - by left.
  - by left.
  - done.
  - right. intros x. apply IH.
  - intros r. apply IH.
Qed.

Lemma perform_closed_log {X : Type} (op : io X) w :
  closed_log w -> closed_log (perform op w).2.
Proof.
  intros [Hc Hlog]. unfold closed_log.
  destruct op; simpl; try (split; [done|apply elem_of_app; by left]).
  - destruct (os.makedirs name (fs w)); simpl; (split; [done|apply elem_of_app; by left]).
  - destruct (os.open_w path (fs w)); simpl; (split; [done|apply elem_of_app; by left]).
Qed.

Lemma perform_close {X : Type} (op : io X) w :
  is_close op = true -> closed_log (perform op w).2.
Proof.
  destruct op; try done. intros _. split; [done|]. simpl.
  apply elem_of_app. right. apply list_elem_of_here.
Qed.

Lemma closing_perform {X : Type} (op : io X) w st :
  closing w st -> closing (perform op w).2 st.
Proof.
  destruct st as [c|n k|r]; simpl; try (intros [H|H]; [by left|right]);
    by apply perform_closed_log.
Qed.

Lemma set_state_ne i j st pool : i <> j -> set_state i st pool !! j = pool !! j.
Proof.
  intros Hij. unfold set_state. destruct (pool !! i); [|done].
  by apply list_lookup_insert_ne.
Qed.

Lemma set_state_eq i st pool t :
  pool !! i = Some t -> set_state i st pool !! i = Some (mkTask (parent t) st).
Proof.
  intros Hi. unfold set_state. rewrite Hi.
  apply list_lookup_insert_eq. by apply lookup_lt_Some in Hi.
Qed.

Lemma notify_closing p r pool w :
  (forall t, pool !! 0 = Some t -> closing w (state t)) ->
  forall t, notify p r pool !! 0 = Some t -> closing w (state t).
Proof.
  intros H t. unfold notify. destruct p as [p|]; [|apply H].
  destruct (pool !! p) as [[pp [c|pending k|r']]|] eqn:Hp; simpl; try apply H.
  assert (Hk : p = 0 -> (forall r, closes_first (k r)) \/ closed_log w).
  { intros ->. apply (H _ Hp). }
  assert (Hset : forall st, closing w st \/ p <> 0 ->
            set_state p st pool !! 0 = Some t -> closing w (state t)).
  { intros st Hst. destruct (decide (p = 0)) as [->|Hne].
    - rewrite (set_state_eq _ _ _ _ Hp). intros [= <-]. simpl.
      by destruct Hst.
    - rewrite set_state_ne by done. apply H. }
  destruct r as [e|].
  - apply Hset. destruct (decide (p = 0)) as [Hz|Hne]; [left|by right].
    simpl. destruct (Hk Hz) as [Hcl|Hcl]; [left; apply Hcl|by right].
  - destruct pending as [|[|n]]; apply Hset;
      (destruct (decide (p = 0)) as [Hz|Hne]; [left|by right]); simpl;
      (destruct (Hk Hz) as [Hcl|Hcl]; [left|by right]); try apply Hcl; done.
Qed.

Lemma lookup_app_first {A : Type} (l1 l2 : list A) x :
  l1 !! 0 = Some x -> (l1 ++ l2) !! 0 = Some x.
Proof. by destruct l1. Qed.

Lemma loop_step_main_closes i l : main_closes l -> main_closes (loop_step i l).
Proof.
  intros H. unfold loop_step.
  destruct (tasks l !! i) as [[p [c|pending k|r]]|] eqn:Hi; try done.
  destruct c as [[]|e| |X op k|aws k].
  - intros t. simpl. apply notify_closing. intros t0.
    destruct (decide (i = 0)) as [->|Hne].
    + rewrite (set_state_eq _ _ _ _ Hi). intros [= <-]. simpl.
      by destruct (H _ Hi) as [Hf|Hcl].
    + rewrite set_state_ne by done. apply H.
  - intros t. simpl. apply notify_closing. intros t0.
    destruct (decide (i = 0)) as [->|Hne].
    + rewrite (set_state_eq _ _ _ _ Hi). intros [= <-]. simpl.
      by destruct (H _ Hi) as [Hf|Hcl].
    + rewrite set_state_ne by done. apply H.
  - done.
  - destruct (perform op (world l)) as [x w'] eqn:Hop. intros t. simpl.
    assert (Hw' : w' = (perform op (world l)).2) by by rewrite Hop.
    destruct (decide (i = 0)) as [->|Hne].
    + rewrite (set_state_eq _ _ _ _ Hi). intros [= <-]. simpl.
      destruct (H _ Hi) as [[Hcl|Hk]|Hcl].
      * right. rewrite Hw'. by apply perform_close.
      * left. apply Hk.
      * right. rewrite Hw'. by apply perform_closed_log.
    + rewrite set_state_ne by done. intros Ht. rewrite Hw'.
      apply closing_perform. by apply H.
  - assert (Hnil : main_closes
              (mkLoop (set_state i (Runnable (k None)) (tasks l)) (world l))).
    { intros t. simpl. destruct (decide (i = 0)) as [->|Hne].
      - rewrite (set_state_eq _ _ _ _ Hi). intros [= <-]. simpl.
        destruct (H _ Hi) as [Hk|Hcl]; [left; apply Hk|by right].
      - rewrite set_state_ne by done. apply H. }
    destruct aws as [|a aws]; [done|].
    intros t. simpl.
    assert (Hfirst : exists t0,
              set_state i (Waiting (length (a :: aws)) k) (tasks l) !! 0 = Some t0
              /\ closing (world l) (state t0)).
    { destruct (decide (i = 0)) as [->|Hne].
      - eexists. split; [by apply set_state_eq|]. simpl.
        destruct (H _ Hi) as [Hk|Hcl]; [left; apply Hk|by right].
      - rewrite set_state_ne by done.
        destruct (tasks l !! 0) as [t0|] eqn:H0.
        + exists t0. split; [done|]. by apply H.
        + apply lookup_lt_Some in Hi. apply lookup_ge_None in H0. lia. }
    destruct Hfirst as (t0 & Ht0 & Hcl).
    rewrite (lookup_app_first _ _ _ Ht0). by intros [= <-].
Qed.

Lemma run_all_main_closes sched : forall l, main_closes l -> main_closes (run_all sched l).
Proof.
  induction sched as [|i sched IH]; intros l H; [done|].
  apply IH. by apply loop_step_main_closes.
Qed.

(** X11: whatever the site serves and whatever the schedule, when [main]
    returns, with a result or with an exception, the session has been
    closed. *)
Theorem main_closes_session_before_returning (fuel : nat)
    (BeautifulSoup : string -> node) (client : ClientSession) (artist output : string)
    (sched : list nat) (w : World) (r : option exn) (l : loop) :
  main fuel BeautifulSoup client artist output sched w = (Some r, l) ->
  closed (world l) = true /\ EvClose ∈ log (world l).
Proof.
  unfold main. intros Hrun.
  apply run_until_complete_prefix in Hrun as (s1 & s2 & _ & -> & Hres).
  assert (Hinv : main_closes
            (run_all s1 (start (get_lyrics_com_artist fuel BeautifulSoup client artist
                                  output) w))).
  { apply run_all_main_closes. intros t [= <-]. left.
    apply (finally_closes_first
             (albums ← get_lyrics_com_albums_for_artist fuel BeautifulSoup client artist;
              asyncio_gather (album_awaitables fuel BeautifulSoup client output albums))). }
  unfold main_result in Hres.
  destruct (tasks (run_all s1 _) !! 0) as [[p st]|] eqn:H0; [|done].
  simpl in Hres. destruct st as [c|n k|r']; try done.
  apply (Hinv _ H0).
Qed.

Lemma main_closes_session_before_returning_witness :
  closed (world (main 1 xyz_parser xyz_session "X" "out" xyz_schedule empty_world).2) = true
  /\ EvClose ∈ log (world (main 1 xyz_parser xyz_session "X" "out" xyz_schedule
                             empty_world).2).
Proof.
  apply (main_closes_session_before_returning 1 xyz_parser xyz_session "X" "out"
           xyz_schedule empty_world None).
  vm_compute. reflexivity.
Defined.

(** ** Nothing listed *)

(** A coroutine alone in the loop goes through a [gather] of nothing. *)
Lemma run_solo_gather_nil (c : coro unit) : forall w,
  match exec c w with
  | (Awaiting [] k, w') =>
      exists n, forall m,
        run_until_complete (repeat 0 (n + m)) (start c w)
        = run_until_complete (repeat 0 m) (start (k None) w')
  | _ => True
  end.
Proof.
  revert c. fix IH 1. intros c w. destruct c as [r|e| |X op k|aws k]; simpl; try done.
  - destruct (perform op w) as [x w'] eqn:E.
    specialize (IH (k x) w').
    destruct (exec (k x) w') as [[r|e| |[|a aws] k'] w'']; try done.
    destruct IH as [n Hn]. exists (S n). intros m. simpl.
    unfold loop_step. simpl. rewrite E. apply Hn.
  - destruct aws as [|a aws]; [|done]. exists 1. intros m. reflexivity.
Qed.

(** X12: an artist page without album blocks is not an error: the crawl
    gathers nothing, closes the session and [main] returns normally,
    having made the one request and touched no file. *)
Theorem artist_without_albums_completes (fuel : nat) (BeautifulSoup : string -> node)
    (client : ClientSession) (artist output : string) (w w1 : World) :
  exec (get_lyrics_com_albums_for_artist fuel BeautifulSoup client artist) w
  = (Returned [], w1) ->
  fs (session_closed w1) = fs w
  /\ exists n,
       main fuel BeautifulSoup client artist output (repeat 0 n) w
       = (Some None, mkLoop [mkTask None (Finished None)] (session_closed w1)).
Proof.
  intros Hlist. split.
  - pose proof (exec_file_free _ w
                  (albums_for_artist_file_free fuel BeautifulSoup client artist)) as [Hfs _].
    by rewrite Hlist in Hfs.
  - pose proof (run_solo_gather_nil
                  (get_lyrics_com_artist fuel BeautifulSoup client artist output) w) as Hrun.
    unfold get_lyrics_com_artist in Hrun at 1.
    rewrite exec_finally_close, exec_mbind, Hlist in Hrun. simpl in Hrun.
    destruct Hrun as [n Hn].
    pose proof (run_solo (finally_ (gather_result None) session_close) w1) as [m Hm].
    exists (n + m). unfold main. rewrite Hn. exact Hm.
Qed.

Lemma artist_without_albums_completes_witness :
  fs (session_closed artist_fetched) = fs empty_world
  /\ exists n,
       main 1 no_albums_parser artist_session "X" "out" (repeat 0 n) empty_world
       = (Some None, mkLoop [mkTask None (Finished None)] (session_closed artist_fetched)).
Proof.
  apply (artist_without_albums_completes 1 no_albums_parser artist_session "X" "out"
           empty_world artist_fetched).
  reflexivity.
Defined.

Lemma songs_for_album_file_free fuel BeautifulSoup session album :
  file_free (get_lyrics_com_songs_for_album fuel BeautifulSoup session album).
Proof.
  unfold get_lyrics_com_songs_for_album.
  apply file_free_mbind; [apply fetch_file_free|]. intros text.
  apply file_free_mbind; [by destruct (bs4.find _ _ _)|]. intros tbody.
  generalize (@nil (string * option string)).
  induction (bs4.find_all tbody "tr" AnyAttrs) as [|row rows IH]; intros d0; [done|].
  cbn [for_each]. apply file_free_mbind; [|done].
  rewrite song_row_spec. by destruct (classify_row row).
Qed.

(** X13: an album page on which no row carries a link is not an error
    either: [get_lyrics_com_album], run on its own, returns normally after
    the listing, with no further request, no directory made and no file
    written. *)
Theorem album_without_linked_rows_completes (fuel : nat)
    (BeautifulSoup : string -> node) (session : ClientSession)
    (album outputdir : string) (w w1 : World) :
  exec (get_lyrics_com_songs_for_album fuel BeautifulSoup session album) w
  = (Returned [], w1) ->
  fs w1 = fs w
  /\ exists n,
       run_until_complete (repeat 0 n)
         (start (get_lyrics_com_album fuel BeautifulSoup session album outputdir) w)
       = (Some None, mkLoop [mkTask None (Finished None)] w1).
Proof.
  intros Hlist. split.
  - pose proof (exec_file_free _ w
                  (songs_for_album_file_free fuel BeautifulSoup session album)) as [Hfs _].
    by rewrite Hlist in Hfs.
  - pose proof (run_solo_gather_nil
                  (get_lyrics_com_album fuel BeautifulSoup session album outputdir) w)
      as Hrun.
    unfold get_lyrics_com_album in Hrun at 1.
    rewrite exec_mbind, Hlist in Hrun. simpl in Hrun.
    destruct Hrun as [n Hn]. exists (n + 1). rewrite Hn. reflexivity.
Qed.

Lemma album_without_linked_rows_completes_witness :
  fs (extend [EvPrint (no_lyrics_notice "Untitled");
              EvPrint (no_lyrics_notice "Interlude")] album_fetched)
  = fs empty_world
  /\ exists n,
       run_until_complete (repeat 0 n)
         (start (get_lyrics_com_album 1 no_links_parser gappy_session "floodland-1" "out")
            empty_world)
       = (Some None,
          mkLoop [mkTask None (Finished None)]
            (extend [EvPrint (no_lyrics_notice "Untitled");
                     EvPrint (no_lyrics_notice "Interlude")] album_fetched)).
Proof.
  apply (album_without_linked_rows_completes 1 no_links_parser gappy_session
           "floodland-1" "out" empty_world).
  reflexivity.
Defined.

(** ** A link without an address *)

(** X14: an anchor without an [href] is not a row without lyrics: the song
    loop stores its name with [None] as the link, and the task of that song
    raises the [TypeError] of the concatenation before any request, so that
    nothing is fetched or written for it. *)
Theorem song_without_href_raises_type_error (row a : node)
    (n : string) (at' : list (string * string)) (cl : list string) (cs : list node)
    (sn : string) (sat : list (string * string)) (scl : list string) (scs : list node) :
  bs4.contents row !! 1 = Some (Tag n at' cl cs) ->
  bs4.find (Tag n at' cl cs) "strong" AnyAttrs = Some (Tag sn sat scl scs) ->
  bs4.find (Tag sn sat scl scs) "a" AnyAttrs = Some a ->
  bs4.get a "href" = None ->
  (forall urls w,
     exec (song_row row urls) w = (Returned (dict_set urls (bs4.get_text a) None), w))
  /\ (forall fuel BeautifulSoup session directory w,
        exec (get_and_write_lyrics_com_song fuel BeautifulSoup session directory
                (bs4.get_text a) None) w
        = (Raised cannot_concatenate_None, w)).
Proof.
  intros Hcell Hstrong Ha Hhref. split.
  - intros urls w. rewrite song_row_spec. unfold classify_row.
    by rewrite Hcell, Hstrong, Ha, Hhref.
  - intros fuel BeautifulSoup session directory w.
    unfold get_and_write_lyrics_com_song, get_lyrics_com_song.
    by rewrite !exec_mbind.
Qed.

Lemma song_without_href_raises_type_error_witness :
  (forall urls w,
     exec (song_row (bare_anchor_tr "Ribbons") urls) w
     = (Returned (dict_set urls (bs4.get_text (el "a" [NavigableString "Ribbons"])) None),
        w))
  /\ (forall fuel BeautifulSoup session directory w,
        exec (get_and_write_lyrics_com_song fuel BeautifulSoup session directory
                (bs4.get_text (el "a" [NavigableString "Ribbons"])) None) w
        = (Raised cannot_concatenate_None, w)).
Proof.
  apply (song_without_href_raises_type_error (bare_anchor_tr "Ribbons")
           (el "a" [NavigableString "Ribbons"])
           "td" [] [] [el "strong" [el "a" [NavigableString "Ribbons"]]]
           "strong" [] [] [el "a" [NavigableString "Ribbons"]]);
    reflexivity.
Defined.

(** ** An album of any songs *)

Lemma string_length_append (a b : string) :
  String.length (a +:+ b) = String.length a + String.length b.
Proof.
  induction a as [|x a IH]; [done|].
  change (String x a +:+ b) with (String x (a +:+ b)). simpl. by rewrite IH.
Qed.

Lemma string_append_inv_head (a b c : string) : a +:+ b = a +:+ c -> b = c.
Proof.
  induction a as [|x a IH]; [done|].
  change (String x (a +:+ b) = String x (a +:+ c) -> b = c).
  intros [= H]. by apply IH.
Qed.

Lemma string_append_inv_tail (a b c : string) : a +:+ c = b +:+ c -> a = b.
Proof.
  revert b. induction a as [|x a IH]; intros [|y b] H; [done| | |].
  - change (c = String y (b +:+ c)) in H.
    apply (f_equal String.length) in H.
    cbn [String.length] in H. rewrite string_length_append in H. lia.
  - change (String x (a +:+ c) = c) in H.
    apply (f_equal String.length) in H.
    cbn [String.length] in H. rewrite string_length_append in H. lia.
  - change (String x (a +:+ c) = String y (b +:+ c)) in H.
    injection H as -> H. f_equal. by apply IH.
Qed.

Lemma split_bare (p : string) :
  Str.contains "/" p = false -> posixpath.split p = (EmptyString, p).
Proof. intros H. unfold posixpath.split. by rewrite (rpartition_bare p H). Qed.

Lemma all_char_bare (p : string) :
  p <> EmptyString -> Str.contains "/" p = false -> Str.all_char posixpath.sep p = false.
Proof.
  destruct p as [|c p]; [done|]. intros _. rewrite contains_sep_cons.
  intros [Hc _]%orb_false_iff. simpl. by rewrite Hc.
Qed.

Section any_songs.

Context (outputdir : string) (songs : list song).

Hypothesis dir_not_empty : outputdir <> EmptyString.
Hypothesis dir_bare : Str.contains "/" outputdir = false.
Hypothesis dir_not_dot : outputdir <> ".".
Hypothesis names_bare : Forall (fun s => Str.contains "/" (sg_name s) = false) songs.
Hypothesis names_distinct : NoDup (sg_name <$> songs).

Lemma file_name_bare s : s ∈ songs -> Str.contains "/" (sg_name s +:+ ".txt") = false.
Proof.
  intros Hin. rewrite contains_sep_app.
  rewrite Forall_forall in names_bare. by rewrite (names_bare s Hin).
Qed.

Lemma sg_path_under s : s ∈ songs -> sg_path outputdir s = path_under outputdir (sg_name s).
Proof.
  intros Hin. unfold sg_path.
  rewrite join_bare; [done|done|by apply endswith_bare|by apply file_name_bare].
Qed.

Lemma path_under_inj name name' :
  path_under outputdir name = path_under outputdir name' -> name = name'.
Proof.
  unfold path_under. intros H%string_append_inv_head.
  apply string_append_inv_head in H. by apply string_append_inv_tail in H.
Qed.

Lemma any_paths_in_dir s : s ∈ songs -> posixpath.dirname (sg_path outputdir s) = outputdir.
Proof.
  intros Hin. unfold sg_path.
  apply dirname_join_bare; [done|by apply endswith_bare|by apply file_name_bare].
Qed.

Lemma any_paths_distinct : NoDup (sg_path outputdir <$> songs).
Proof.
  assert (Heq : sg_path outputdir <$> songs
                = path_under outputdir <$> (sg_name <$> songs)).
  { rewrite <- list_fmap_compose. apply list_fmap_ext.
    intros i s Hs. apply sg_path_under. by eapply list_elem_of_lookup_2. }
  rewrite Heq. apply NoDup_fmap_2; [|done].
  intros name name'. apply path_under_inj.
Qed.

Lemma any_paths_not_dir s : s ∈ songs -> sg_path outputdir s <> outputdir.
Proof.
  intros Hin Heq. rewrite (sg_path_under s Hin) in Heq.
  apply (f_equal (Str.contains "/")) in Heq.
  unfold path_under in Heq. rewrite contains_sep_app, dir_bare in Heq.
  change ("/" +:+ sg_name s +:+ ".txt") with (String posixpath.sep (sg_name s +:+ ".txt"))
    in Heq.
  rewrite contains_sep_cons, Ascii.eqb_refl in Heq. done.
Qed.

Lemma isdir_bare (m : gmap string entry) :
  os.isdir m outputdir = match m !! outputdir with Some Dir => true | _ => false end.
Proof.
  unfold os.isdir. rewrite (all_char_bare outputdir dir_not_empty dir_bare).
  assert (String.eqb outputdir os.curdir = false) as -> by by apply String.eqb_neq.
  by destruct outputdir.
Qed.

Lemma any_makedirs (m : gmap string entry) :
  m !! outputdir = None \/ m !! outputdir = Some Dir ->
  os.makedirs outputdir m = inr (<[outputdir := Dir]> m).
Proof.
  intros H. unfold os.makedirs.
  assert (Hrec : forall fuel,
            os.makedirs_rec fuel outputdir m = inr (<[outputdir := Dir]> m)); [|apply Hrec].
  intros fuel.
  assert (Hbody : (let '(head, tail) := posixpath.split outputdir in
            let '(head, tail) :=
              if Str.is_empty tail then posixpath.split head else (head, tail) in
            negb (Str.is_empty head) && negb (Str.is_empty tail)
            && negb (os.exists_ m head)) = false).
  { rewrite (split_bare outputdir dir_bare).
    assert (Str.is_empty outputdir = false) as -> by by destruct outputdir.
    done. }
  assert (Hfinish : match os.mkdir outputdir m with
                    | inr fs' => inr fs'
                    | inl e => if os.isdir m outputdir then inr m else inl e
                    end = (inr (<[outputdir := Dir]> m) : exn + gmap string entry)).
  { unfold os.mkdir, os.exists_, os.parent_check.
    rewrite isdir_bare, (dirname_bare outputdir dir_bare).
    assert (Str.is_empty outputdir = false) as -> by by destruct outputdir.
    destruct H as [-> | Hd].
    - done.
    - rewrite Hd. cbn. by rewrite insert_id. }
  destruct fuel as [|fuel]; cbn [os.makedirs_rec];
    destruct (posixpath.split outputdir) as [head tail];
    destruct (if Str.is_empty tail then posixpath.split head else (head, tail))
      as [head' tail'];
    rewrite Hbody; exact Hfinish.
Qed.

Lemma any_open s (m : gmap string entry) :
  s ∈ songs -> m !! outputdir = Some Dir -> m !! sg_path outputdir s <> Some Dir ->
  os.open_w (sg_path outputdir s) m = inr (<[sg_path outputdir s := File EmptyString]> m).
Proof.
  intros Hin Hd Hp. unfold os.open_w, os.parent_check.
  rewrite (any_paths_in_dir s Hin), isdir_bare, Hd.
  assert (Str.is_empty outputdir = false) as -> by by destruct outputdir.
  cbn [orb].
  assert (Hpath : sg_path outputdir s
                  = (outputdir +:+ String posixpath.sep (sg_name s)) +:+ ".txt").
  { rewrite (sg_path_under s Hin). unfold path_under.
    by rewrite string_append_assoc. }
  assert (Hend : Str.endswith_char posixpath.sep (sg_path outputdir s) = false).
  { rewrite Hpath. by rewrite endswith_append_char. }
  assert (Hdir : os.isdir m (sg_path outputdir s) = false).
  { unfold os.isdir. rewrite (not_dir_cases _ _ Hp).
    rewrite (sg_path_under s Hin). unfold path_under.
    destruct outputdir as [|c d] eqn:E; [done|].
    change (String c d +:+ "/" +:+ sg_name s +:+ ".txt")
      with (String c (d +:+ "/" +:+ sg_name s +:+ ".txt")).
    rewrite contains_sep_cons in dir_bare.
    apply orb_false_iff in dir_bare as [Hc _].
    cbn [Str.all_char Str.is_empty negb andb]. rewrite Hc. cbn [andb orb].
    rewrite !orb_false_r. apply String.eqb_neq. intros [= _ Hrest].
    by destruct d. }
  rewrite Hdir, Hend.
  assert (Str.is_empty (sg_path outputdir s) = false) as ->.
  { rewrite (sg_path_under s Hin). unfold path_under. by destruct outputdir. }
  done.
Qed.

End any_songs.

(** X15: the fan-out of an album with any number of songs.  For an output
    directory that is one path segment other than [.], and distinct song
    names without a slash, all linked on the album page and served by the
    site: every run of [get_lyrics_com_album] that completes, whatever the
    schedule, either succeeds, and then every song has its file
    [outputdir/name.txt] with the lyrics of its page, or fails with the
    [AttributeError] of a song page without the lyric block; either way
    nothing exists but the directory and the song files.  The run does
    complete on every schedule that gives the album task three turns, then
    each song seven, then the album task one more. *)
Theorem album_fan_out_any_songs (fuel : nat) (BeautifulSoup : string -> node)
    (session : ClientSession) (album outputdir : string)
    (album_response : ClientResponse) (album_page : string) (tbody : node)
    (songs : list song) (w0 : World) :
  let crawl := get_lyrics_com_album (S fuel) BeautifulSoup session album outputdir in
  outputdir <> EmptyString -> Str.contains "/" outputdir = false -> outputdir <> "." ->
  Forall (fun s => Str.contains "/" (sg_name s) = false) songs ->
  songs <> [] ->
  listed BeautifulSoup session album album_response album_page tbody songs ->
  Forall (served BeautifulSoup session) songs ->
  closed w0 = false -> fs w0 = ∅ ->
  (forall sched r l',
      run_until_complete sched (start crawl w0) = (Some r, l') ->
      match r with
      | None =>
          forall s, s ∈ songs ->
            exists text, sg_lyrics s = Some text /\
              fs (world l') !! path_under outputdir (sg_name s) = Some (File text)
      | Some e =>
          e = NoneType_has_no "get_text" /\ exists s, s ∈ songs /\ sg_lyrics s = None
      end
      /\ (forall q, q <> outputdir ->
            (forall s, s ∈ songs -> q <> path_under outputdir (sg_name s)) ->
            fs (world l') !! q = None))
  /\ (forall s0 s2 rest,
        3 <= occurrences 0 s0 ->
        (forall j, j < length songs -> 7 <= occurrences (S j) s2) ->
        exists r l',
          run_until_complete (s0 ++ s2 ++ 0 :: rest) (start crawl w0) = (Some r, l')).
Proof.
  intros crawl Hne Hbare Hdot Hnames Hsome Hlisted Hserved Hc Hfs.
  pose proof Hlisted as (_ & _ & _ & _ & Hdistinct).
  pose proof (any_paths_in_dir outputdir songs Hne Hbare Hnames) as Hin_dir.
  pose proof (any_paths_distinct outputdir songs Hne Hbare Hnames Hdistinct) as Hdist.
  pose proof (any_paths_not_dir outputdir songs Hne Hbare Hnames) as Hnot_dir.
  pose proof (any_makedirs outputdir Hne Hbare Hdot) as Hmk.
  pose proof (any_open outputdir songs Hne Hbare Hdot Hnames) as Hopen.
  split.
  - intros sched r l' Hrun. split.
    + pose proof (album_run_outcome fuel BeautifulSoup session album outputdir
                    album_response album_page tbody songs outputdir Hin_dir Hdist
                    Hnot_dir Hmk Hopen
                    (listed_listing _ _ _ _ _ _ _ Hlisted) Hserved Hsome w0 sched r l' Hc Hfs Hrun)
        as Hout.
      destruct r as [e|]; [done|].
      intros s Hin. destruct (Hout s Hin) as (text & Hly & Hfile).
      exists text. split; [done|].
      by rewrite <- (sg_path_under outputdir songs Hne Hbare Hnames s Hin).
    + pose proof (album_run_files fuel BeautifulSoup session album outputdir
                    album_response album_page tbody songs outputdir Hin_dir Hdist
                    Hnot_dir Hmk Hopen
                    (listed_listing _ _ _ _ _ _ _ Hlisted) Hserved Hsome w0 sched r l' Hc Hfs Hrun)
        as (_ & Hrest & _).
      intros q Hq Hothers. apply Hrest; [done|].
      intros s Hin Heq. apply (Hothers s Hin).
      by rewrite <- (sg_path_under outputdir songs Hne Hbare Hnames s Hin).
  - intros s0 s2 rest Hocc0 Hocc2.
    by apply (album_run_total fuel BeautifulSoup session album outputdir
                album_response album_page tbody songs outputdir Hin_dir Hdist
                Hnot_dir Hmk Hopen
                    (listed_listing _ _ _ _ _ _ _ Hlisted) Hserved Hsome w0 s0 s2 rest Hc Hfs).
Qed.

Lemma album_fan_out_any_songs_witness :
  let songs := abc_songs (body_of "page of A") (body_of "page of B") (body_of "page of C")
                 "page of A" "page of B" "page of C"
                 (Some "lyrics of A") None (Some "lyrics of C") in
  let crawl := get_lyrics_com_album 1 abc_parser_without_B abc_session "floodland-1"
                 "data" in
  (forall sched r l',
      run_until_complete sched (start crawl empty_world) = (Some r, l') ->
      match r with
      | None =>
          forall s, s ∈ songs ->
            exists text, sg_lyrics s = Some text /\
              fs (world l') !! path_under "data" (sg_name s) = Some (File text)
      | Some e =>
          e = NoneType_has_no "get_text" /\ exists s, s ∈ songs /\ sg_lyrics s = None
      end
      /\ (forall q, q <> "data" ->
            (forall s, s ∈ songs -> q <> path_under "data" (sg_name s)) ->
            fs (world l') !! q = None))
  /\ (forall s0 s2 rest,
        3 <= occurrences 0 s0 ->
        (forall j, j < length songs -> 7 <= occurrences (S j) s2) ->
        exists r l',
          run_until_complete (s0 ++ s2 ++ 0 :: rest) (start crawl empty_world)
          = (Some r, l')).
Proof.
  apply (album_fan_out_any_songs 0 abc_parser_without_B abc_session "floodland-1" "data"
           (body_of "album page") "album page" abc_tbody
           (abc_songs (body_of "page of A") (body_of "page of B") (body_of "page of C")
              "page of A" "page of B" "page of C"
              (Some "lyrics of A") None (Some "lyrics of C"))
           empty_world).
  - done.
  - reflexivity.
  - done.
  - repeat constructor.
  - done.
  - repeat split; try reflexivity. apply (bool_decide_unpack _). by vm_compute.
  - repeat constructor; eexists; split; reflexivity.
  - reflexivity.
  - reflexivity.
Defined.

(** ** [fetch] has no retry limit *)

(** X16: while the body keeps failing with the retried error, [fetch]
    neither returns nor raises: whatever the unrolling bound [n], the run
    has read [n] times, printed the notice and slept 5 after each, and is
    still in the loop. *)
Theorem fetch_has_no_retry_limit (n : nat) (session : ClientSession) (url : string)
    (response : ClientResponse) (w : World) :
  closed w = false ->
  session url = inr response ->
  (forall k, exists err, response k = inl err /\ retryable err = true) ->
  exec (fetch n session url) w = (Diverged, extend (EvGet url :: retry_events 0 n) w)
  /\ sleeps_of (EvGet url :: retry_events 0 n) = repeat 5%Z n
  /\ reads_of (EvGet url :: retry_events 0 n) = seq 0 n.
Proof.
  intros Hc Hs Hfail. split; [|split].
  - rewrite (exec_fetch _ _ _ response) by done.
    rewrite (exec_fetch_loop_diverges response n 0) by done.
    by rewrite extend_extend.
  - change (sleeps_of (EvGet url :: retry_events 0 n)) with (sleeps_of (retry_events 0 n)).
    apply sleeps_of_retry_events.
  - change (reads_of (EvGet url :: retry_events 0 n)) with (reads_of (retry_events 0 n)).
    generalize 0. induction n as [|n IH]; intros a; [done|].
    simpl. f_equal. apply IH.
Qed.

Lemma fetch_has_no_retry_limit_witness :
  exec (fetch 7 (one_page_session "http://lyrics.com/artist/X" always_reset)
          "http://lyrics.com/artist/X") empty_world
  = (Diverged,
     extend (EvGet "http://lyrics.com/artist/X" :: retry_events 0 7) empty_world)
  /\ sleeps_of (EvGet "http://lyrics.com/artist/X" :: retry_events 0 7) = repeat 5%Z 7
  /\ reads_of (EvGet "http://lyrics.com/artist/X" :: retry_events 0 7) = seq 0 7.
Proof.
  apply (fetch_has_no_retry_limit 7
           (one_page_session "http://lyrics.com/artist/X" always_reset)
           "http://lyrics.com/artist/X" always_reset empty_world).
  - reflexivity.
  - reflexivity.
  - intros k. exists connection_reset. split; reflexivity.
Defined.

(** ** The notice of a written song *)

Lemma never_prints_bind {A B : Type} line (c : coro A) (f : A -> coro B) :
  never_prints line c -> (forall a, never_prints line (f a)) ->
  never_prints line (bind c f).
Proof.
  revert B f.
  induction c as [A r|A e|A|A X op k IH|A aws k IH]; intros B f Hc Hf; simpl; try done.
  destruct Hc as [Hop Hk]. split; [done|]. intros x. by apply IH.
Qed.

Lemma never_prints_mbind {A B : Type} line (c : coro A) (f : A -> coro B) :
  never_prints line c -> (forall a, never_prints line (f a)) ->
  never_prints line (c ≫= f).
Proof. apply never_prints_bind. Qed.

Lemma never_prints_try_except {A : Type} line (c : coro A) (h : exn -> coro A) :
  never_prints line c -> (forall e, never_prints line (h e)) ->
  never_prints line (try_except c h).
Proof.
  induction c as [A r|A e|A|A X op k IH|A aws k IH]; intros Hc Hh; simpl; try done.
  destruct Hc as [Hop Hk]. split; [done|]. intros x. by apply IH.
Qed.

Lemma perform_never_prints {X : Type} line (op : io X) w :
  prints line op = false ->
  exists ev, log (perform op w).2 = log w ++ [ev] /\ ev <> EvPrint line.
Proof.
  destruct op; simpl; intros Hp; try (by eexists; split; [reflexivity|]).
  - eexists; split; [reflexivity|]. intros [= ->]. by rewrite String.eqb_refl in Hp.
  - destruct (os.makedirs name (fs w)); by eexists; split; [reflexivity|].
  - destruct (os.open_w path (fs w)); by eexists; split; [reflexivity|].
Qed.

Lemma exec_never_prints {R : Type} line (c : coro R) w :
  never_prints line c ->
  exists evs, log (exec c w).2 = log w ++ evs /\ EvPrint line ∉ evs.
Proof.
  revert w.
  induction c as [A r|A e|A|A X op k IH|A aws k IH]; intros w Hc; simpl;
    try (exists nil; split; [by rewrite app_nil_r|apply not_elem_of_nil]).
  destruct Hc as [Hop Hk].
  destruct (perform_never_prints line op w Hop) as (ev & Hlog & Hev).
  destruct (perform op w) as [x w'] eqn:E. simpl in *.
  destruct (IH x w' (Hk x)) as (evs & Hlog' & Hevs).
  exists (ev :: evs). split; [by rewrite Hlog', Hlog, <- app_assoc|].
  intros [?|?]%elem_of_cons; congruence.
Qed.

Lemma song_text_never_prints_written fuel BeautifulSoup session song_fragment song_name :
  never_prints ("---written " +:+ song_name)
    (get_lyrics_com_song fuel BeautifulSoup session song_fragment).
Proof.
  unfold get_lyrics_com_song. apply never_prints_mbind; [by destruct song_fragment|].
  intros url. apply never_prints_mbind.
  - unfold fetch. apply never_prints_mbind.
    + simpl. split; [done|]. by intros [e|r].
    + intros response. generalize 0.
      induction fuel as [|n IH]; intros attempt; [done|].
      simpl. split; [done|]. intros [err|text]; simpl; [|done].
      destruct (isinstance_ClientOSError err); [|done].
      destruct (Str.contains "54" (exn_str err)); [|done].
      simpl. split; [reflexivity|]. intros _. split; [done|]. intros _. apply IH.
  - intros text. apply never_prints_mbind; [|done].
    by destruct (bs4.find _ _ _).
Qed.

(** X17: the notice [---written <name>] is printed only for a song that
    has been written: a song task that returns has printed it last, right
    after the write, and its file then holds the text; a task that raises,
    or is still retrying, has not printed it. *)
Theorem written_notice_means_written (fuel : nat) (BeautifulSoup : string -> node)
    (session : ClientSession) (directory song_name : string)
    (song_fragment : option string) (w : World) :
  let song := get_and_write_lyrics_com_song fuel BeautifulSoup session directory
                song_name song_fragment in
  let path := posixpath.join directory (song_name +:+ ".txt") in
  let notice := EvPrint ("---written " +:+ song_name) in
  exists evs,
    log (exec song w).2 = log w ++ evs /\
    match (exec song w).1 with
    | Returned _ =>
        exists evs0 text,
          evs = evs0 ++ [EvWrite path text; notice] /\ (notice ∉ evs0) /\
          fs (exec song w).2 !! path = Some (File text)
    | _ => notice ∉ evs
    end.
Proof.
  intros song path notice. subst song path notice.
  destruct (exec_never_prints _ _ w
              (song_text_never_prints_written fuel BeautifulSoup session song_fragment
                 song_name)) as (evs1 & Hlog1 & Hevs1).
  rewrite exec_get_and_write.
  destruct (exec (get_lyrics_com_song fuel BeautifulSoup session song_fragment) w)
    as [[text|e| |aws k] w1] eqn:E; cbn [then_exec fst snd] in *;
    try (by exists evs1).
  rewrite exec_mbind, exec_write. cbn zeta.
  destruct (os.makedirs _ _) as [e|fs1]; simpl.
  { exists (evs1 ++ [EvMakedirs (posixpath.dirname
                        (posixpath.join directory (song_name +:+ ".txt")))]).
    rewrite Hlog1, <- app_assoc. split; [done|].
    intros [?|[= ]%list_elem_of_singleton]%elem_of_app. done. }
  destruct (os.open_w _ _) as [e|fs2]; simpl.
  { exists (evs1 ++ [EvMakedirs (posixpath.dirname
                        (posixpath.join directory (song_name +:+ ".txt")));
                     EvOpen (posixpath.join directory (song_name +:+ ".txt"))]).
    rewrite Hlog1, <- app_assoc. split; [done|].
    intros [?|Hin]%elem_of_app; [done|].
    apply elem_of_cons in Hin as [[= ]|[= ]%list_elem_of_singleton]. }
  eexists. rewrite Hlog1, <- !app_assoc. split; [reflexivity|].
  exists (evs1 ++ [EvMakedirs (posixpath.dirname
                     (posixpath.join directory (song_name +:+ ".txt")));
                   EvOpen (posixpath.join directory (song_name +:+ ".txt"))]), text.
  split; [by rewrite <- app_assoc|]. split.
  - intros [?|Hin]%elem_of_app; [done|].
    apply elem_of_cons in Hin as [[= ]|[= ]%list_elem_of_singleton].
  - unfold os.write_file. apply lookup_insert_eq.
Qed.

(** * Songs listed more than once *)






(** On the twice-listed album, a run in which both songs complete: two song
    tasks, the page of the first link of Dominion is never requested although
    the site serves it, and [Dominion.txt] holds the lyrics of the last
    link. *)
Example twice_listed_run :
  let run := run_until_complete ([0; 0; 0] ++ (repeat 1 7 ++ repeat 2 7) ++ [0])
               (start (get_lyrics_com_album 1 twice_listed_parser twice_listed_session
                         "floodland-1" "out") empty_world) in
  run.1 = Some None
  /\ length (tasks run.2) = 3
  /\ fs (world run.2)
     = <["out" := Dir]> (<["out/Dominion.txt" := File "Dominion, as last listed"]>
                           (<["out/Flood.txt" := File "Flood"]> ∅))
  /\ List.filter (fun ev => match ev with EvGet _ => true | _ => false end)
       (log (world run.2))
     = [EvGet "http://lyrics.com/album/floodland-1";
        EvGet "http://lyrics.com/lyric/3/Dominion";
        EvGet "http://lyrics.com/lyric/2/Flood"]
  /\ twice_listed_session "http://lyrics.com/lyric/1/Dominion"
     = inr (body_of "first page of Dominion").
Proof. vm_compute. repeat split; reflexivity. Qed.
